(** * supaDraw: the drawing canvas, its pages and its undo/redo history

    A shallow embedding of [src/tools.py] (the stroke and page records) and
    of [src/canvas.py] (the [DrawingCanvas] widget: pointer state machine,
    eraser, undo/redo, shape and arrow rendering).

    Conventions of the embedding.
    - A Python [float] is idealised as a real number ([R]); rounding is not
      modelled.  [event.pos()] is a [QPoint] with integer coordinates.
    - A Python exception ([IndexError]) is the result [None].
    - Lists are Python lists in source order: [append] adds at the end,
      [pop()] removes the last item, [l[:-1]] is [removelast l].
    - Python objects are values here.  That is sound for this code: the
      undo history holds copies ([strokes.copy()]), [strokes[:-1]] and
      [remaining] are fresh lists, a snapshot handed back by [redo] has
      left the history, and the stroke under construction is dropped from
      [current_stroke] as soon as it is committed.
    - Signals ([emit]) and repaint requests ([self.update()]) do not change
      the state and are left out; painting returns the list of primitives
      handed to the painter.
    - PyQt5 gives [QPointF] a [__bool__] that answers [not isNull()], and
      Qt5's [isNull] holds exactly when both coordinates are zero.  The
      tests [a and b] on optional points are modelled with that truth value. *)

From Stdlib Require String.
From Stdlib Require Import Reals Lra Lia ZArith List.
From stdpp Require Import base option list.
Import ListNotations.

Open Scope R_scope.

(** ** Comparisons on floats, as booleans *)

Definition Rltb (a b : R) : bool := if Rlt_dec a b then true else false.
Definition Rgtb (a b : R) : bool := Rltb b a.
Definition Reqb (a b : R) : bool := if Req_dec_T a b then true else false.

(** [math.hypot] *)
Definition hypot (x y : R) : R := sqrt (x * x + y * y).

(** [math.radians] *)
Definition radians (deg : R) : R := deg * PI / 180.

(** [math.atan2(y, x)], by the quadrant of [(x, y)]. *)
Definition atan2 (y x : R) : R :=
  if Rlt_dec 0 x then atan (y / x)
  else if Rlt_dec x 0 then
         (if Rle_dec 0 y then atan (y / x) + PI else atan (y / x) - PI)
  else if Rlt_dec 0 y then PI / 2
  else if Rlt_dec y 0 then - (PI / 2)
  else 0.

(** ** Qt value types *)

(** [QPoint]: integer widget coordinates of a pointer event. *)
Record QPoint := mkQPoint { qx : Z; qy : Z }.

Record QPointF := mkQPointF { px : R; py : R }.

(** [QPointF(pos)] *)
Definition QPointF_of (pos : QPoint) : QPointF :=
  mkQPointF (IZR (qx pos)) (IZR (qy pos)).

(** [QPointF.isNull()] and the truth value PyQt5 derives from it. *)
Definition isNull (p : QPointF) : bool := Reqb (px p) 0 && Reqb (py p) 0.
Definition QPointF_bool (p : QPointF) : bool := negb (isNull p).

(** Truth value of an [Optional[QPointF]]. *)
Definition truthy (o : option QPointF) : bool :=
  match o with
  | None => false
  | Some p => QPointF_bool p
  end.

(** The test [a and b] on two optional points, handing out both points
    when it succeeds. *)
Definition both_points (a b : option QPointF) : option (QPointF * QPointF) :=
  match a, b with
  | Some s, Some e => if QPointF_bool s && QPointF_bool e then Some (s, e) else None
  | _, _ => None
  end.

(** [QRectF(topLeft, bottomRight)] and [QRectF.normalized()]. *)
Record QRectF := mkQRectF { rx : R; ry : R; rw : R; rh : R }.

Definition QRectF_of (s e : QPointF) : QRectF :=
  mkQRectF (px s) (py s) (px e - px s) (py e - py s).

Definition normalized (r : QRectF) : QRectF :=
  let '(x, w) := if Rlt_dec (rw r) 0 then (rx r + rw r, - rw r) else (rx r, rw r) in
  let '(y, h) := if Rlt_dec (rh r) 0 then (ry r + rh r, - rh r) else (ry r, rh r) in
  mkQRectF x y w h.

(** [QColor], as its [0xRRGGBB] value. *)
Definition QColor := Z.

(** ** src/tools.py *)

Inductive ToolType :=
  PEN | HIGHLIGHTER | CHISEL | ERASER | LINE | RECTANGLE | CIRCLE | ARROW | CURSOR.

Inductive BackgroundType := NONE | WHITE | GRID | LINED | DOTTED | BLACKBOARD.

Record Stroke := mkStroke {
  points : list QPointF;
  color : QColor;
  width : R;
  tool : ToolType;
  opacity : R;
  start_point : option QPointF;
  end_point : option QPointF
}.

Record ImageStamp := mkImageStamp {
  img_path : String.string;
  img_x : R; img_y : R; img_width : R; img_height : R; img_rotation : R
}.

Record Page := mkPage {
  strokes : list Stroke;
  images : list ImageStamp;
  background : BackgroundType;
  undo_stack : list (list Stroke);
  redo_stack : list (list Stroke)
}.

(** [Page()] and [Page(background=bg)] *)
Definition new_Page (bg : BackgroundType) : Page := mkPage [] [] bg [] [].

Definition DEFAULT_COLORS : list QColor :=
  [ 0x1a1a2e; 0xe94560; 0x0f3460; 0x16c79a; 0xf5a623;
    0x8b5cf6; 0xffffff; 0xf472b6; 0x06b6d4; 0x84cc16 ]%Z.

(** [TOOL_DEFAULTS.get(tool, {})] followed by [.get("width", 3.0)] and
    [.get("opacity", 1.0)]; [CURSOR] has no entry. *)
Definition default_width (t : ToolType) : R :=
  match t with
  | HIGHLIGHTER => 20
  | CHISEL => 8
  | ERASER => 25
  | _ => 3
  end.

Definition default_opacity (t : ToolType) : R :=
  match t with
  | HIGHLIGHTER => 35 / 100
  | _ => 1
  end.

Definition ToolType_eqb (a b : ToolType) : bool :=
  match a, b with
  | PEN, PEN | HIGHLIGHTER, HIGHLIGHTER | CHISEL, CHISEL | ERASER, ERASER
  | LINE, LINE | RECTANGLE, RECTANGLE | CIRCLE, CIRCLE | ARROW, ARROW
  | CURSOR, CURSOR => true
  | _, _ => false
  end.

(** [tool in (LINE, RECTANGLE, CIRCLE, ARROW)] *)
Definition is_shape_tool (t : ToolType) : bool :=
  match t with
  | LINE | RECTANGLE | CIRCLE | ARROW => true
  | _ => false
  end.

(** ** Python list helpers *)

(** [l.pop()]: the list without its last item, and that item. *)
Fixpoint pop {A} (l : list A) : option (list A * A) :=
  match l with
  | [] => None
  | x :: l' =>
      match pop l' with
      | None => Some ([], x)
      | Some (r, y) => Some (x :: r, y)
      end
  end.

(** ** Operations on the active page

    Each method of [DrawingCanvas] that starts with [page = self.page] is
    a function on that page, lifted to the canvas below. *)

(** [page.strokes.append(stroke); page.redo_stack.clear()] *)
Definition commit (stroke : Stroke) (page : Page) : Page :=
  mkPage (strokes page ++ [stroke]) (images page) (background page)
         (undo_stack page) [].

Definition undo_page (page : Page) : Page :=
  match strokes page with
  | [] => page
  | _ :: _ =>
      mkPage (removelast (strokes page)) (images page) (background page)
             (undo_stack page ++ [strokes page]) (redo_stack page)
  end.

Definition redo_page (page : Page) : Page :=
  match pop (undo_stack page) with
  | None => page
  | Some (rest, last_state) =>
      if (length (strokes page) <? length last_state)%nat
      then mkPage last_state (images page) (background page) rest (redo_stack page)
      else mkPage (strokes page) (images page) (background page) rest (redo_stack page)
  end.

Definition clear_page_page (page : Page) : Page :=
  match strokes page with
  | [] => page
  | _ :: _ =>
      mkPage [] (images page) (background page)
             (undo_stack page ++ [strokes page]) (redo_stack page)
  end.

(** The inner loop of [_erase_at]: is some point of the freehand stroke
    nearer than the radius? *)
Definition freehand_hit (pos : QPointF) (eraser_radius : R) (pts : list QPointF) : bool :=
  existsb (fun pt => Rltb (hypot (px pos - px pt) (py pos - py pt)) eraser_radius) pts.

(** One turn of the outer loop of [_erase_at]: does the stroke go to
    [remaining]? *)
Definition stays (pos : QPointF) (eraser_radius : R) (stroke : Stroke) : bool :=
  match both_points (start_point stroke) (end_point stroke) with
  | Some (s, e) =>
      let mid := mkQPointF ((px s + px e) / 2) ((py s + py e) / 2) in
      let dist := hypot (px pos - px mid) (py pos - py mid) in
      Rgtb dist (eraser_radius * 2)
  | None => negb (freehand_hit pos eraser_radius (points stroke))
  end.

(** The list [remaining] built by the outer loop. *)
Definition remaining_of (pos : QPointF) (eraser_radius : R) (l : list Stroke) : list Stroke :=
  fold_left (fun remaining stroke =>
               if stays pos eraser_radius stroke then remaining ++ [stroke] else remaining)
            l [].

Definition erase_page (pos : QPointF) (eraser_radius : R) (page : Page) : Page :=
  let remaining := remaining_of pos eraser_radius (strokes page) in
  if (length remaining <? length (strokes page))%nat
  then mkPage remaining (images page) (background page)
              (undo_stack page ++ [strokes page]) (redo_stack page)
  else page.

(** ** src/canvas.py: the widget state *)

Definition SMOOTHING_FACTOR : R := 3 / 10.
Definition MIN_SHAPE_SIZE : R := 10.

Record DrawingCanvas := mkCanvas {
  current_tool : ToolType;
  current_color : QColor;
  current_width : R;
  current_opacity : R;
  pages : list Page;
  current_page_idx : nat;
  drawing : bool;
  current_stroke : option Stroke;
  shape_start : option QPointF;
  shape_preview_end : option QPointF;
  desktop_mode : bool
}.

(** [DrawingCanvas.__init__] *)
Definition init : DrawingCanvas :=
  mkCanvas PEN 0x1a1a2e%Z 3 1 [new_Page NONE] 0 false None None None false.

(** Field updates. *)
Definition with_pages (ps : list Page) (c : DrawingCanvas) : DrawingCanvas :=
  mkCanvas (current_tool c) (current_color c) (current_width c) (current_opacity c)
           ps (current_page_idx c) (drawing c) (current_stroke c)
           (shape_start c) (shape_preview_end c) (desktop_mode c).

Definition with_idx (i : nat) (c : DrawingCanvas) : DrawingCanvas :=
  mkCanvas (current_tool c) (current_color c) (current_width c) (current_opacity c)
           (pages c) i (drawing c) (current_stroke c)
           (shape_start c) (shape_preview_end c) (desktop_mode c).

Definition with_drawing (b : bool) (c : DrawingCanvas) : DrawingCanvas :=
  mkCanvas (current_tool c) (current_color c) (current_width c) (current_opacity c)
           (pages c) (current_page_idx c) b (current_stroke c)
           (shape_start c) (shape_preview_end c) (desktop_mode c).

Definition with_stroke (s : option Stroke) (c : DrawingCanvas) : DrawingCanvas :=
  mkCanvas (current_tool c) (current_color c) (current_width c) (current_opacity c)
           (pages c) (current_page_idx c) (drawing c) s
           (shape_start c) (shape_preview_end c) (desktop_mode c).

Definition with_shape (s e : option QPointF) (c : DrawingCanvas) : DrawingCanvas :=
  mkCanvas (current_tool c) (current_color c) (current_width c) (current_opacity c)
           (pages c) (current_page_idx c) (drawing c) (current_stroke c)
           s e (desktop_mode c).

Definition with_desktop_mode (b : bool) (c : DrawingCanvas) : DrawingCanvas :=
  mkCanvas (current_tool c) (current_color c) (current_width c) (current_opacity c)
           (pages c) (current_page_idx c) (drawing c) (current_stroke c)
           (shape_start c) (shape_preview_end c) b.

(** The property [page]: [self.pages[self.current_page_idx]]. *)
Definition page (c : DrawingCanvas) : option Page :=
  pages c !! current_page_idx c.

(** Run a page method on the active page and store the page back. *)
Definition on_page (f : Page -> Page) (c : DrawingCanvas) : option DrawingCanvas :=
  p ← page c;
  Some (with_pages (<[current_page_idx c := f p]> (pages c)) c).

(** ** Tool selection *)

Definition set_tool (t : ToolType) (c : DrawingCanvas) : option DrawingCanvas :=
  (* the eraser alone reads [self.page] *)
  col ← (if ToolType_eqb t ERASER
         then p ← page c;
              Some (match background p with
                    | NONE => current_color c
                    | _ => 0xf8f9fa%Z
                    end)
         else Some (current_color c));
  Some (mkCanvas t col (default_width t) (default_opacity t)
                 (pages c) (current_page_idx c) (drawing c) (current_stroke c)
                 (shape_start c) (shape_preview_end c) (desktop_mode c)).

Definition set_color (col : QColor) (c : DrawingCanvas) : DrawingCanvas :=
  mkCanvas (current_tool c) col (current_width c) (current_opacity c)
           (pages c) (current_page_idx c) (drawing c) (current_stroke c)
           (shape_start c) (shape_preview_end c) (desktop_mode c).

(** [max(1.0, min(80.0, width))] *)
Definition set_width (w : R) (c : DrawingCanvas) : DrawingCanvas :=
  mkCanvas (current_tool c) (current_color c) (Rmax 1 (Rmin 80 w)) (current_opacity c)
           (pages c) (current_page_idx c) (drawing c) (current_stroke c)
           (shape_start c) (shape_preview_end c) (desktop_mode c).

(** ** Background and pages *)

Definition set_background (bg : BackgroundType) (c : DrawingCanvas) : option DrawingCanvas :=
  on_page (fun p => mkPage (strokes p) (images p) bg (undo_stack p) (redo_stack p)) c.

(** [self.pages.insert(i, new_page)] with [i <= len(self.pages)]. *)
Definition list_insert_at {A} (i : nat) (x : A) (l : list A) : list A :=
  take i l ++ x :: drop i l.

Definition add_page (c : DrawingCanvas) : option DrawingCanvas :=
  p ← page c;
  let i := S (current_page_idx c) in
  Some (with_idx i (with_pages (list_insert_at i (new_Page (background p)) (pages c)) c)).

Definition prev_page (c : DrawingCanvas) : DrawingCanvas :=
  if (0 <? current_page_idx c)%nat then with_idx (current_page_idx c - 1) c else c.

Definition next_page (c : DrawingCanvas) : DrawingCanvas :=
  if (current_page_idx c <? length (pages c) - 1)%nat
  then with_idx (current_page_idx c + 1) c else c.

(** ** Undo, redo, clear *)

Definition undo : DrawingCanvas -> option DrawingCanvas := on_page undo_page.
Definition redo : DrawingCanvas -> option DrawingCanvas := on_page redo_page.
Definition clear_page : DrawingCanvas -> option DrawingCanvas := on_page clear_page_page.

Definition toggle_desktop_mode (c : DrawingCanvas) : DrawingCanvas :=
  with_desktop_mode (negb (desktop_mode c)) c.

(** ** Eraser *)

Definition _erase_at (pos : QPointF) (c : DrawingCanvas) : option DrawingCanvas :=
  on_page (erase_page pos (current_width c)) c.

(** ** Pointer events *)

Inductive MouseButton := LeftButton | RightButton | MidButton.

Definition is_left (b : MouseButton) : bool :=
  match b with LeftButton => true | _ => false end.

Definition mousePressEvent (button : MouseButton) (pos : QPoint) (c : DrawingCanvas)
  : option DrawingCanvas :=
  if negb (is_left button) then Some c
  else if ToolType_eqb (current_tool c) CURSOR then Some c
  else if is_shape_tool (current_tool c) then
    Some (with_drawing true
            (with_shape (Some (QPointF_of pos)) (Some (QPointF_of pos)) c))
  else if ToolType_eqb (current_tool c) ERASER then
    c' ← _erase_at (QPointF_of pos) c;
    Some (with_drawing true c')
  else
    Some (with_stroke
            (Some (mkStroke [QPointF_of pos] (current_color c) (current_width c)
                            (current_tool c) (current_opacity c) None None))
            (with_drawing true c)).

(** The smoothed point appended by a pointer move. *)
Definition smoothed (last : QPointF) (pos : QPoint) : QPointF :=
  mkQPointF (px last + (IZR (qx pos) - px last) * (1 - SMOOTHING_FACTOR))
            (py last + (IZR (qy pos) - py last) * (1 - SMOOTHING_FACTOR)).

(** [stroke.points.append(pt)] on the stroke under construction. *)
Definition append_point (pt : QPointF) (s : Stroke) : Stroke :=
  mkStroke (points s ++ [pt]) (color s) (width s) (tool s) (opacity s)
           (start_point s) (end_point s).

Definition mouseMoveEvent (pos : QPoint) (c : DrawingCanvas) : option DrawingCanvas :=
  if negb (drawing c) then Some c
  else if is_shape_tool (current_tool c) then
    Some (with_shape (shape_start c) (Some (QPointF_of pos)) c)
  else if ToolType_eqb (current_tool c) ERASER then
    _erase_at (QPointF_of pos) c
  else
    match current_stroke c with
    | Some s =>
        (* [points[-1]] raises on an empty list *)
        lp ← last (points s);
        Some (with_stroke (Some (append_point (smoothed lp pos) s)) c)
    | None => Some c
    end.

Definition mouseReleaseEvent (button : MouseButton) (c : DrawingCanvas)
  : option DrawingCanvas :=
  if negb (is_left button) then Some c
  else if negb (drawing c) then Some c
  else
    let c := with_drawing false c in
    p ← page c;
    if is_shape_tool (current_tool c) then
      let c' :=
        match both_points (shape_start c) (shape_preview_end c) with
        | Some _ =>
            let stroke := mkStroke [] (current_color c) (current_width c)
                                   (current_tool c) (current_opacity c)
                                   (shape_start c) (shape_preview_end c) in
            with_pages (<[current_page_idx c := commit stroke p]> (pages c)) c
        | None => c
        end in
      Some (with_shape None None c')
    else
      let c' :=
        match current_stroke c with
        | Some s =>
            if (1 <? length (points s))%nat
            then with_pages (<[current_page_idx c := commit s p]> (pages c)) c
            else c
        | None => c
        end in
      Some (with_stroke None c').

(** ** Keyboard and wheel *)

(** Qt key codes used by [keyPressEvent]. *)
Definition Key_Z : Z := 0x5a.
Definition Key_Y : Z := 0x59.
Definition Key_1 : Z := 0x31.
Definition Key_9 : Z := 0x39.
Definition Key_Plus : Z := 0x2b.
Definition Key_Equal : Z := 0x3d.
Definition Key_Minus : Z := 0x2d.
Definition Key_Delete : Z := 0x01000007.
Definition Key_Backspace : Z := 0x01000003.

Definition keyPressEvent (key : Z) (ctrl shift : bool) (c : DrawingCanvas)
  : option DrawingCanvas :=
  if (key =? Key_Z)%Z && ctrl then undo c
  else if (key =? Key_Y)%Z && ctrl then redo c
  else if (key =? Key_Z)%Z && ctrl && shift then redo c
  else if ((key =? Key_Delete)%Z || (key =? Key_Backspace)%Z) && ctrl then clear_page c
  else if (Key_1 <=? key)%Z && (key <=? Key_9)%Z then
    match DEFAULT_COLORS !! Z.to_nat (key - Key_1) with
    | Some col => Some (set_color col c)
    | None => Some c
    end
  else if (key =? Key_Plus)%Z || (key =? Key_Equal)%Z then
    Some (set_width (current_width c + 2) c)
  else if (key =? Key_Minus)%Z then
    Some (set_width (current_width c - 2) c)
  else Some c.

Definition wheelEvent (delta : Z) (c : DrawingCanvas) : DrawingCanvas :=
  set_width (current_width c + IZR delta / 60) c.

(** ** Painting: the geometry handed to the painter *)

Inductive PathElement :=
| MoveTo (p : QPointF)
| LineTo (p : QPointF)
| QuadTo (ctrl p : QPointF).

Inductive DrawOp :=
| DrawLine (s e : QPointF)
| DrawRect (r : QRectF)
| DrawEllipse (r : QRectF)
| DrawPolygon (pts : list QPointF)
| DrawPath (path : list PathElement).

(** [_draw_arrow]; [pen_width] is [pen.widthF()]. *)
Definition _draw_arrow (pen_width : R) (start end_ : QPointF) : list DrawOp :=
  let angle := atan2 (py end_ - py start) (px end_ - px start) in
  let arrow_len := Rmax 15 (pen_width * 4) in
  let a1 := angle + radians 150 in
  let a2 := angle - radians 150 in
  let p1 := mkQPointF (px end_ + arrow_len * cos a1) (py end_ + arrow_len * sin a1) in
  let p2 := mkQPointF (px end_ + arrow_len * cos a2) (py end_ + arrow_len * sin a2) in
  [DrawLine start end_; DrawPolygon [end_; p1; p2]].

(** The loop of [_paint_chisel] over consecutive point pairs. *)
Fixpoint chisel_polygons (dx dy : R) (pts : list QPointF) : list DrawOp :=
  match pts with
  | p1 :: (p2 :: _) as tl =>
      DrawPolygon [ mkQPointF (px p1 - dx) (py p1 - dy);
                    mkQPointF (px p1 + dx) (py p1 + dy);
                    mkQPointF (px p2 + dx) (py p2 + dy);
                    mkQPointF (px p2 - dx) (py p2 - dy) ]
        :: chisel_polygons dx dy tl
  | _ => []
  end.

Definition _paint_chisel (stroke : Stroke) : list DrawOp :=
  let angle := radians 45 in
  let half_w := width stroke * (7 / 10) in
  chisel_polygons (cos angle * half_w) (sin angle * half_w) (points stroke).

(** The [quadTo] loop of the pen, over [points[1:]]. *)
Fixpoint quad_segments (pts : list QPointF) : list PathElement :=
  match pts with
  | p :: (q :: _) as tl =>
      QuadTo p (mkQPointF ((px p + px q) / 2) ((py p + py q) / 2)) :: quad_segments tl
  | _ => []
  end.

Definition pen_path (pts : list QPointF) : list PathElement :=
  match pts with
  | [] => []
  | p0 :: rest =>
      MoveTo p0 ::
        match rest with
        | [p1] => [LineTo p1]
        | _ => quad_segments rest ++
               match last pts with Some pl => [LineTo pl] | None => [] end
        end
  end.

Definition highlighter_path (pts : list QPointF) : list PathElement :=
  match pts with
  | [] => []
  | p0 :: rest => MoveTo p0 :: map LineTo rest
  end.

Definition _paint_stroke (stroke : Stroke) : list DrawOp :=
  match both_points (start_point stroke) (end_point stroke) with
  | Some (s, e) =>
      match tool stroke with
      | LINE => [DrawLine s e]
      | RECTANGLE => [DrawRect (normalized (QRectF_of s e))]
      | CIRCLE => [DrawEllipse (normalized (QRectF_of s e))]
      | ARROW => _draw_arrow (width stroke) s e
      | _ => []
      end
  | None =>
      if (length (points stroke) <? 2)%nat then []
      else
        match tool stroke with
        | CHISEL => _paint_chisel stroke
        | HIGHLIGHTER => [DrawPath (highlighter_path (points stroke))]
        | _ => [DrawPath (pen_path (points stroke))]
        end
  end.

(** ** Everything the host can ask of the canvas *)

Inductive Command :=
| SetTool (t : ToolType)
| SetColor (col : QColor)
| SetWidth (w : R)
| SetBackground (bg : BackgroundType)
| AddPage
| PrevPage
| NextPage
| Undo
| Redo
| ClearPage
| ToggleDesktopMode
| SetDesktopMode (b : bool)
| MousePress (button : MouseButton) (pos : QPoint)
| MouseMove (pos : QPoint)
| MouseRelease (button : MouseButton)
| KeyPress (key : Z) (ctrl shift : bool)
| Wheel (delta : Z).

Definition step (cmd : Command) (c : DrawingCanvas) : option DrawingCanvas :=
  match cmd with
  | SetTool t => set_tool t c
  | SetColor col => Some (set_color col c)
  | SetWidth w => Some (set_width w c)
  | SetBackground bg => set_background bg c
  | AddPage => add_page c
  | PrevPage => Some (prev_page c)
  | NextPage => Some (next_page c)
  | Undo => undo c
  | Redo => redo c
  | ClearPage => clear_page c
  | ToggleDesktopMode => Some (toggle_desktop_mode c)
  | SetDesktopMode b => Some (with_desktop_mode b c)
  | MousePress b pos => mousePressEvent b pos c
  | MouseMove pos => mouseMoveEvent pos c
  | MouseRelease b => mouseReleaseEvent b c
  | KeyPress key ctrl shift => keyPressEvent key ctrl shift c
  | Wheel delta => Some (wheelEvent delta c)
  end.

(** Run a sequence of commands, stopping at the first exception. *)
Fixpoint run (cmds : list Command) (c : DrawingCanvas) : option DrawingCanvas :=
  match cmds with
  | [] => Some c
  | cmd :: rest => c' ← step cmd c; run rest c'
  end.

(** ** Gestures *)

(** Press at [a], drag to [b], release. *)
Definition draw (a b : QPoint) : list Command :=
  [MousePress LeftButton a; MouseMove b; MouseRelease LeftButton].

(** Press at [a], release without a move. *)
Definition click (a : QPoint) : list Command :=
  [MousePress LeftButton a; MouseRelease LeftButton].

(** What the commands after a gesture can depend on: the drawing settings,
    the stroke under construction and the active page. *)
Record View := mkView {
  v_tool : ToolType;
  v_color : QColor;
  v_width : R;
  v_opacity : R;
  v_stroke : option Stroke;
  v_page : option Page
}.

Definition view (c : DrawingCanvas) : View :=
  mkView (current_tool c) (current_color c) (current_width c) (current_opacity c)
         (current_stroke c) (page c).

(** The stroke a freehand [draw a b] builds. *)
Definition freehand_of (t : ToolType) (col : QColor) (w op : R) (a b : QPoint) : Stroke :=
  mkStroke [QPointF_of a; smoothed (QPointF_of a) b] col w t op None None.

(** The stroke a shape gesture from [a] to [b] builds. *)
Definition shape_of (t : ToolType) (col : QColor) (w op : R) (a b : QPoint) : Stroke :=
  mkStroke [] col w t op (Some (QPointF_of a)) (Some (QPointF_of b)).

(** ** What the canvas keeps true *)

(** The stroke list of the active page. *)
Definition active_strokes (c : DrawingCanvas) : option (list Stroke) :=
  strokes <$> page c.

(** [tool] is one of Pen, Highlighter, Chisel. *)
Definition is_freehand_tool (t : ToolType) : bool :=
  match t with
  | PEN | HIGHLIGHTER | CHISEL => true
  | _ => false
  end.

(** The stroke that [draw a b] commits under the current settings, if it
    commits one: a freehand tool always does, a shape tool when both
    points pass the truth test, the other tools never. *)
Definition drawn (c : DrawingCanvas) (a b : QPoint) : option Stroke :=
  let t := current_tool c in
  if is_freehand_tool t then
    Some (freehand_of t (current_color c) (current_width c) (current_opacity c) a b)
  else if is_shape_tool t && QPointF_bool (QPointF_of a) && QPointF_bool (QPointF_of b) then
    Some (shape_of t (current_color c) (current_width c) (current_opacity c) a b)
  else None.

(** The stroke list of the active page after a sequence of commands. *)
Definition strokes_after (cmds : list Command) (c : DrawingCanvas) : option (list Stroke) :=
  run cmds c ≫= active_strokes.

(** The settings a later gesture reads are those of [c]. *)
Definition same_settings (c c' : DrawingCanvas) : Prop :=
  current_tool c' = current_tool c /\ current_color c' = current_color c /\
  current_width c' = current_width c /\ current_opacity c' = current_opacity c.

(** A stroke as [mousePressEvent] builds it: no shape points, and the tool
    is Pen, Highlighter or Chisel. *)
Definition freehand_stroke (s : Stroke) : Prop :=
  start_point s = None /\ end_point s = None /\ is_freehand_tool (tool s) = true.

(** A stroke as the shape branch of [mouseReleaseEvent] commits it: both
    shape points present and passing the truth test, no freehand points. *)
Definition shape_stroke (s : Stroke) : Prop :=
  exists sp ep, start_point s = Some sp /\ end_point s = Some ep /\
                QPointF_bool sp = true /\ QPointF_bool ep = true /\
                points s = [].

Definition stroke_ok (s : Stroke) : Prop := freehand_stroke s \/ shape_stroke s.

Definition page_ok (p : Page) : Prop :=
  Forall stroke_ok (strokes p) /\
  Forall (Forall stroke_ok) (undo_stack p) /\
  redo_stack p = [].

Definition canvas_ok (c : DrawingCanvas) : Prop :=
  (current_page_idx c < length (pages c))%nat /\
  Forall page_ok (pages c) /\
  (forall s, current_stroke c = Some s -> points s <> [] /\ freehand_stroke s).

(** ** Shapes as the specification words them *)

(** The stroke with its start and end points exchanged: the same drag in
    the opposite direction. *)
Definition swap_ends (s : Stroke) : Stroke :=
  mkStroke (points s) (color s) (width s) (tool s) (opacity s)
           (end_point s) (start_point s).

(** The axis-aligned bounding box of two points: least corner and extent. *)
Definition bounding_box (s e : QPointF) : QRectF :=
  mkQRectF (Rmin (px s) (px e)) (Rmin (py s) (py e))
           (Rabs (px e - px s)) (Rabs (py e - py s)).

(** The two back points of the arrowhead [_paint_stroke] paints for a
    stroke: the points of the polygon after the tip. *)
Definition painted_back_points (st : Stroke) : list QPointF :=
  match _paint_stroke st with
  | [_; DrawPolygon (_ :: backs)] => backs
  | _ => []
  end.

(** The back points as the specification words them: the reverse line
    direction (from the end point back to the start) rotated by plus and
    minus 150 degrees, at the head length from the end point. *)
Definition spec_back_points (w : R) (start end_ : QPointF) : list QPointF :=
  let reverse := atan2 (py start - py end_) (px start - px end_) in
  let len := Rmax 15 (4 * w) in
  [ mkQPointF (px end_ + len * cos (reverse + radians 150))
              (py end_ + len * sin (reverse + radians 150));
    mkQPointF (px end_ + len * cos (reverse - radians 150))
              (py end_ + len * sin (reverse - radians 150)) ].

(** ** The eraser as the specification words it

    A shape stroke, one with both shape points set, is erased when the
    midpoint of its two points is at most [2 r] from [pos]; any other
    stroke when one of its points is nearer than [r]. *)
Definition erased_by_spec (pos : QPointF) (r : R) (s : Stroke) : Prop :=
  match start_point s, end_point s with
  | Some sp, Some ep =>
      hypot (px pos - (px sp + px ep) / 2) (py pos - (py sp + py ep) / 2) <= 2 * r
  | _, _ =>
      Exists (fun pt => hypot (px pos - px pt) (py pos - py pt) < r) (points s)
  end.

(** [erases P l l']: [l'] is [l] without the strokes that satisfy [P],
    every other stroke kept whole and in place. *)
Inductive erases (P : Stroke -> Prop) : list Stroke -> list Stroke -> Prop :=
| erases_nil : erases P [] []
| erases_keep s l l' : ~ P s -> erases P l l' -> erases P (s :: l) (s :: l')
| erases_drop s l l' : P s -> erases P l l' -> erases P (s :: l) l'.

(** ** src/backgrounds.py

    [paintEvent] hands [draw_background] the rectangle [QRectF(self.rect())]
    of the widget: its four edges are whole numbers, the loop variables stay
    whole ([spacing] is an [int]) and [int(x)] is the identity on them, so
    the edges are integers here.  A [while] loop runs on fuel; the drawing
    functions give it [limit - start + 1], which the lemmas show to be
    enough for a positive step. *)

Record EdgeRect := mkEdgeRect { e_left : Z; e_top : Z; e_right : Z; e_bottom : Z }.

(** [rect.adjusted(d, d, -d, -d)] *)
Definition inset (d : Z) (r : EdgeRect) : EdgeRect :=
  mkEdgeRect (e_left r + d) (e_top r + d) (e_right r - d) (e_bottom r - d).

Inductive BgOp :=
| BgFill (col : QColor)
| BgLine (pen : QColor) (x1 y1 x2 y2 : Z)
| BgDot (x y w h : Z)
| BgFrame (pen : QColor) (r : EdgeRect).

(** [while x <= limit: body(x, i); x += step; i += 1] *)
Fixpoint while_le (fuel : nat) (x limit step i : Z) (body : Z -> Z -> list BgOp)
  : list BgOp :=
  match fuel with
  | O => []
  | S fuel' =>
      if (x <=? limit)%Z
      then body x i ++ while_le fuel' (x + step) limit step (i + 1) body
      else []
  end.

Definition loop_fuel (start limit : Z) : nat := Z.to_nat (limit - start + 1).

Definition _draw_grid (rect : EdgeRect) (spacing : Z) : list BgOp :=
  let vline pen x := BgLine pen x (e_top rect) x (e_bottom rect) in
  let hline pen y := BgLine pen (e_left rect) y (e_right rect) y in
  let fx := loop_fuel (e_left rect) (e_right rect) in
  let fy := loop_fuel (e_top rect) (e_bottom rect) in
  while_le fx (e_left rect) (e_right rect) spacing 0
           (fun x _ => [vline 0xd0d4dc%Z x]) ++
  while_le fy (e_top rect) (e_bottom rect) spacing 0
           (fun y _ => [hline 0xd0d4dc%Z y]) ++
  while_le fx (e_left rect) (e_right rect) spacing 0
           (fun x i => if (i mod 5 =? 0)%Z then [vline 0xa8afc0%Z x] else []) ++
  while_le fy (e_top rect) (e_bottom rect) spacing 0
           (fun y i => if (i mod 5 =? 0)%Z then [hline 0xa8afc0%Z y] else []).

Definition _draw_lines (rect : EdgeRect) (spacing : Z) : list BgOp :=
  let margin_x := (e_left rect + 80)%Z in
  BgLine 0xe8a0a0%Z margin_x (e_top rect) margin_x (e_bottom rect) ::
  while_le (loop_fuel (e_top rect + 60) (e_bottom rect))
           (e_top rect + 60) (e_bottom rect) spacing 0
           (fun y _ => [BgLine 0xc8d8e8%Z (e_left rect) y (e_right rect) y]).

Definition _draw_dots (rect : EdgeRect) (spacing : Z) : list BgOp :=
  while_le (loop_fuel (e_left rect + spacing) (e_right rect))
           (e_left rect + spacing) (e_right rect) spacing 0
           (fun x _ =>
              while_le (loop_fuel (e_top rect + spacing) (e_bottom rect))
                       (e_top rect + spacing) (e_bottom rect) spacing 0
                       (fun y _ => [BgDot (x - 1) (y - 1) 3 3])).

Definition _draw_blackboard (rect : EdgeRect) : list BgOp :=
  BgFill 0x1a3a2a%Z ::
  while_le (loop_fuel (e_top rect) (e_bottom rect)) (e_top rect) (e_bottom rect) 3 0
           (fun y _ => [BgLine 0xffffff%Z (e_left rect) y (e_right rect) y]) ++
  [BgFrame 0x5c3a1e%Z (inset 4 rect); BgFrame 0x8b6914%Z (inset 10 rect)].

Definition draw_background (rect : EdgeRect) (bg_type : BackgroundType) : list BgOp :=
  match bg_type with
  | NONE => []
  | WHITE => [BgFill 0xf8f9fa%Z]
  | BLACKBOARD => _draw_blackboard rect
  | GRID => BgFill 0xffffff%Z :: _draw_grid rect 40
  | LINED => BgFill 0xfffef5%Z :: _draw_lines rect 36
  | DOTTED => BgFill 0xfafafa%Z :: _draw_dots rect 30
  end.

(** The positions a loop from [start] in steps of [step] visits up to
    [limit]: [start + step * k] for [k = 0, 1, ...]. *)
Definition visits (start limit step : Z) : list Z :=
  if (start <=? limit)%Z
  then map (fun k => start + step * Z.of_nat k)%Z
           (seq 0 (Z.to_nat ((limit - start) / step + 1)))
  else [].

(** What a loop draws of the positions [l] when its body draws only where
    the counter, started at [i], is a multiple of five. *)
Definition every_fifth (f : Z -> BgOp) (i : Z) (l : list Z) : list BgOp :=
  concat (imap (fun k p => if ((i + Z.of_nat k) mod 5 =? 0)%Z then [f p] else []) l).

(** ** src/canvas.py: what [paintEvent] paints from the page

    The part of [paintEvent] up to the shape preview: the clickable fill
    of a transparent page, the background, the committed strokes, the
    stroke under construction and the preview.  The eraser cursor and the
    page indicator, painted after these, depend on the pointer position
    and on font metrics and are not part of this function.  A stroke is
    painted with its colour at its opacity. *)

Inductive PaintOp :=
| PClickable (rect : EdgeRect)
| PBackground (op : BgOp)
| PStroke (col : QColor) (alpha : R) (ops : list DrawOp).

Definition paint_of (s : Stroke) : PaintOp :=
  PStroke (color s) (opacity s) (_paint_stroke s).

Definition paint_content (rect : EdgeRect) (c : DrawingCanvas) : option (list PaintOp) :=
  p ← page c;
  Some ((match background p with NONE => [PClickable rect] | _ => [] end) ++
        map PBackground (draw_background rect (background p)) ++
        map paint_of (strokes p) ++
        (match current_stroke c with
         | Some s => if (1 <? length (points s))%nat then [paint_of s] else []
         | None => []
         end) ++
        (if drawing c && truthy (shape_start c) && truthy (shape_preview_end c)
         then [paint_of (mkStroke [] (current_color c) (current_width c)
                                  (current_tool c) (current_opacity c * (6 / 10))
                                  (shape_start c) (shape_preview_end c))]
         else [])).

(** The picture: every primitive painted, with its colour, in painting
    order; opacities and the steps that paint nothing are left out. *)
Definition picture (ops : list PaintOp) : list (option QColor * (BgOp + DrawOp)) :=
  flat_map (fun op =>
              match op with
              | PClickable _ => []
              | PBackground b => [(None, inl b)]
              | PStroke col _ g => map (fun d => (Some col, inr d)) g
              end) ops.

(** ** src/toolbar.py: dragging the floating toolbar

    [self.move(p)] is taken to put the window at [p].  PyQt5 gives
    [QPoint] the truth value [not isNull()], as it does [QPointF].  The
    coordinates of a [QPoint] are C [int]s of 32 bits, and the difference
    of two points wraps around. *)

Module Toolbar.

Record FloatingToolbar := mkToolbar {
  pos : QPoint;
  _drag_pos : option QPoint
}.

Definition QPoint_bool (p : QPoint) : bool := negb ((qx p =? 0)%Z && (qy p =? 0)%Z).

(** A C [int]: the value of [z] in 32-bit two's complement. *)
Definition wrap32 (z : Z) : Z := ((z + 2147483648) mod 4294967296 - 2147483648)%Z.

(** [QPoint.operator-] *)
Definition QPoint_sub (a b : QPoint) : QPoint :=
  mkQPoint (wrap32 (qx a - qx b)) (wrap32 (qy a - qy b)).

Definition mousePressEvent (left : bool) (globalPos : QPoint) (t : FloatingToolbar)
  : FloatingToolbar :=
  if left then mkToolbar (pos t) (Some (QPoint_sub globalPos (pos t))) else t.

(** [left_held] is [event.buttons() & Qt.LeftButton]. *)
Definition mouseMoveEvent (left_held : bool) (globalPos : QPoint) (t : FloatingToolbar)
  : FloatingToolbar :=
  match _drag_pos t with
  | Some d =>
      if QPoint_bool d && left_held
      then mkToolbar (QPoint_sub globalPos d) (_drag_pos t)
      else t
  | None => t
  end.

Definition mouseReleaseEvent (t : FloatingToolbar) : FloatingToolbar :=
  mkToolbar (pos t) None.

(** Moves with the left button held, one after the other. *)
Definition drag_through (gs : list QPoint) (t : FloatingToolbar) : FloatingToolbar :=
  fold_left (fun t g => mouseMoveEvent true g t) gs t.

End Toolbar.

(** ** src/curtain.py *)

Module Curtain.

Inductive CurtainMode := OFF | FULL | SPOTLIGHT.

Inductive Edge := EdgeTop | EdgeBottom | EdgeLeft | EdgeRight.

(** [QRect]: Qt keeps the two corners; [QRect(x, y, w, h)] has its right
    and bottom edges at [x + w - 1] and [y + h - 1]. *)
Record QRect := mkQRect { x1 : Z; y1 : Z; x2 : Z; y2 : Z }.

Definition QRect_xywh (x y w h : Z) : QRect := mkQRect x y (x + w - 1) (y + h - 1).

Definition setTop (v : Z) (r : QRect) : QRect := mkQRect (x1 r) v (x2 r) (y2 r).
Definition setBottom (v : Z) (r : QRect) : QRect := mkQRect (x1 r) (y1 r) (x2 r) v.
Definition setLeft (v : Z) (r : QRect) : QRect := mkQRect v (y1 r) (x2 r) (y2 r).
Definition setRight (v : Z) (r : QRect) : QRect := mkQRect (x1 r) (y1 r) v (y2 r).

Record CurtainOverlay := mkCurtain {
  mode : CurtainMode;
  opacity_level : R;
  reveal_rect : QRect;
  dragging_edge : option Edge;
  drag_start : QPoint;
  spotlight_radius : R;
  spotlight_pos : QPoint;
  visible : bool
}.

(** [CurtainOverlay.__init__] *)
Definition init : CurtainOverlay :=
  mkCurtain OFF (85 / 100) (QRect_xywh 0 0 0 0) None (mkQPoint 0 0)
            120 (mkQPoint 400 300) false.

(** [set_mode]; [parent] is the size of the parent widget, if there is
    one. *)
Definition set_mode (m : CurtainMode) (parent : option (Z * Z)) (c : CurtainOverlay)
  : CurtainOverlay :=
  match m with
  | OFF =>
      mkCurtain m (opacity_level c) (reveal_rect c) (dragging_edge c) (drag_start c)
                (spotlight_radius c) (spotlight_pos c) false
  | _ =>
      let r := match m, parent with
               | FULL, Some (w, h) => QRect_xywh 0 0 w (h / 3)
               | _, _ => reveal_rect c
               end in
      mkCurtain m (opacity_level c) r (dragging_edge c) (drag_start c)
                (spotlight_radius c) (spotlight_pos c) true
  end.

Definition toggle (parent : option (Z * Z)) (c : CurtainOverlay) : CurtainOverlay :=
  match mode c with
  | OFF => set_mode FULL parent c
  | FULL => set_mode SPOTLIGHT parent c
  | SPOTLIGHT => set_mode OFF parent c
  end.

Definition mousePressEvent (pos : QPoint) (c : CurtainOverlay) : CurtainOverlay :=
  match mode c with
  | FULL =>
      let r := reveal_rect c in
      let margin := 20%Z in
      let between lo v hi := ((lo <? v) && (v <? hi))%Z in
      let edge :=
        if (Z.abs (qy pos - y2 r) <? margin)%Z && between (x1 r) (qx pos) (x2 r)
        then Some EdgeBottom
        else if (Z.abs (qx pos - x2 r) <? margin)%Z && between (y1 r) (qy pos) (y2 r)
        then Some EdgeRight
        else if (Z.abs (qy pos - y1 r) <? margin)%Z && between (x1 r) (qx pos) (x2 r)
        then Some EdgeTop
        else if (Z.abs (qx pos - x1 r) <? margin)%Z && between (y1 r) (qy pos) (y2 r)
        then Some EdgeLeft
        else None in
      mkCurtain (mode c) (opacity_level c) r edge pos
                (spotlight_radius c) (spotlight_pos c) (visible c)
  | _ => c
  end.

Definition mouseMoveEvent (pos : QPoint) (c : CurtainOverlay) : CurtainOverlay :=
  match mode c with
  | SPOTLIGHT =>
      mkCurtain (mode c) (opacity_level c) (reveal_rect c) (dragging_edge c)
                (drag_start c) (spotlight_radius c) pos (visible c)
  | FULL =>
      match dragging_edge c with
      | Some e =>
          let r := reveal_rect c in
          let r' :=
            match e with
            | EdgeBottom => setBottom (Z.max (y1 r + 50) (qy pos)) r
            | EdgeRight => setRight (Z.max (x1 r + 50) (qx pos)) r
            | EdgeTop => setTop (Z.min (y2 r - 50) (qy pos)) r
            | EdgeLeft => setLeft (Z.min (x2 r - 50) (qx pos)) r
            end in
          mkCurtain (mode c) (opacity_level c) r' (dragging_edge c) (drag_start c)
                    (spotlight_radius c) (spotlight_pos c) (visible c)
      | None => c
      end
  | OFF => c
  end.

Definition mouseReleaseEvent (c : CurtainOverlay) : CurtainOverlay :=
  mkCurtain (mode c) (opacity_level c) (reveal_rect c) None (drag_start c)
            (spotlight_radius c) (spotlight_pos c) (visible c).

Definition wheelEvent (delta : Z) (c : CurtainOverlay) : CurtainOverlay :=
  match mode c with
  | SPOTLIGHT =>
      mkCurtain (mode c) (opacity_level c) (reveal_rect c) (dragging_edge c)
                (drag_start c)
                (Rmax 50 (Rmin 500 (spotlight_radius c + IZR delta / 5)))
                (spotlight_pos c) (visible c)
  | _ => c
  end.

(** What the host can ask of the curtain. *)
Inductive Event :=
| Toggle (parent : option (Z * Z))
| Press (pos : QPoint)
| Move (pos : QPoint)
| Release
| Wheel (delta : Z).

Definition handle (e : Event) (c : CurtainOverlay) : CurtainOverlay :=
  match e with
  | Toggle parent => toggle parent c
  | Press pos => mousePressEvent pos c
  | Move pos => mouseMoveEvent pos c
  | Release => mouseReleaseEvent c
  | Wheel delta => wheelEvent delta c
  end.

Definition handle_all (es : list Event) (c : CurtainOverlay) : CurtainOverlay :=
  fold_left (fun c e => handle e c) es c.

(** The reveal rectangle keeps the least extent the drags enforce. *)
Definition roomy (r : QRect) : Prop := (x1 r + 50 <= x2 r /\ y1 r + 50 <= y2 r)%Z.

(** A toggle with a parent widget at least 51 wide and 153 high, so that
    the third of it revealed on entering the full curtain is roomy. *)
Definition parent_fits (e : Event) : Prop :=
  match e with
  | Toggle (Some (w, h)) => (51 <= w /\ 153 <= h)%Z
  | _ => True
  end.

End Curtain.

(** ** Predicates of the further properties *)

(** [c'] has the pages of [c], but for the active one. *)
Definition only_active (c c' : DrawingCanvas) : Prop :=
  exists q, pages c' = <[current_page_idx c := q]> (pages c).

(** Width within [1, 80] and opacity within (0, 1]. *)
Definition in_range (w op : R) : Prop := 1 <= w <= 80 /\ 0 < op <= 1.

Definition stroke_in_range (s : Stroke) : Prop := in_range (width s) (opacity s).

Definition page_in_range (p : Page) : Prop :=
  Forall stroke_in_range (strokes p) /\
  Forall (Forall stroke_in_range) (undo_stack p).

Definition canvas_in_range (c : DrawingCanvas) : Prop :=
  in_range (current_width c) (current_opacity c) /\
  (forall s, current_stroke c = Some s -> stroke_in_range s) /\
  Forall page_in_range (pages c).

(** The point lies in the axis-aligned box [lo .. hi]. *)
Definition in_box (lo hi : QPointF) (pt : QPointF) : Prop :=
  px lo <= px pt <= px hi /\ py lo <= py pt <= py hi.

(** The coordinates a [QPoint] can hold. *)
Definition int32 (z : Z) : Prop := (-2147483648 <= z < 2147483648)%Z.

Definition QPoint_ok (p : QPoint) : Prop := int32 (qx p) /\ int32 (qy p).

(** Is the command a pointer event? *)
Definition is_mouse_event (cmd : Command) : bool :=
  match cmd with
  | MousePress _ _ | MouseMove _ | MouseRelease _ => true
  | _ => false
  end.

(** * Lemmas *)

Section Comparisons.

Lemma Rltb_true (a b : R) : Rltb a b = true <-> a < b.
Proof. unfold Rltb. destruct (Rlt_dec a b); split; intros; try easy. Qed.

Lemma Rltb_false (a b : R) : Rltb a b = false <-> b <= a.
Proof. unfold Rltb. destruct (Rlt_dec a b); split; intros; try easy; lra. Qed.

Lemma Rgtb_true (a b : R) : Rgtb a b = true <-> a > b.
Proof. unfold Rgtb. rewrite Rltb_true. lra. Qed.

Lemma Rgtb_false (a b : R) : Rgtb a b = false <-> a <= b.
Proof. unfold Rgtb. rewrite Rltb_false. lra. Qed.

Lemma Reqb_true (a b : R) : Reqb a b = true <-> a = b.
Proof. unfold Reqb. destruct (Req_dec_T a b); split; intros; try easy. Qed.

Lemma QPointF_bool_false (p : QPointF) :
  QPointF_bool p = false <-> px p = 0 /\ py p = 0.
Proof.
  unfold QPointF_bool, isNull.
  rewrite negb_false_iff, andb_true_iff, !Reqb_true. tauto.
Qed.

Lemma QPointF_bool_true (p : QPointF) :
  QPointF_bool p = true <-> px p <> 0 \/ py p <> 0.
Proof.
  destruct (QPointF_bool p) eqn:E.
  - split; [intros _|easy].
    destruct (Req_dec_T (px p) 0) as [Hx|Hx]; [|now left].
    destruct (Req_dec_T (py p) 0) as [Hy|Hy]; [|now right].
    assert (QPointF_bool p = false) by (apply QPointF_bool_false; easy).
    congruence.
  - apply QPointF_bool_false in E. split; [easy|]. intros [H|H]; tauto.
Qed.

Lemma both_points_Some a b s e :
  both_points a b = Some (s, e) <->
  a = Some s /\ b = Some e /\ QPointF_bool s = true /\ QPointF_bool e = true.
Proof.
  unfold both_points. destruct a as [s'|], b as [e'|]; try (split; [easy|intros (?&?&?); easy]).
  destruct (QPointF_bool s') eqn:Es, (QPointF_bool e') eqn:Ee; simpl;
    split; try easy; try (intros [= -> ->]; easy);
    intros ([= ->] & [= ->] & ? & ?); congruence.
Qed.

Lemma both_points_swap_None a b :
  both_points a b = None -> both_points b a = None.
Proof.
  unfold both_points. destruct a, b; try easy.
  rewrite (andb_comm (QPointF_bool q0)). now destruct (_ && _).
Qed.

Lemma hypot_nonneg (x y : R) : 0 <= hypot x y.
Proof. apply sqrt_pos. Qed.

Lemma hypot_sqr (x y : R) : hypot x y * hypot x y = x * x + y * y.
Proof. unfold hypot. apply sqrt_sqrt. nra. Qed.

Lemma hypot_lt (x y r : R) : hypot x y < r <-> 0 < r /\ x * x + y * y < r * r.
Proof.
  pose proof (hypot_nonneg x y). pose proof (hypot_sqr x y). split.
  - intros Hlt. split; nra.
  - intros [Hr Hlt]. destruct (Rlt_dec (hypot x y) r); [easy|]. nra.
Qed.

Lemma hypot_le (x y r : R) : hypot x y <= r <-> 0 <= r /\ x * x + y * y <= r * r.
Proof.
  pose proof (hypot_nonneg x y). pose proof (hypot_sqr x y). split.
  - intros Hle. split; nra.
  - intros [Hr Hle]. destruct (Rle_dec (hypot x y) r); [easy|]. nra.
Qed.

Lemma hypot_scale (k x y : R) : hypot (k * x) (k * y) = Rabs k * hypot x y.
Proof.
  unfold hypot.
  replace (k * x * (k * x) + k * y * (k * y)) with (k * k * (x * x + y * y)) by ring.
  rewrite sqrt_mult; [|nra|nra].
  change (k * k) with (Rsqr k). now rewrite sqrt_Rsqr_abs.
Qed.

End Comparisons.

Section PythonLists.
Context {A : Type}.

Lemma pop_app (l : list A) (x : A) : pop (l ++ [x]) = Some (l, x).
Proof. induction l as [|y l IH]; simpl; [easy|]. now rewrite IH. Qed.

Lemma pop_None (l : list A) : pop l = None <-> l = [].
Proof.
  destruct l as [|x l]; simpl; [easy|].
  split; [|easy]. now destruct (pop l) as [[]|].
Qed.

Lemma pop_Some (l r : list A) (x : A) : pop l = Some (r, x) <-> l = r ++ [x].
Proof.
  split.
  - destruct l as [|y l] using rev_ind; [easy|].
    rewrite pop_app. now intros [= -> ->].
  - intros ->. apply pop_app.
Qed.

End PythonLists.

Section Eraser.
Variables (pos : QPointF) (r : R).

Lemma remaining_of_acc (l acc : list Stroke) :
  fold_left (fun remaining stroke =>
               if stays pos r stroke then remaining ++ [stroke] else remaining) l acc
  = acc ++ List.filter (stays pos r) l.
Proof.
  revert acc. induction l as [|s l IH]; intros acc; simpl.
  - now rewrite app_nil_r.
  - rewrite IH. destruct (stays pos r s); [|easy].
    now rewrite <- app_assoc.
Qed.

(** The loop of [_erase_at] keeps, in order, the strokes that stay. *)
Lemma remaining_of_filter (l : list Stroke) :
  remaining_of pos r l = List.filter (stays pos r) l.
Proof. unfold remaining_of. now rewrite remaining_of_acc. Qed.

Lemma filter_length_le (f : Stroke -> bool) (l : list Stroke) :
  (length (List.filter f l) <= length l)%nat.
Proof. induction l as [|s l IH]; simpl; [lia|]. destruct (f s); simpl; lia. Qed.

Lemma filter_same_length (f : Stroke -> bool) (l : list Stroke) :
  length (List.filter f l) = length l -> List.filter f l = l.
Proof.
  induction l as [|s l IH]; simpl; [easy|].
  destruct (f s); simpl; intros H.
  - f_equal. apply IH. lia.
  - pose proof (filter_length_le f l). lia.
Qed.

(** Whatever the test on the lengths decides, the page ends up with the
    strokes that stay. *)
Lemma erase_page_strokes (p : Page) :
  strokes (erase_page pos r p) = List.filter (stays pos r) (strokes p).
Proof.
  unfold erase_page. rewrite remaining_of_filter.
  destruct (Nat.ltb_spec (length (List.filter (stays pos r) (strokes p)))
                         (length (strokes p))) as [H|H]; simpl; [easy|].
  symmetry. apply filter_same_length.
  pose proof (filter_length_le (stays pos r) (strokes p)). lia.
Qed.

Lemma erase_page_no_hit (p : Page) :
  Forall (fun s => stays pos r s = true) (strokes p) -> erase_page pos r p = p.
Proof.
  intros H. unfold erase_page. rewrite remaining_of_filter.
  assert (E : List.filter (stays pos r) (strokes p) = strokes p).
  { induction H as [|s l Hs _ IH]; simpl; [easy|]. now rewrite Hs, IH. }
  rewrite E, Nat.ltb_irrefl. easy.
Qed.

Lemma erase_page_hit (p : Page) :
  Exists (fun s => stays pos r s = false) (strokes p) ->
  erase_page pos r p =
    mkPage (List.filter (stays pos r) (strokes p)) (images p) (background p)
           (undo_stack p ++ [strokes p]) (redo_stack p).
Proof.
  intros H. unfold erase_page. rewrite remaining_of_filter.
  destruct (Nat.ltb_spec (length (List.filter (stays pos r) (strokes p)))
                         (length (strokes p))) as [Hl|Hl]; [easy|].
  exfalso.
  assert (E : List.filter (stays pos r) (strokes p) = strokes p).
  { apply filter_same_length. pose proof (filter_length_le (stays pos r) (strokes p)). lia. }
  apply Exists_exists in H as (s & Hin & Hs).
  rewrite <- E in Hin. apply list_elem_of_In, filter_In in Hin as [_ Hin]. congruence.
Qed.

End Eraser.

Section ActivePage.

Lemma on_page_eq (f : Page -> Page) (c : DrawingCanvas) (p : Page) :
  page c = Some p ->
  on_page f c = Some (with_pages (<[current_page_idx c := f p]> (pages c)) c).
Proof. unfold on_page. now intros ->. Qed.

Lemma page_with_pages_insert (c : DrawingCanvas) (p q : Page) :
  page c = Some p ->
  page (with_pages (<[current_page_idx c := q]> (pages c)) c) = Some q.
Proof.
  unfold page. simpl. intros H. apply list_lookup_insert_eq.
  now apply lookup_lt_Some in H.
Qed.

Lemma on_page_page (f : Page -> Page) (c c' : DrawingCanvas) (p : Page) :
  page c = Some p -> on_page f c = Some c' -> page c' = Some (f p).
Proof.
  intros Hp. rewrite (on_page_eq f c p Hp). intros [= <-].
  now apply (page_with_pages_insert c p).
Qed.

Lemma on_page_id (f : Page -> Page) (c : DrawingCanvas) (p : Page) :
  page c = Some p -> f p = p -> on_page f c = Some c.
Proof.
  intros Hp Hf. rewrite (on_page_eq f c p Hp), Hf.
  unfold page in Hp. rewrite (list_insert_id _ _ _ Hp). now destruct c.
Qed.

Lemma page_Some_iff (c : DrawingCanvas) :
  (exists p, page c = Some p) <-> (current_page_idx c < length (pages c))%nat.
Proof.
  unfold page. split.
  - intros [p H]. now apply lookup_lt_Some in H.
  - intros H. now apply lookup_lt_is_Some_2 in H as [p Hp]; eauto.
Qed.

End ActivePage.

Section Invariant.

Lemma Forall_removelast {A} (P : A -> Prop) (l : list A) :
  Forall P l -> Forall P (removelast l).
Proof.
  destruct l as [|x l] using rev_ind; [easy|].
  rewrite removelast_last. intros H. now apply Forall_app in H as [H _].
Qed.

Lemma new_Page_ok (bg : BackgroundType) : page_ok (new_Page bg).
Proof. repeat split; constructor. Qed.

Lemma commit_ok (s : Stroke) (p : Page) :
  stroke_ok s -> page_ok p -> page_ok (commit s p).
Proof.
  intros Hs (H1 & H2 & _). repeat split; simpl; [|easy].
  apply Forall_app. split; [easy|]. now constructor.
Qed.

Lemma undo_page_ok (p : Page) : page_ok p -> page_ok (undo_page p).
Proof.
  intros (H1 & H2 & H3). unfold undo_page.
  destruct (strokes p) as [|s l] eqn:E; [now rewrite <- E in H1|].
  repeat split; simpl; [|apply Forall_app; split; [easy|now constructor]|easy].
  change (Forall stroke_ok (removelast (s :: l))). now apply Forall_removelast.
Qed.

Lemma redo_page_ok (p : Page) : page_ok p -> page_ok (redo_page p).
Proof.
  intros (H1 & H2 & H3). unfold redo_page.
  destruct (pop (undo_stack p)) as [[rest st]|] eqn:E; [|easy].
  apply pop_Some in E. rewrite E in H2. apply Forall_app in H2 as [Hr Hs].
  apply Forall_inv in Hs.
  now destruct (_ <? _)%nat.
Qed.

Lemma clear_page_page_ok (p : Page) : page_ok p -> page_ok (clear_page_page p).
Proof.
  intros (H1 & H2 & H3). unfold clear_page_page.
  destruct (strokes p) as [|s l] eqn:E; [now rewrite <- E in H1|].
  repeat split; simpl; [constructor| |easy].
  apply Forall_app; split; [easy|now constructor].
Qed.

Lemma Forall_list_filter {A} (P : A -> Prop) (f : A -> bool) (l : list A) :
  Forall P l -> Forall P (List.filter f l).
Proof.
  induction 1 as [|x l Hx _ IH]; simpl; [constructor|].
  destruct (f x); [now constructor|easy].
Qed.

Lemma erase_page_ok (pos : QPointF) (r : R) (p : Page) :
  page_ok p -> page_ok (erase_page pos r p).
Proof.
  intros (H1 & H2 & H3). unfold erase_page. rewrite remaining_of_filter.
  destruct (_ <? _)%nat; [|easy].
  repeat split; simpl; [now apply Forall_list_filter| |easy].
  apply Forall_app; split; [easy|now constructor].
Qed.

Lemma with_pages_insert_ok (c : DrawingCanvas) (q : Page) :
  canvas_ok c -> page_ok q ->
  canvas_ok (with_pages (<[current_page_idx c := q]> (pages c)) c).
Proof.
  intros (Hi & Hp & Hs) Hq. split; [|split]; simpl.
  - now rewrite length_insert.
  - now apply Forall_insert.
  - exact Hs.
Qed.

Lemma on_page_ok (f : Page -> Page) (c : DrawingCanvas) :
  (forall p, page_ok p -> page_ok (f p)) ->
  canvas_ok c -> exists c', on_page f c = Some c' /\ canvas_ok c'.
Proof.
  intros Hf Hc. pose proof Hc as (Hi & Hp & _).
  apply page_Some_iff in Hi as [p Hpg].
  rewrite (on_page_eq f c p Hpg). eexists; split; [reflexivity|].
  apply with_pages_insert_ok; [easy|]. apply Hf.
  unfold page in Hpg. now apply (Forall_lookup_1 _ _ _ _ Hp Hpg).
Qed.

Lemma init_ok : canvas_ok init.
Proof.
  repeat split; simpl; try lia; try easy.
  constructor; [apply new_Page_ok|constructor].
Qed.

(** Changes of the fields outside [pages], [current_page_idx] and
    [current_stroke] keep the invariant. *)
Lemma canvas_ok_fields (c c' : DrawingCanvas) :
  pages c' = pages c -> current_page_idx c' = current_page_idx c ->
  current_stroke c' = current_stroke c ->
  canvas_ok c -> canvas_ok c'.
Proof. unfold canvas_ok. now intros -> -> ->. Qed.

Lemma mousePressEvent_ok (b : MouseButton) (pos : QPoint) (c : DrawingCanvas) :
  canvas_ok c -> exists c', mousePressEvent b pos c = Some c' /\ canvas_ok c'.
Proof.
  intros Hc. unfold mousePressEvent.
  destruct (negb (is_left b)); [eauto|].
  destruct (ToolType_eqb (current_tool c) CURSOR) eqn:E1; [eauto|].
  destruct (is_shape_tool (current_tool c)) eqn:E2.
  { eexists; split; [reflexivity|]. revert Hc. now apply canvas_ok_fields. }
  destruct (ToolType_eqb (current_tool c) ERASER) eqn:E3.
  { destruct (on_page_ok (erase_page (QPointF_of pos) (current_width c)) c)
      as (c' & E & Hc'); [apply erase_page_ok|easy|].
    unfold _erase_at. rewrite E. simpl. eexists; split; [reflexivity|].
    revert Hc'. now apply canvas_ok_fields. }
  eexists; split; [reflexivity|].
  destruct Hc as (Hi & Hp & _). split; [|split]; simpl; try easy.
  intros s [= <-]. split; [easy|]. repeat split. simpl.
  now destruct (current_tool c).
Qed.

Lemma mouseMoveEvent_ok (pos : QPoint) (c : DrawingCanvas) :
  canvas_ok c -> exists c', mouseMoveEvent pos c = Some c' /\ canvas_ok c'.
Proof.
  intros Hc. unfold mouseMoveEvent.
  destruct (negb (drawing c)); [eauto|].
  destruct (is_shape_tool (current_tool c)).
  { eexists; split; [reflexivity|]. revert Hc. now apply canvas_ok_fields. }
  destruct (ToolType_eqb (current_tool c) ERASER).
  { apply on_page_ok; [apply erase_page_ok|easy]. }
  destruct (current_stroke c) as [s|] eqn:E; [|eauto].
  pose proof Hc as (Hi & Hp & Hs). destruct (Hs s E) as [Hne Hf].
  destruct (last (points s)) as [lp|] eqn:El; [|now apply last_None in El].
  simpl. eexists; split; [reflexivity|].
  split; [|split]; simpl; try easy. intros s' [= <-]. simpl.
  split; [|exact Hf]. now destruct (points s).
Qed.

Lemma mouseReleaseEvent_ok (b : MouseButton) (c : DrawingCanvas) :
  canvas_ok c -> exists c', mouseReleaseEvent b c = Some c' /\ canvas_ok c'.
Proof.
  intros Hc. unfold mouseReleaseEvent.
  destruct (negb (is_left b)); [eauto|].
  destruct (negb (drawing c)); [eauto|].
  assert (Hc0 : canvas_ok (with_drawing false c))
    by (revert Hc; now apply canvas_ok_fields).
  pose proof Hc0 as (Hi & Hp & Hs).
  apply page_Some_iff in Hi as [p Hpg]. rewrite Hpg.
  assert (Hpok : page_ok p)
    by (unfold page in Hpg; now apply (Forall_lookup_1 _ _ _ _ Hp Hpg)).
  cbn [mbind option_bind].
  destruct (is_shape_tool _).
  - eexists; split; [reflexivity|].
    destruct (both_points _ _) as [[s e]|] eqn:E.
    + apply both_points_Some in E as (E1 & E2 & E3 & E4).
      eapply canvas_ok_fields;
        [..|apply (with_pages_insert_ok (with_drawing false c))];
        try reflexivity; [easy|].
      apply commit_ok; [|easy]. right. exists s, e. now rewrite E1, E2.
    + revert Hc0. now apply canvas_ok_fields.
  - eexists; split; [reflexivity|].
    destruct (current_stroke (with_drawing false c)) as [s|] eqn:E.
    + destruct (1 <? length (points s))%nat.
      * destruct (with_pages_insert_ok _ (commit s p) Hc0) as (H1 & H2 & _).
        { apply commit_ok; [|easy]. left. now apply Hs. }
        split; [|split]; easy.
      * destruct Hc0 as (H1 & H2 & _). split; [|split]; easy.
    + destruct Hc0 as (H1 & H2 & _). split; [|split]; easy.
Qed.

Lemma step_ok (cmd : Command) (c : DrawingCanvas) :
  canvas_ok c -> exists c', step cmd c = Some c' /\ canvas_ok c'.
Proof.
  intros Hc. destruct cmd; simpl;
    try (eexists; split; [reflexivity|]; revert Hc; now apply canvas_ok_fields).
  - (* set_tool *)
    unfold set_tool. pose proof Hc as (Hi & _).
    apply page_Some_iff in Hi as [p ->]. simpl.
    destruct (ToolType_eqb t ERASER); simpl;
      (eexists; split; [reflexivity|]); revert Hc; now apply canvas_ok_fields.
  - (* set_background *)
    apply on_page_ok; [|easy]. now intros p (? & ? & ?).
  - (* add_page *)
    unfold add_page. pose proof Hc as (Hi & Hp & Hs).
    apply page_Some_iff in Hi as [p Hpg]. rewrite Hpg. simpl.
    eexists; split; [reflexivity|]. unfold page in Hpg.
    apply lookup_lt_Some in Hpg.
    split; [|split]; unfold with_idx, with_pages;
      cbn [pages current_page_idx current_stroke]; [| |exact Hs].
    + unfold list_insert_at. rewrite length_app, length_take. cbn [length].
      rewrite length_drop. lia.
    + unfold list_insert_at. apply Forall_app. split; [now apply Forall_take|].
      constructor; [apply new_Page_ok|now apply Forall_drop].
  - (* prev_page *)
    unfold prev_page. destruct (Nat.ltb_spec 0 (current_page_idx c)); [|eauto].
    eexists; split; [reflexivity|]. destruct Hc as (Hi & Hp & Hs).
    split; [|split]; simpl; [lia|easy|exact Hs].
  - (* next_page *)
    unfold next_page.
    destruct (Nat.ltb_spec (current_page_idx c) (length (pages c) - 1)); [|eauto].
    eexists; split; [reflexivity|]. destruct Hc as (Hi & Hp & Hs).
    split; [|split]; simpl; [lia|easy|exact Hs].
  - apply on_page_ok; [apply undo_page_ok|easy].
  - apply on_page_ok; [apply redo_page_ok|easy].
  - apply on_page_ok; [apply clear_page_page_ok|easy].
  - now apply mousePressEvent_ok.
  - now apply mouseMoveEvent_ok.
  - now apply mouseReleaseEvent_ok.
  - (* keyPressEvent *)
    unfold keyPressEvent, undo, redo, clear_page.
    repeat match goal with
           | |- exists _, (if ?b then _ else _) = _ /\ _ => destruct b
           end;
      try (apply on_page_ok;
           [first [apply undo_page_ok|apply redo_page_ok|apply clear_page_page_ok]
           |easy]);
      try destruct (DEFAULT_COLORS !! _);
      try (eexists; split; [reflexivity|]; revert Hc; now apply canvas_ok_fields).
Qed.

(** No sequence of commands raises, and the invariant holds at its end. *)
Lemma run_ok (cmds : list Command) (c : DrawingCanvas) :
  canvas_ok c -> exists c', run cmds c = Some c' /\ canvas_ok c'.
Proof.
  revert c. induction cmds as [|cmd rest IH]; intros c Hc; simpl; [eauto|].
  destruct (step_ok cmd c Hc) as (c1 & -> & Hc1). simpl. now apply IH.
Qed.

End Invariant.

Section Gestures.

Lemma run_app (xs ys : list Command) (c : DrawingCanvas) :
  run (xs ++ ys) c = run xs c ≫= run ys.
Proof.
  revert c. induction xs as [|x xs IH]; intros c; simpl; [easy|].
  destruct (step x c) as [c1|]; simpl; [apply IH|easy].
Qed.

Lemma page_insert_view (c : DrawingCanvas) (p q : Page) :
  page c = Some p ->
  <[current_page_idx c := q]> (pages c) !! current_page_idx c = Some q.
Proof.
  unfold page. intros H. apply list_lookup_insert_eq. now apply lookup_lt_Some in H.
Qed.

Lemma view_on_page (f : Page -> Page) (c : DrawingCanvas) (p : Page) :
  page c = Some p ->
  exists c', on_page f c = Some c' /\
             view c' = mkView (current_tool c) (current_color c) (current_width c)
                              (current_opacity c) (current_stroke c) (Some (f p)).
Proof.
  intros Hp. rewrite (on_page_eq f c p Hp). eexists; split; [reflexivity|].
  unfold view, page; simpl. now rewrite (page_insert_view c p).
Qed.

Lemma freehand_not_shape (t : ToolType) :
  is_freehand_tool t = true ->
  is_shape_tool t = false /\ ToolType_eqb t ERASER = false /\ ToolType_eqb t CURSOR = false.
Proof. now destruct t. Qed.

Lemma shape_not_cursor (t : ToolType) :
  is_shape_tool t = true -> ToolType_eqb t CURSOR = false.
Proof. now destruct t. Qed.

Lemma press_freehand (c : DrawingCanvas) (a : QPoint) :
  is_freehand_tool (current_tool c) = true ->
  mousePressEvent LeftButton a c =
    Some (with_stroke
            (Some (mkStroke [QPointF_of a] (current_color c) (current_width c)
                            (current_tool c) (current_opacity c) None None))
            (with_drawing true c)).
Proof.
  intros Ht. apply freehand_not_shape in Ht as (H1 & H2 & H3).
  unfold mousePressEvent. now rewrite H1, H2, H3.
Qed.

Lemma press_shape (c : DrawingCanvas) (a : QPoint) :
  is_shape_tool (current_tool c) = true ->
  mousePressEvent LeftButton a c =
    Some (with_drawing true
            (with_shape (Some (QPointF_of a)) (Some (QPointF_of a)) c)).
Proof.
  intros Ht. unfold mousePressEvent. now rewrite Ht, (shape_not_cursor _ Ht).
Qed.

Lemma move_freehand (c : DrawingCanvas) (s : Stroke) (lp : QPointF) (b : QPoint) :
  drawing c = true -> is_shape_tool (current_tool c) = false ->
  ToolType_eqb (current_tool c) ERASER = false ->
  current_stroke c = Some s -> last (points s) = Some lp ->
  mouseMoveEvent b c = Some (with_stroke (Some (append_point (smoothed lp b) s)) c).
Proof.
  intros Hd H1 H2 Hs Hl. unfold mouseMoveEvent. now rewrite Hd, H1, H2, Hs, Hl.
Qed.

Lemma move_shape (c : DrawingCanvas) (b : QPoint) :
  drawing c = true -> is_shape_tool (current_tool c) = true ->
  mouseMoveEvent b c = Some (with_shape (shape_start c) (Some (QPointF_of b)) c).
Proof. intros Hd H1. unfold mouseMoveEvent. now rewrite Hd, H1. Qed.

Lemma release_freehand (c : DrawingCanvas) (p : Page) (s : Stroke) :
  drawing c = true -> is_shape_tool (current_tool c) = false ->
  page c = Some p -> current_stroke c = Some s ->
  mouseReleaseEvent LeftButton c =
    Some (with_stroke None
            (if (1 <? length (points s))%nat
             then with_pages (<[current_page_idx c := commit s p]> (pages c))
                             (with_drawing false c)
             else with_drawing false c)).
Proof.
  intros Hd H1 Hp Hs. unfold mouseReleaseEvent. rewrite Hd. simpl.
  change (page (with_drawing false c)) with (page c). rewrite Hp. simpl.
  now rewrite H1, Hs.
Qed.

Lemma release_shape (c : DrawingCanvas) (p : Page) :
  drawing c = true -> is_shape_tool (current_tool c) = true ->
  page c = Some p ->
  mouseReleaseEvent LeftButton c =
    Some (with_shape None None
            (match both_points (shape_start c) (shape_preview_end c) with
             | Some _ =>
                 with_pages
                   (<[current_page_idx c :=
                        commit (mkStroke [] (current_color c) (current_width c)
                                         (current_tool c) (current_opacity c)
                                         (shape_start c) (shape_preview_end c)) p]>
                      (pages c))
                   (with_drawing false c)
             | None => with_drawing false c
             end)).
Proof.
  intros Hd H1 Hp. unfold mouseReleaseEvent. rewrite Hd. simpl.
  change (page (with_drawing false c)) with (page c). rewrite Hp. simpl.
  now rewrite H1.
Qed.

Lemma view_draw_freehand (c : DrawingCanvas) (p : Page) (a b : QPoint) :
  is_freehand_tool (current_tool c) = true -> page c = Some p ->
  exists c', run (draw a b) c = Some c' /\
             view c' = mkView (current_tool c) (current_color c) (current_width c)
                              (current_opacity c) None
                              (Some (commit (freehand_of (current_tool c) (current_color c)
                                                         (current_width c) (current_opacity c)
                                                         a b) p)).
Proof.
  intros Ht Hp. pose proof (freehand_not_shape _ Ht) as (H1 & H2 & _).
  unfold draw, run, step. rewrite (press_freehand c a Ht). simpl.
  erewrite move_freehand; [|reflexivity|exact H1|exact H2|reflexivity|reflexivity].
  simpl. erewrite release_freehand; [|reflexivity|exact H1|exact Hp|reflexivity].
  simpl. eexists; split; [reflexivity|].
  unfold view, page. simpl. now rewrite (page_insert_view c p).
Qed.

Lemma view_draw_shape (c : DrawingCanvas) (p : Page) (a b : QPoint) :
  is_shape_tool (current_tool c) = true -> page c = Some p ->
  QPointF_bool (QPointF_of a) = true -> QPointF_bool (QPointF_of b) = true ->
  exists c', run (draw a b) c = Some c' /\
             view c' = mkView (current_tool c) (current_color c) (current_width c)
                              (current_opacity c) (current_stroke c)
                              (Some (commit (shape_of (current_tool c) (current_color c)
                                                      (current_width c) (current_opacity c)
                                                      a b) p)).
Proof.
  intros Ht Hp Ha Hb.
  unfold draw, run, step. rewrite (press_shape c a Ht). simpl.
  rewrite move_shape; [|reflexivity|exact Ht]. simpl.
  erewrite release_shape; [|reflexivity|exact Ht|exact Hp].
  simpl. rewrite Ha, Hb. simpl. eexists; split; [reflexivity|].
  unfold view, page. simpl. now rewrite (page_insert_view c p).
Qed.

Lemma view_erase_click (c : DrawingCanvas) (p : Page) (a : QPoint) :
  current_tool c = ERASER -> current_stroke c = None -> page c = Some p ->
  exists c', run (click a) c = Some c' /\
             view c' = mkView ERASER (current_color c) (current_width c)
                              (current_opacity c) None
                              (Some (erase_page (QPointF_of a) (current_width c) p)).
Proof.
  intros Et Hs Hp.
  unfold click, run, step, mousePressEvent, _erase_at.
  rewrite Et; simpl. rewrite (on_page_eq _ c p Hp); simpl.
  unfold mouseReleaseEvent, page; simpl.
  rewrite (page_insert_view c p _ Hp); simpl. rewrite Et, Hs; simpl.
  eexists; split; [reflexivity|].
  unfold view, page; simpl. rewrite Et. now rewrite (page_insert_view c p).
Qed.

Lemma view_set_tool (t : ToolType) (c : DrawingCanvas) (p : Page) :
  page c = Some p -> background p = NONE ->
  exists c', set_tool t c = Some c' /\
             view c' = mkView t (current_color c) (default_width t) (default_opacity t)
                              (current_stroke c) (Some p).
Proof.
  intros Hp Hb. unfold set_tool. rewrite Hp; simpl. rewrite Hb.
  destruct (ToolType_eqb t ERASER); simpl;
    (eexists; split; [reflexivity|]); unfold view, page in *; simpl; now rewrite Hp.
Qed.

End Gestures.

Section Scenarios.

Lemma view_settings (c c' : DrawingCanvas) (s : option Stroke) (q : option Page) :
  view c' = mkView (current_tool c) (current_color c) (current_width c)
                   (current_opacity c) s q ->
  same_settings c c' /\ current_stroke c' = s /\ page c' = q.
Proof. unfold view, same_settings. now intros [= -> -> -> -> -> ->]. Qed.

Lemma drawn_settings (c c' : DrawingCanvas) (a b : QPoint) :
  same_settings c c' -> drawn c' a b = drawn c a b.
Proof. unfold drawn. now intros (-> & -> & -> & ->). Qed.

(** A gesture that draws commits its stroke on the active page. *)
Lemma run_draw (c : DrawingCanvas) (p : Page) (a b : QPoint) (s : Stroke) :
  drawn c a b = Some s -> page c = Some p ->
  exists c', run (draw a b) c = Some c' /\ page c' = Some (commit s p) /\
             same_settings c c'.
Proof.
  unfold drawn. intros Hd Hp.
  destruct (is_freehand_tool (current_tool c)) eqn:Hf.
  - injection Hd as <-.
    destruct (view_draw_freehand c p a b Hf Hp) as (c' & Hr & Hv).
    apply view_settings in Hv as (? & _ & ?). eauto.
  - destruct (is_shape_tool (current_tool c)) eqn:Hsh; [|discriminate Hd].
    destruct (QPointF_bool (QPointF_of a)) eqn:Ha; [|discriminate Hd].
    destruct (QPointF_bool (QPointF_of b)) eqn:Hb; [|discriminate Hd].
    injection Hd as <-.
    destruct (view_draw_shape c p a b Hsh Hp Ha Hb) as (c' & Hr & Hv).
    apply view_settings in Hv as (? & _ & ?). eauto.
Qed.

Lemma run_on_page (f : Page -> Page) (c : DrawingCanvas) (p : Page) :
  page c = Some p ->
  exists c', on_page f c = Some c' /\ page c' = Some (f p) /\
             same_settings c c' /\ current_stroke c' = current_stroke c.
Proof.
  intros Hp. destruct (view_on_page f c p Hp) as (c' & Hr & Hv).
  apply view_settings in Hv as (? & ? & ?). eauto 6.
Qed.

Lemma run_one (cmd : Command) (c c' : DrawingCanvas) :
  step cmd c = Some c' -> run [cmd] c = Some c'.
Proof. simpl. now intros ->. Qed.

Lemma run_app_Some (xs ys : list Command) (c c1 c2 : DrawingCanvas) :
  run xs c = Some c1 -> run ys c1 = Some c2 -> run (xs ++ ys) c = Some c2.
Proof. intros H1 H2. now rewrite run_app, H1. Qed.

Lemma strokes_after_end (xs : list Command) (c c' : DrawingCanvas) (p : Page) :
  run xs c = Some c' -> page c' = Some p -> strokes_after xs c = Some (strokes p).
Proof. intros H1 H2. unfold strokes_after, active_strokes. now rewrite H1; simpl; rewrite H2. Qed.

Lemma undo_page_snoc (p : Page) (l : list Stroke) (s : Stroke) :
  strokes p = l ++ [s] ->
  undo_page p = mkPage l (images p) (background p) (undo_stack p ++ [l ++ [s]])
                       (redo_stack p).
Proof.
  intros E. unfold undo_page. rewrite E, removelast_last.
  now destruct l.
Qed.

Lemma redo_page_snoc (p : Page) (rest : list (list Stroke)) (st : list Stroke) :
  undo_stack p = rest ++ [st] ->
  redo_page p =
    mkPage (if (length (strokes p) <? length st)%nat then st else strokes p)
           (images p) (background p) rest (redo_stack p).
Proof.
  intros E. unfold redo_page. rewrite E, pop_app. now destruct (_ <? _)%nat.
Qed.

Lemma redo_page_empty (p : Page) : undo_stack p = [] -> redo_page p = p.
Proof. intros E. unfold redo_page. now rewrite E. Qed.

(** Page level: commit, undo, commit, redo. *)
Lemma commit_undo_commit_redo (p : Page) (A B : Stroke) :
  strokes p = [] ->
  strokes (commit A p) = [A] /\
  strokes (undo_page (commit A p)) = [] /\
  strokes (commit B (undo_page (commit A p))) = [B] /\
  strokes (redo_page (commit B (undo_page (commit A p)))) = [B].
Proof.
  intros E.
  assert (E1 : strokes (commit A p) = [] ++ [A]) by (simpl; now rewrite E).
  rewrite (undo_page_snoc _ _ _ E1). simpl. rewrite E. simpl.
  repeat split.
  erewrite redo_page_snoc; [|reflexivity]. reflexivity.
Qed.

End Scenarios.

(** * The claims *)

(** C2. Draw A on an empty page, undo, draw B, redo: the stroke list is
    [[A]], then empty, then [[B]], and after the redo still [[B]].  The
    gestures are pointer events; A and B are whatever the current tool
    commits, a freehand stroke or a shape. *)
Theorem draw_undo_draw_redo (c : DrawingCanvas) (p : Page)
        (a0 a1 b0 b1 : QPoint) (A B : Stroke) :
  page c = Some p -> strokes p = [] ->
  drawn c a0 a1 = Some A -> drawn c b0 b1 = Some B ->
  strokes_after (draw a0 a1) c = Some [A] /\
  strokes_after (draw a0 a1 ++ [Undo]) c = Some [] /\
  strokes_after (draw a0 a1 ++ [Undo] ++ draw b0 b1) c = Some [B] /\
  strokes_after (draw a0 a1 ++ [Undo] ++ draw b0 b1 ++ [Redo]) c = Some [B].
Proof.
  intros Hp E HA HB.
  destruct (commit_undo_commit_redo p A B E) as (S1 & S2 & S3 & S4).
  destruct (run_draw c p a0 a1 A HA Hp) as (c1 & R1 & P1 & T1).
  destruct (run_on_page undo_page c1 _ P1) as (c2 & R2 & P2 & T2 & _).
  assert (HB2 : drawn c2 b0 b1 = Some B)
    by (now rewrite (drawn_settings c1 c2), (drawn_settings c c1)).
  destruct (run_draw c2 _ b0 b1 B HB2 P2) as (c3 & R3 & P3 & T3).
  destruct (run_on_page redo_page c3 _ P3) as (c4 & R4 & P4 & _).
  apply (run_one Undo) in R2. apply (run_one Redo) in R4.
  pose proof (run_app_Some _ _ _ _ _ R1 R2) as R12.
  pose proof (run_app_Some _ _ _ _ _ R12 R3) as R123.
  pose proof (run_app_Some _ _ _ _ _ R123 R4) as R1234.
  rewrite !app_assoc.
  rewrite (strokes_after_end _ _ _ _ R1 P1), (strokes_after_end _ _ _ _ R12 P2),
    (strokes_after_end _ _ _ _ R123 P3), (strokes_after_end _ _ _ _ R1234 P4).
  now rewrite S1, S2, S3, S4.
Qed.

Lemma draw_undo_draw_redo_witness :
  let c := init in
  let A := freehand_of PEN 0x1a1a2e%Z 3 1 (mkQPoint 10 10) (mkQPoint 20 20) in
  let B := freehand_of PEN 0x1a1a2e%Z 3 1 (mkQPoint 30 30) (mkQPoint 40 50) in
  strokes_after (draw (mkQPoint 10 10) (mkQPoint 20 20) ++ [Undo] ++
                 draw (mkQPoint 30 30) (mkQPoint 40 50) ++ [Redo]) c = Some [B].
Proof.
  intros c A B.
  apply (draw_undo_draw_redo c (new_Page NONE)
           (mkQPoint 10 10) (mkQPoint 20 20) (mkQPoint 30 30) (mkQPoint 40 50) A B);
    reflexivity.
Defined.

Section UndoAll.

Lemma undo_empty (c : DrawingCanvas) (p : Page) :
  page c = Some p -> strokes p = [] -> undo c = Some c.
Proof.
  intros Hp E. apply (on_page_id undo_page c p Hp). unfold undo_page. now rewrite E.
Qed.

Lemma undo_snoc (c : DrawingCanvas) (p : Page) (l : list Stroke) (s : Stroke) :
  page c = Some p -> strokes p = l ++ [s] ->
  exists c1, undo c = Some c1 /\
             page c1 = Some (mkPage l (images p) (background p)
                                    (undo_stack p ++ [l ++ [s]]) (redo_stack p)).
Proof.
  intros Hp E. destruct (run_on_page undo_page c p Hp) as (c1 & R & P & _).
  exists c1. split; [exact R|]. now rewrite P, (undo_page_snoc p l s E).
Qed.

Lemma undo_times (n : nat) (c : DrawingCanvas) (p : Page) :
  page c = Some p -> length (strokes p) = n ->
  exists c', run (replicate n Undo) c = Some c' /\
             active_strokes c' = Some [] /\ undo c' = Some c'.
Proof.
  revert c p. induction n as [|n IH]; intros c p Hp Hn.
  - apply nil_length_inv in Hn. exists c. simpl.
    split; [easy|]. split; [|now apply (undo_empty c p)].
    unfold active_strokes. now rewrite Hp; simpl; rewrite Hn.
  - destruct (strokes p) as [|s l _] eqn:E using rev_ind; [easy|].
    rewrite length_app in Hn. simpl in Hn.
    destruct (undo_snoc c p l s Hp E) as (c1 & R & P).
    destruct (IH c1 _ P) as (c' & R' & S' & U'); [simpl; lia|].
    exists c'. simpl. rewrite R. simpl. easy.
Qed.

End UndoAll.

(** C6. On a page with N committed strokes, an undo with a stroke present
    pushes the whole list on the undo history and drops the last stroke;
    N undos leave the list empty; one more undo changes nothing and does
    not raise. *)
Theorem undo_N_times_empties (c : DrawingCanvas) (p : Page) :
  page c = Some p ->
  (forall l s, strokes p = l ++ [s] ->
     exists c1, undo c = Some c1 /\
                page c1 = Some (mkPage l (images p) (background p)
                                       (undo_stack p ++ [l ++ [s]]) (redo_stack p))) /\
  (exists c', run (replicate (length (strokes p)) Undo) c = Some c' /\
              active_strokes c' = Some [] /\
              undo c' = Some c').
Proof.
  intros Hp. split.
  - intros l s E. now apply undo_snoc.
  - now apply (undo_times _ c p).
Qed.

Lemma undo_N_times_empties_witness :
  let A := mkStroke [mkQPointF 1 1; mkQPointF 2 2] 0%Z 3 PEN 1 None None in
  let B := mkStroke [] 0%Z 3 LINE 1 (Some (mkQPointF 1 1)) (Some (mkQPointF 5 5)) in
  let c := with_pages [mkPage [A; B] [] NONE [] []] init in
  exists c', run [Undo; Undo] c = Some c' /\
             active_strokes c' = Some [] /\ undo c' = Some c'.
Proof.
  intros A B c.
  exact (proj2 (undo_N_times_empties c (mkPage [A; B] [] NONE [] []) eq_refl)).
Defined.

Section EraseMiss.

Lemma erase_miss (pos : QPointF) (c : DrawingCanvas) (p : Page) :
  page c = Some p ->
  Forall (fun s => stays pos (current_width c) s = true) (strokes p) ->
  _erase_at pos c = Some c.
Proof.
  intros Hp H. apply (on_page_id _ c p Hp). now apply erase_page_no_hit.
Qed.

End EraseMiss.

(** C4. An erase query in whose range no stroke lies leaves the canvas,
    and with it the active page and its undo history, exactly as it was;
    so does a second query at the same point; with the eraser selected, a
    press followed by a move at that point leaves every page unchanged. *)
Theorem erase_nothing_is_noop (pos : QPointF) (c : DrawingCanvas) (p : Page) :
  page c = Some p ->
  Forall (fun s => stays pos (current_width c) s = true) (strokes p) ->
  _erase_at pos c = Some c /\
  (_erase_at pos c ≫= _erase_at pos) = Some c /\
  (forall q, current_tool c = ERASER -> QPointF_of q = pos ->
     exists c', run [MousePress LeftButton q; MouseMove q] c = Some c' /\
                pages c' = pages c).
Proof.
  intros Hp H. pose proof (erase_miss pos c p Hp H) as E.
  split; [exact E|]. split; [now rewrite E|].
  intros q Ht <-. unfold run, step, mousePressEvent, mouseMoveEvent.
  rewrite Ht. simpl. rewrite E. simpl. rewrite Ht. simpl.
  rewrite (erase_miss (QPointF_of q) (with_drawing true c) p); [eauto|exact Hp|exact H].
Qed.

Lemma erase_nothing_is_noop_witness :
  let A := mkStroke [mkQPointF 100 100; mkQPointF 107 107] 0%Z 3 PEN 1 None None in
  let c := with_pages [mkPage [A] [] NONE [] []] init in
  _erase_at (mkQPointF 0 0) c = Some c.
Proof.
  intros A c.
  apply (erase_nothing_is_noop (mkQPointF 0 0) c (mkPage [A] [] NONE [] []) eq_refl).
  repeat constructor. unfold stays, freehand_hit. simpl.
  assert (H1 : Rltb (hypot (0 - 100) (0 - 100)) 3 = false)
    by (apply Rltb_false, Rnot_lt_le; rewrite hypot_lt; lra).
  assert (H2 : Rltb (hypot (0 - 107) (0 - 107)) 3 = false)
    by (apply Rltb_false, Rnot_lt_le; rewrite hypot_lt; lra).
  now rewrite H1, H2.
Defined.

(** C9. From a fresh canvas no sequence of commands raises, and after it
    every page has an empty [redo_stack].  No page operation adds to
    [redo_stack]: a commit empties it, the others leave it alone.  [redo]
    reads the [undo_stack] only: with an empty [undo_stack] it does
    nothing, otherwise it pops the last snapshot and installs it when it is
    longer than the current list. *)
Theorem redo_stack_stays_empty :
  (forall cmds, exists c, run cmds init = Some c /\
                          Forall (fun p => redo_stack p = []) (pages c)) /\
  (forall p s pos r,
     redo_stack (commit s p) = [] /\
     redo_stack (undo_page p) = redo_stack p /\
     redo_stack (redo_page p) = redo_stack p /\
     redo_stack (erase_page pos r p) = redo_stack p /\
     redo_stack (clear_page_page p) = redo_stack p) /\
  (forall p,
     (undo_stack p = [] -> redo_page p = p) /\
     (forall rest st, undo_stack p = rest ++ [st] ->
        redo_page p =
          mkPage (if (length (strokes p) <? length st)%nat then st else strokes p)
                 (images p) (background p) rest (redo_stack p))).
Proof.
  split; [|split].
  - intros cmds. destruct (run_ok cmds init init_ok) as (c & R & _ & Hp & _).
    exists c. split; [exact R|].
    eapply Forall_impl; [exact Hp|]. now intros p (_ & _ & H).
  - intros p s pos r. repeat split.
    + unfold undo_page. now destruct (strokes p).
    + unfold redo_page. destruct (pop (undo_stack p)) as [[rest st]|]; [|easy].
      now destruct (_ <? _)%nat.
    + unfold erase_page. now destruct (_ <? _)%nat.
    + unfold clear_page_page. now destruct (strokes p).
  - intros p. split; [apply redo_page_empty|apply redo_page_snoc].
Qed.

Section RedoAfterErase.

Lemma view_inv (c : DrawingCanvas) t col w op s q :
  view c = mkView t col w op s q ->
  current_tool c = t /\ current_color c = col /\ current_width c = w /\
  current_opacity c = op /\ current_stroke c = s /\ page c = q.
Proof. unfold view. now intros [= -> -> -> -> -> ->]. Qed.

(** A freehand stroke whose first point is nearer than the radius goes. *)
Lemma stays_first_point (pos : QPointF) (r : R) (s : Stroke) (pt : QPointF)
      (rest : list QPointF) :
  start_point s = None -> points s = pt :: rest ->
  hypot (px pos - px pt) (py pos - py pt) < r ->
  stays pos r s = false.
Proof.
  intros Hs Hp Hd. unfold stays, freehand_hit. rewrite Hs, Hp. simpl.
  apply Rltb_true in Hd. now rewrite Hd.
Qed.

Lemma erase_one (pos : QPointF) (r : R) (A : Stroke) (p : Page) :
  strokes p = [A] -> stays pos r A = false ->
  erase_page pos r p =
    mkPage [] (images p) (background p) (undo_stack p ++ [[A]]) (redo_stack p).
Proof.
  intros E H. rewrite erase_page_hit; rewrite E; [|now constructor].
  simpl. now rewrite H.
Qed.

Lemma erase_two (pos : QPointF) (r : R) (A B : Stroke) (p : Page) :
  strokes p = [A; B] -> stays pos r A = false -> stays pos r B = false ->
  erase_page pos r p =
    mkPage [] (images p) (background p) (undo_stack p ++ [[A; B]]) (redo_stack p).
Proof.
  intros E HA HB. rewrite erase_page_hit; rewrite E; [|now constructor].
  simpl. now rewrite HA, HB.
Qed.

Lemma near_10_10 (t : ToolType) (col : QColor) (w op : R) (b : QPoint) :
  stays (QPointF_of (mkQPoint 10 10)) 25
        (freehand_of t col w op (mkQPoint 10 10) b) = false.
Proof.
  eapply stays_first_point; [reflexivity|reflexivity|].
  apply hypot_lt. simpl. lra.
Qed.

Lemma near_12_10 (t : ToolType) (col : QColor) (w op : R) (b : QPoint) :
  stays (QPointF_of (mkQPoint 10 10)) 25
        (freehand_of t col w op (mkQPoint 12 10) b) = false.
Proof.
  eapply stays_first_point; [reflexivity|reflexivity|].
  apply hypot_lt. simpl. lra.
Qed.

(** Select the eraser and click at [q], on a canvas with no stroke under
    construction and a transparent background. *)
Lemma run_erase (c : DrawingCanvas) (p : Page) (q : QPoint) :
  current_stroke c = None -> page c = Some p -> background p = NONE ->
  exists c', run ([SetTool ERASER] ++ click q) c = Some c' /\
             view c' = mkView ERASER (current_color c) 25 1 None
                              (Some (erase_page (QPointF_of q) 25 p)).
Proof.
  intros Hs Hp Hb.
  destruct (view_set_tool ERASER c p Hp Hb) as (c1 & R1 & V1).
  apply view_inv in V1 as (T1 & C1 & W1 & O1 & S1 & P1).
  rewrite Hs in S1.
  destruct (view_erase_click c1 p q T1 S1 P1) as (c2 & R2 & V2).
  rewrite C1, W1, O1 in V2. simpl in V2.
  exists c2. split; [|exact V2].
  apply (run_app_Some _ _ c c1 c2); [now apply run_one|exact R2].
Qed.

End RedoAfterErase.

(** C1, on the code.  On a fresh canvas: draw A, erase it, redo: the redo
    brings A back although nothing was undone.  And: draw A and B, erase
    both, draw C, redo: the redo replaces [[C]] by [[A; B]].  A redo that
    follows an erase or a commit, with no undo in between, does change the
    stroke list. *)
Theorem redo_restores_erased_strokes :
  let col := 0x1a1a2e%Z in
  let A := freehand_of PEN col 3 1 (mkQPoint 10 10) (mkQPoint 20 20) in
  let B := freehand_of PEN col 3 1 (mkQPoint 12 10) (mkQPoint 30 40) in
  let C := freehand_of PEN col 3 1 (mkQPoint 50 50) (mkQPoint 60 60) in
  let drawA := draw (mkQPoint 10 10) (mkQPoint 20 20) in
  let drawB := draw (mkQPoint 12 10) (mkQPoint 30 40) in
  let drawC := draw (mkQPoint 50 50) (mkQPoint 60 60) in
  let erase := [SetTool ERASER] ++ click (mkQPoint 10 10) in
  strokes_after (drawA ++ erase) init = Some [] /\
  strokes_after ((drawA ++ erase) ++ [Redo]) init = Some [A] /\
  strokes_after (((drawA ++ drawB) ++ erase) ++ [SetTool PEN] ++ drawC) init = Some [C] /\
  strokes_after ((((drawA ++ drawB) ++ erase) ++ [SetTool PEN] ++ drawC) ++ [Redo]) init
    = Some [A; B].
Proof.
  intros col A B C drawA drawB drawC erase.
  (* draw A *)
  destruct (view_draw_freehand init (new_Page NONE) (mkQPoint 10 10) (mkQPoint 20 20)
              eq_refl eq_refl) as (c1 & R1 & V1).
  apply view_inv in V1 as (T1 & C1 & W1 & O1 & S1 & P1). simpl in T1, C1, W1, O1.
  fold col in C1. fold col A in P1. fold drawA in R1.
  assert (split1 :
    strokes_after (drawA ++ erase) init = Some [] /\
    strokes_after ((drawA ++ erase) ++ [Redo]) init = Some [A]).
  { destruct (run_erase c1 _ (mkQPoint 10 10) S1 P1 eq_refl) as (c2 & R2 & V2).
    apply view_inv in V2 as (_ & _ & _ & _ & _ & P2).
    rewrite (erase_one _ _ A) in P2; [|reflexivity|apply near_10_10].
    destruct (run_on_page redo_page c2 _ P2) as (c3 & R3 & P3 & _).
    apply (run_one Redo) in R3.
    pose proof (run_app_Some _ _ _ _ _ R1 R2) as R12.
    pose proof (run_app_Some _ _ _ _ _ R12 R3) as R123.
    split; [exact (strokes_after_end _ _ _ _ R12 P2)
           |exact (strokes_after_end _ _ _ _ R123 P3)]. }
  split; [apply split1|]. split; [apply split1|]. clear split1.
  (* draw B *)
  assert (Ht1 : is_freehand_tool (current_tool c1) = true) by now rewrite T1.
  destruct (view_draw_freehand c1 _ (mkQPoint 12 10) (mkQPoint 30 40) Ht1 P1)
    as (c2 & R2 & V2).
  rewrite T1, C1, W1, O1 in V2. fold B drawB in V2, R2.
  apply view_inv in V2 as (T2 & C2 & W2 & O2 & S2 & P2).
  (* erase both *)
  destruct (run_erase c2 _ (mkQPoint 10 10) S2 P2 eq_refl) as (c3 & R3 & V3).
  fold erase in R3.
  rewrite (erase_two _ _ A B) in V3; [|reflexivity|apply near_10_10|apply near_12_10].
  apply view_inv in V3 as (T3 & C3 & W3 & O3 & S3 & P3). simpl in P3.
  (* back to the pen, draw C *)
  destruct (view_set_tool PEN c3 _ P3 eq_refl) as (c4 & R4 & V4).
  apply view_inv in V4 as (T4 & C4 & W4 & O4 & S4 & P4). simpl in W4, O4.
  assert (Ht4 : is_freehand_tool (current_tool c4) = true) by now rewrite T4.
  destruct (view_draw_freehand c4 _ (mkQPoint 50 50) (mkQPoint 60 60) Ht4 P4)
    as (c5 & R5 & V5).
  rewrite T4, C4, C3, C2, W4, O4 in V5. fold C drawC in V5, R5.
  apply view_inv in V5 as (_ & _ & _ & _ & _ & P5).
  (* redo *)
  destruct (run_on_page redo_page c5 _ P5) as (c6 & R6 & P6 & _).
  apply (run_one Redo) in R6. apply (run_one (SetTool PEN)) in R4.
  pose proof (run_app_Some _ _ _ _ _ R1 R2) as R12.
  pose proof (run_app_Some _ _ _ _ _ R12 R3) as R123.
  pose proof (run_app_Some _ _ _ _ _ R4 R5) as R45.
  pose proof (run_app_Some _ _ _ _ _ R123 R45) as R12345.
  pose proof (run_app_Some _ _ _ _ _ R12345 R6) as R123456.
  split; [exact (strokes_after_end _ _ _ _ R12345 P5)
         |exact (strokes_after_end _ _ _ _ R123456 P6)].
Qed.

Section Clicks.

(** A click with a shape tool at a point that passes the truth test commits
    the degenerate shape. *)
Lemma click_shape (c : DrawingCanvas) (p : Page) (a : QPoint) :
  is_shape_tool (current_tool c) = true -> page c = Some p ->
  QPointF_bool (QPointF_of a) = true ->
  exists c', run (click a) c = Some c' /\
             page c' = Some (commit (shape_of (current_tool c) (current_color c)
                                              (current_width c) (current_opacity c) a a) p).
Proof.
  intros Ht Hp Ha. unfold click, run, step. rewrite (press_shape c a Ht). simpl.
  erewrite release_shape; [|reflexivity|exact Ht|exact Hp].
  simpl. rewrite Ha. simpl. eexists; split; [reflexivity|].
  unfold page. simpl. now rewrite (page_insert_view c p).
Qed.

(** At a point that fails it, the origin, the click commits nothing. *)
Lemma click_shape_origin (c : DrawingCanvas) (p : Page) (a : QPoint) :
  is_shape_tool (current_tool c) = true -> page c = Some p ->
  QPointF_bool (QPointF_of a) = false ->
  exists c', run (click a) c = Some c' /\ pages c' = pages c.
Proof.
  intros Ht Hp Ha. unfold click, run, step. rewrite (press_shape c a Ht). simpl.
  erewrite release_shape; [|reflexivity|exact Ht|exact Hp].
  simpl. rewrite Ha. simpl. eexists; split; reflexivity.
Qed.

(** A click with Pen, Highlighter or Chisel commits nothing. *)
Lemma click_freehand (c : DrawingCanvas) (p : Page) (a : QPoint) :
  is_freehand_tool (current_tool c) = true -> page c = Some p ->
  exists c', run (click a) c = Some c' /\ pages c' = pages c /\
             current_stroke c' = None.
Proof.
  intros Ht Hp. pose proof (freehand_not_shape _ Ht) as (H1 & _).
  unfold click, run, step. rewrite (press_freehand c a Ht). simpl.
  erewrite release_freehand; [|reflexivity|exact H1|exact Hp|reflexivity].
  simpl. eexists; split; [reflexivity|]. now split.
Qed.

Lemma QPointF_of_origin : QPointF_bool (QPointF_of (mkQPoint 0 0)) = false.
Proof. apply QPointF_bool_false. now split. Qed.

Lemma QPointF_of_nonzero (x y : Z) :
  (x <> 0 \/ y <> 0)%Z -> QPointF_bool (QPointF_of (mkQPoint x y)) = true.
Proof.
  intros H. apply QPointF_bool_true. simpl.
  destruct H as [H|H]; [left|right]; intros E; apply eq_IZR_R0 in E; lia.
Qed.

End Clicks.

(** C10, on the code.  With the Line tool on a fresh canvas, a click at
    (5, 7) commits the degenerate line from (5, 7) to (5, 7), and the same
    click with the Pen commits nothing; but a click at the origin (0, 0)
    with the Line tool commits nothing either: [QPointF(0, 0)] is false in
    the test [shape_start and shape_preview_end]. *)
Theorem click_at_origin_commits_nothing :
  let col := 0x1a1a2e%Z in
  strokes_after ([SetTool LINE] ++ click (mkQPoint 5 7)) init
    = Some [shape_of LINE col 3 1 (mkQPoint 5 7) (mkQPoint 5 7)] /\
  strokes_after (click (mkQPoint 5 7)) init = Some [] /\
  strokes_after ([SetTool LINE] ++ click (mkQPoint 0 0)) init = Some [].
Proof.
  intros col.
  destruct (view_set_tool LINE init _ eq_refl eq_refl) as (c1 & R1 & V1).
  apply view_inv in V1 as (T1 & C1 & W1 & O1 & S1 & P1).
  apply (run_one (SetTool LINE)) in R1.
  assert (Ht : is_shape_tool (current_tool c1) = true) by now rewrite T1.
  split; [|split].
  - destruct (click_shape c1 _ (mkQPoint 5 7) Ht P1) as (c2 & R2 & P2).
    { apply QPointF_of_nonzero. lia. }
    rewrite T1, C1, W1, O1 in P2.
    exact (strokes_after_end _ _ _ _ (run_app_Some _ _ _ _ _ R1 R2) P2).
  - reflexivity.
  - destruct (click_shape_origin c1 _ (mkQPoint 0 0) Ht P1 QPointF_of_origin)
      as (c2 & R2 & P2).
    assert (P2' : page c2 = Some (new_Page NONE)).
    { unfold page in *. rewrite P2.
      replace (current_page_idx c2) with (current_page_idx c1); [exact P1|].
      revert R2. unfold click, run, step. rewrite (press_shape c1 _ Ht). simpl.
      erewrite release_shape; [|reflexivity|exact Ht|exact P1].
      simpl. rewrite QPointF_of_origin. simpl. now intros [= <-]. }
    exact (strokes_after_end _ _ _ _ (run_app_Some _ _ _ _ _ R1 R2) P2').
Qed.

Section EraserSpec.
Variables (pos : QPointF) (r : R).

Lemma freehand_hit_Exists (pts : list QPointF) :
  freehand_hit pos r pts = true <->
  Exists (fun pt => hypot (px pos - px pt) (py pos - py pt) < r) pts.
Proof.
  unfold freehand_hit. induction pts as [|pt l IH]; simpl.
  - split; [easy|]. intros H. inversion H.
  - rewrite orb_true_iff, IH, Rltb_true. split.
    + intros [H|H]; [now left|now right].
    + intros H. inversion H; subst; [now left|now right].
Qed.

(** On the strokes the canvas commits, the test of [_erase_at] is the
    predicate of the specification. *)
Lemma stays_spec (s : Stroke) :
  stroke_ok s -> (stays pos r s = false <-> erased_by_spec pos r s).
Proof.
  unfold stays, erased_by_spec.
  intros [(Hs & He & _)|(sp & ep & Hs & He & Bs & Be & _)]; rewrite Hs, He; simpl.
  - rewrite negb_false_iff. apply freehand_hit_Exists.
  - rewrite Bs, Be. simpl. rewrite Rgtb_false.
    now replace (r * 2) with (2 * r) by ring.
Qed.

Lemma filter_erases (l : list Stroke) :
  Forall stroke_ok l ->
  erases (erased_by_spec pos r) l (List.filter (stays pos r) l).
Proof.
  induction 1 as [|s l Hs _ IH]; simpl; [constructor|].
  apply (stays_spec s) in Hs.
  destruct (stays pos r s) eqn:E.
  - apply erases_keep; [|exact IH]. intros H. apply Hs in H. discriminate H.
  - apply erases_drop; [|exact IH]. now apply Hs.
Qed.

End EraserSpec.

(** C3. On every canvas the commands can reach, an erase query at [pos]
    with the current width as radius [r] does not raise and leaves on the
    active page exactly the strokes the specification does not erase: a
    shape stroke goes iff the midpoint of its two points is within [2 r],
    a freehand stroke iff one of its points is nearer than [r]; the others
    stay, whole and in order. *)
Theorem erase_removes_by_proximity (cmds : list Command) (c : DrawingCanvas)
        (pos : QPointF) :
  run cmds init = Some c ->
  exists p c' p',
    page c = Some p /\ _erase_at pos c = Some c' /\ page c' = Some p' /\
    erases (erased_by_spec pos (current_width c)) (strokes p) (strokes p').
Proof.
  intros Hrun. destruct (run_ok cmds init init_ok) as (c0 & R & Hi & Hp & _).
  rewrite Hrun in R. injection R as <-.
  apply page_Some_iff in Hi as [p Hpg].
  destruct (run_on_page (erase_page pos (current_width c)) c p Hpg) as (c' & E & P & _).
  exists p, c', (erase_page pos (current_width c) p).
  split; [exact Hpg|]. split; [exact E|]. split; [exact P|].
  rewrite erase_page_strokes. apply filter_erases.
  unfold page in Hpg. now destruct (Forall_lookup_1 _ _ _ _ Hp Hpg) as (H & _).
Qed.

Lemma erase_removes_by_proximity_witness :
  let cmds := draw (mkQPoint 10 10) (mkQPoint 20 20) in
  exists c,
    run cmds init = Some c /\
    exists p c' p',
      page c = Some p /\ _erase_at (mkQPointF 30 25) c = Some c' /\ page c' = Some p' /\
      erases (erased_by_spec (mkQPointF 30 25) (current_width c)) (strokes p) (strokes p').
Proof.
  intros cmds. eexists. split; [reflexivity|].
  apply (erase_removes_by_proximity cmds). reflexivity.
Defined.

Section Smoothing.

Lemma smoothed_70 (prev : QPointF) (raw : QPoint) :
  smoothed prev raw =
    mkQPointF (px prev + (IZR (qx raw) - px prev) * (7 / 10))
              (py prev + (IZR (qy raw) - py prev) * (7 / 10)).
Proof. unfold smoothed, SMOOTHING_FACTOR. f_equal; lra. Qed.

(** What is left of the way to the raw position is 0.3 of what it was. *)
Lemma smoothed_rest (prev : QPointF) (raw : QPoint) :
  IZR (qx raw) - px (smoothed prev raw) = 3 / 10 * (IZR (qx raw) - px prev) /\
  IZR (qy raw) - py (smoothed prev raw) = 3 / 10 * (IZR (qy raw) - py prev).
Proof. unfold smoothed, SMOOTHING_FACTOR. simpl. split; lra. Qed.

Lemma moves_freehand (n : nat) (raw : QPoint) :
  forall (c : DrawingCanvas) (s : Stroke) (prev : QPointF),
    drawing c = true -> is_freehand_tool (current_tool c) = true ->
    current_stroke c = Some s -> last (points s) = Some prev ->
    exists c' s' lp,
      run (replicate n (MouseMove raw)) c = Some c' /\
      current_stroke c' = Some s' /\
      length (points s') = (length (points s) + n)%nat /\
      last (points s') = Some lp /\
      IZR (qx raw) - px lp = (3 / 10) ^ n * (IZR (qx raw) - px prev) /\
      IZR (qy raw) - py lp = (3 / 10) ^ n * (IZR (qy raw) - py prev).
Proof.
  induction n as [|n IH]; intros c s prev Hd Ht Hs Hl.
  - exists c, s, prev. simpl. repeat split; try easy; try lia; lra.
  - pose proof (freehand_not_shape _ Ht) as (H1 & H2 & _).
    destruct (IH (with_stroke (Some (append_point (smoothed prev raw) s)) c)
                 (append_point (smoothed prev raw) s) (smoothed prev raw))
      as (c' & s' & lp & R & S' & L' & La & X & Y); try easy.
    { simpl. apply last_snoc. }
    exists c', s', lp. simpl.
    rewrite (move_freehand c s prev raw Hd H1 H2 Hs Hl). simpl.
    destruct (smoothed_rest prev raw) as [Ex Ey].
    repeat split; try easy.
    + rewrite L'. simpl. rewrite length_app. simpl. lia.
    + rewrite X, Ex. ring.
    + rewrite Y, Ey. ring.
Qed.

End Smoothing.

(** C5. While a freehand stroke is being drawn, a pointer move at [raw]
    appends exactly [prev + (raw - prev) * 0.7] to it, [prev] being its
    last point, and changes nothing else of the stroke.  After [n] moves at
    the same [raw], the last point [lp] has, in each coordinate,
    [raw - lp = 0.3 ^ n * (raw - prev)]: it stays on the same side of
    [raw], and its distance to [raw] is [0.3 ^ n] times the first one.
    Coordinates are real numbers here. *)
Theorem smoothing_converges (c : DrawingCanvas) (s : Stroke) (prev : QPointF)
        (raw : QPoint) (n : nat) :
  drawing c = true -> is_freehand_tool (current_tool c) = true ->
  current_stroke c = Some s -> last (points s) = Some prev ->
  let new := mkQPointF (px prev + (IZR (qx raw) - px prev) * (7 / 10))
                       (py prev + (IZR (qy raw) - py prev) * (7 / 10)) in
  (exists c1 s1,
     mouseMoveEvent raw c = Some c1 /\ current_stroke c1 = Some s1 /\
     points s1 = points s ++ [new] /\ pages c1 = pages c /\
     hypot (IZR (qx raw) - px new) (IZR (qy raw) - py new)
       = 3 / 10 * hypot (IZR (qx raw) - px prev) (IZR (qy raw) - py prev)) /\
  (exists c' s' lp,
     run (replicate n (MouseMove raw)) c = Some c' /\
     current_stroke c' = Some s' /\
     length (points s') = (length (points s) + n)%nat /\
     last (points s') = Some lp /\
     IZR (qx raw) - px lp = (3 / 10) ^ n * (IZR (qx raw) - px prev) /\
     IZR (qy raw) - py lp = (3 / 10) ^ n * (IZR (qy raw) - py prev) /\
     hypot (IZR (qx raw) - px lp) (IZR (qy raw) - py lp)
       = (3 / 10) ^ n * hypot (IZR (qx raw) - px prev) (IZR (qy raw) - py prev)).
Proof.
  intros Hd Ht Hs Hl new.
  pose proof (freehand_not_shape _ Ht) as (H1 & H2 & _).
  split.
  - exists (with_stroke (Some (append_point (smoothed prev raw) s)) c),
           (append_point (smoothed prev raw) s).
    split; [now apply move_freehand|]. split; [reflexivity|].
    rewrite smoothed_70. fold new. split; [reflexivity|]. split; [reflexivity|].
    destruct (smoothed_rest prev raw) as [Ex Ey]. rewrite smoothed_70 in Ex, Ey.
    fold new in Ex, Ey. rewrite Ex, Ey, hypot_scale.
    rewrite Rabs_pos_eq; [reflexivity|lra].
  - destruct (moves_freehand n raw c s prev Hd Ht Hs Hl)
      as (c' & s' & lp & R & S' & L' & La & X & Y).
    exists c', s', lp. repeat split; try easy.
    rewrite X, Y, hypot_scale. rewrite Rabs_pos_eq; [reflexivity|].
    apply pow_le. lra.
Qed.

Lemma smoothing_converges_witness :
  let s := mkStroke [mkQPointF 0 0] 0x1a1a2e%Z 3 PEN 1 None None in
  let c := with_stroke (Some s) (with_drawing true init) in
  exists c' s' lp,
    run (replicate 2 (MouseMove (mkQPoint 10 0))) c = Some c' /\
    current_stroke c' = Some s' /\
    length (points s') = 3%nat /\
    last (points s') = Some lp /\
    10 - px lp = (3 / 10) ^ 2 * (10 - 0) /\
    0 - py lp = (3 / 10) ^ 2 * (0 - 0) /\
    hypot (10 - px lp) (0 - py lp) = (3 / 10) ^ 2 * hypot (10 - 0) (0 - 0).
Proof.
  intros s c.
  exact (proj2 (smoothing_converges c s (mkQPointF 0 0) (mkQPoint 10 0) 2
                  eq_refl eq_refl eq_refl eq_refl)).
Defined.

Section Boxes.

Lemma normalized_box (s e : QPointF) :
  normalized (QRectF_of s e) = bounding_box s e.
Proof.
  unfold normalized, QRectF_of, bounding_box. simpl.
  destruct (Rlt_dec (px e - px s) 0) as [Hx|Hx],
           (Rlt_dec (py e - py s) 0) as [Hy|Hy]; f_equal;
    try (rewrite Rmin_right by lra; lra);
    try (rewrite Rmin_left by lra; lra);
    try (rewrite Rabs_left by lra; lra);
    try (rewrite Rabs_right by lra; lra).
Qed.

Lemma bounding_box_swap (s e : QPointF) : bounding_box e s = bounding_box s e.
Proof.
  unfold bounding_box. f_equal; try apply Rmin_comm; apply Rabs_minus_sym.
Qed.

Lemma both_points_swap (a b : option QPointF) (s e : QPointF) :
  both_points a b = Some (s, e) -> both_points b a = Some (e, s).
Proof.
  rewrite !both_points_Some. tauto.
Qed.

(** Whatever its points, a Rectangle or Circle stroke paints the same
    with its ends exchanged. *)
Lemma paint_swap (s : Stroke) :
  tool s = RECTANGLE \/ tool s = CIRCLE ->
  _paint_stroke (swap_ends s) = _paint_stroke s.
Proof.
  intros Ht. unfold _paint_stroke, swap_ends. simpl.
  destruct (both_points (start_point s) (end_point s)) as [[sp ep]|] eqn:E.
  - rewrite (both_points_swap _ _ _ _ E).
    destruct Ht as [-> | ->]; now rewrite !normalized_box, bounding_box_swap.
  - now rewrite (both_points_swap_None _ _ E).
Qed.

(** Every stroke with a shape tool on a page the commands can reach has
    both shape points, and both pass the truth test. *)
Lemma committed_shape_points (cmds : list Command) (c : DrawingCanvas)
      (p : Page) (s : Stroke) :
  run cmds init = Some c -> p ∈ pages c -> s ∈ strokes p ->
  is_shape_tool (tool s) = true ->
  exists sp ep, start_point s = Some sp /\ end_point s = Some ep /\
                QPointF_bool sp = true /\ QPointF_bool ep = true.
Proof.
  intros Hrun Hp Hs Ht.
  destruct (run_ok cmds init init_ok) as (c0 & R & _ & Hpages & _).
  rewrite Hrun in R. injection R as <-.
  rewrite Forall_forall in Hpages. destruct (Hpages p Hp) as (Hst & _).
  rewrite Forall_forall in Hst.
  destruct (Hst s Hs) as [(_ & _ & Hf)|(sp & ep & H1 & H2 & H3 & H4 & _)].
  - destruct (tool s); discriminate.
  - now exists sp, ep.
Qed.

End Boxes.

(** C7. A Rectangle or Circle stroke whose two points are set (and pass
    the truth test, as those of every committed shape do) is painted as the
    rectangle, or the ellipse, of the bounding box of the two points; with
    start and end exchanged it paints the same. *)
Theorem rect_circle_use_normalized_box (s : Stroke) (sp ep : QPointF) :
  tool s = RECTANGLE \/ tool s = CIRCLE ->
  start_point s = Some sp -> end_point s = Some ep ->
  QPointF_bool sp = true -> QPointF_bool ep = true ->
  _paint_stroke s =
    [match tool s with
     | RECTANGLE => DrawRect (bounding_box sp ep)
     | _ => DrawEllipse (bounding_box sp ep)
     end] /\
  _paint_stroke (swap_ends s) = _paint_stroke s.
Proof.
  intros Ht Hs He Bs Be. split; [|now apply paint_swap].
  unfold _paint_stroke. rewrite Hs, He. simpl. rewrite Bs, Be. simpl.
  destruct Ht as [-> | ->]; now rewrite normalized_box.
Qed.

Lemma rect_circle_use_normalized_box_witness :
  let up := mkStroke [] 0%Z 3 RECTANGLE 1
                     (Some (mkQPointF 200 200)) (Some (mkQPointF 50 50)) in
  let down := mkStroke [] 0%Z 3 RECTANGLE 1
                       (Some (mkQPointF 50 50)) (Some (mkQPointF 200 200)) in
  _paint_stroke up = [DrawRect (mkQRectF 50 50 150 150)] /\
  _paint_stroke down = _paint_stroke up.
Proof.
  intros up down.
  assert (B1 : QPointF_bool (mkQPointF 200 200) = true)
    by (apply QPointF_bool_true; simpl; lra).
  assert (B2 : QPointF_bool (mkQPointF 50 50) = true)
    by (apply QPointF_bool_true; simpl; lra).
  destruct (rect_circle_use_normalized_box up (mkQPointF 200 200) (mkQPointF 50 50)
              (or_introl eq_refl) eq_refl eq_refl B1 B2) as [H1 H2].
  split; [|exact H2].
  rewrite H1. simpl. unfold bounding_box. simpl.
  rewrite Rmin_right by lra. rewrite Rabs_left by lra.
  do 2 f_equal. f_equal; lra.
Defined.

Section Angles.

Lemma hypot_factor (x y : R) :
  x <> 0 -> hypot x y = Rabs x * sqrt (1 + (y / x)²).
Proof.
  intros Hx. unfold hypot, Rsqr.
  replace (x * x + y * y) with (x * x * (1 + y / x * (y / x))) by (field; exact Hx).
  rewrite sqrt_mult; [|nra|nra].
  change (x * x) with (Rsqr x). now rewrite sqrt_Rsqr_abs.
Qed.

Lemma sqrt_1_sqr_pos (t : R) : 0 < sqrt (1 + t²).
Proof. apply sqrt_lt_R0. unfold Rsqr. nra. Qed.

Lemma cos_minus_PI (x : R) : cos (x - PI) = - cos x.
Proof. rewrite cos_minus, cos_PI, sin_PI. ring. Qed.

Lemma sin_minus_PI (x : R) : sin (x - PI) = - sin x.
Proof. rewrite sin_minus, cos_PI, sin_PI. ring. Qed.

(** [atan2 y x] is the direction of the vector [(x, y)]. *)
Lemma atan2_direction (y x : R) :
  hypot x y * cos (atan2 y x) = x /\ hypot x y * sin (atan2 y x) = y.
Proof.
  unfold atan2.
  destruct (Rlt_dec 0 x) as [Hpos|Hnpos].
  { rewrite hypot_factor by lra. rewrite cos_atan, sin_atan.
    pose proof (sqrt_1_sqr_pos (y / x)) as Hs.
    rewrite Rabs_right by lra. split; field; lra. }
  destruct (Rlt_dec x 0) as [Hneg|Hnneg].
  { pose proof (sqrt_1_sqr_pos (y / x)) as Hs.
    destruct (Rle_dec 0 y).
    - rewrite neg_cos, neg_sin, hypot_factor by lra. rewrite cos_atan, sin_atan.
      rewrite Rabs_left by lra. split; field; lra.
    - rewrite cos_minus_PI, sin_minus_PI, hypot_factor by lra.
      rewrite cos_atan, sin_atan.
      rewrite Rabs_left by lra. split; field; lra. }
  assert (x = 0) by lra. subst x.
  assert (Hh : hypot 0 y = Rabs y).
  { unfold hypot. replace (0 * 0 + y * y) with (Rsqr y) by (unfold Rsqr; ring).
    apply sqrt_Rsqr_abs. }
  rewrite Hh.
  destruct (Rlt_dec 0 y).
  { rewrite cos_PI2, sin_PI2, Rabs_right by lra. split; ring. }
  destruct (Rlt_dec y 0).
  { rewrite cos_neg, sin_neg, cos_PI2, sin_PI2, Rabs_left by lra. split; ring. }
  assert (y = 0) by lra. subst y. rewrite Rabs_R0. split; ring.
Qed.

Lemma hypot_polar (L a : R) : 0 <= L -> hypot (L * cos a) (L * sin a) = L.
Proof.
  intros HL. rewrite hypot_scale, Rabs_pos_eq by exact HL.
  unfold hypot. pose proof (sin2_cos2 a) as H. unfold Rsqr in H.
  replace (cos a * cos a + sin a * sin a) with 1 by lra.
  rewrite sqrt_1. ring.
Qed.

Lemma radians_150 : radians 150 = - (PI / 6) + PI.
Proof. unfold radians. field. Qed.

Lemma cos_150 : cos (radians 150) = - (sqrt 3 / 2).
Proof. now rewrite radians_150, neg_cos, cos_neg, cos_PI6. Qed.

Lemma sin_150 : sin (radians 150) = 1 / 2.
Proof. rewrite radians_150, neg_sin, sin_neg, sin_PI6. lra. Qed.

Lemma atan2_0_pos (x : R) : 0 < x -> atan2 0 x = 0.
Proof.
  intros Hx. unfold atan2. destruct (Rlt_dec 0 x); [|lra].
  replace (0 / x) with 0 by (field; lra). apply atan_0.
Qed.

Lemma atan2_0_neg (x : R) : x < 0 -> atan2 0 x = PI.
Proof.
  intros Hx. unfold atan2. destruct (Rlt_dec 0 x); [lra|].
  destruct (Rlt_dec x 0); [|lra]. destruct (Rle_dec 0 0); [|lra].
  replace (0 / x) with 0 by (field; lra). rewrite atan_0. ring.
Qed.

End Angles.

Section ArrowHead.

Lemma head_length_5 : Rmax 15 (5 * 4) = 20.
Proof. unfold Rmax. destruct (Rle_dec 15 (5 * 4)); lra. Qed.

Lemma head_length_pos (w : R) : 0 <= Rmax 15 (w * 4).
Proof. pose proof (Rmax_l 15 (w * 4)). lra. Qed.

Lemma sqrt_3_pos : 0 < sqrt 3.
Proof. apply sqrt_lt_R0. lra. Qed.

Lemma radians_30 : radians 30 = PI / 6.
Proof. unfold radians. field. Qed.

Lemma hypot_pos (x y : R) : x <> 0 \/ y <> 0 -> 0 < hypot x y.
Proof. intros H. unfold hypot. apply sqrt_lt_R0. destruct H; nra. Qed.

Lemma hypot_opp (x y : R) : hypot (- x) (- y) = hypot x y.
Proof. unfold hypot. f_equal. ring. Qed.

(** The direction of the opposite vector has the opposite cosine and
    sine. *)
Lemma atan2_opposite (y x : R) :
  x <> 0 \/ y <> 0 ->
  cos (atan2 (- y) (- x)) = - cos (atan2 y x) /\
  sin (atan2 (- y) (- x)) = - sin (atan2 y x).
Proof.
  intros H. pose proof (hypot_pos x y H) as Hh.
  destruct (atan2_direction y x) as [C S].
  destruct (atan2_direction (- y) (- x)) as [C' S'].
  rewrite hypot_opp in C', S'.
  split; apply (Rmult_eq_reg_l (hypot x y)); lra.
Qed.

Lemma points_differ (s e : QPointF) :
  s <> e -> px e - px s <> 0 \/ py e - py s <> 0.
Proof.
  intros Hne. destruct s as [sx sy], e as [ex ey]. simpl.
  destruct (Req_dec_T (ex - sx) 0) as [Hx|Hx]; [|now left].
  destruct (Req_dec_T (ey - sy) 0) as [Hy|Hy]; [|now right].
  exfalso. apply Hne. f_equal; lra.
Qed.

(** Rotating the direction by 150 degrees one way is rotating the
    opposite direction by 30 degrees the other way. *)
Lemma rotate_150_30 (theta rev : R) :
  cos rev = - cos theta -> sin rev = - sin theta ->
  (cos (theta + radians 150) = cos (rev - radians 30) /\
   sin (theta + radians 150) = sin (rev - radians 30)) /\
  (cos (theta - radians 150) = cos (rev + radians 30) /\
   sin (theta - radians 150) = sin (rev + radians 30)).
Proof.
  intros C S.
  rewrite cos_plus, sin_plus, !cos_minus, !sin_minus, cos_plus, sin_plus.
  rewrite cos_150, sin_150, radians_30, cos_PI6, sin_PI6, C, S.
  repeat split; lra.
Qed.

(** What [_paint_stroke] does with an arrow whose two points pass the
    truth test. *)
Lemma paint_arrow (st : Stroke) (s e : QPointF) :
  tool st = ARROW -> start_point st = Some s -> end_point st = Some e ->
  QPointF_bool s = true -> QPointF_bool e = true ->
  _paint_stroke st = _draw_arrow (width st) s e.
Proof.
  intros Ht Hs He Bs Be. unfold _paint_stroke.
  rewrite Hs, He. simpl. rewrite Bs, Be. simpl. now rewrite Ht.
Qed.

(** The settings under which the arrow of the example is drawn. *)
Lemma arrow_settings :
  exists c, run [SetTool ARROW; SetWidth 5] init = Some c /\
            current_tool c = ARROW /\ current_color c = 0x1a1a2e%Z /\
            current_width c = 5 /\ current_opacity c = 1 /\
            page c = Some (new_Page NONE).
Proof.
  eexists. split; [reflexivity|]. simpl. repeat split.
  unfold Rmax, Rmin. destruct (Rle_dec 80 5); [lra|]. destruct (Rle_dec 1 5); lra.
Qed.

End ArrowHead.

(** C8, as the code has it.  [_paint_stroke] hands an arrow to
    [_draw_arrow] when both of its points pass the truth test, that is
    when neither is the origin (0, 0); otherwise the stroke is not painted
    as an arrow.  The head length is [max(15, 4 w)].  With [theta] the
    direction of the line from start to end, the two back points lie at
    the angles [theta + 150] and [theta - 150] degrees from the end point,
    at the head length from it: the forward direction is rotated by 150
    degrees, which for distinct points is the reverse direction rotated
    by 30 degrees the other way.  From (100, 100) to (200, 100) with
    width 5 the length is 20, the direction 0, and the back points are
    (200 - 10 sqrt 3, 110) and (200 - 10 sqrt 3, 90). *)
Theorem arrow_head_geometry (st : Stroke) (s e : QPointF) :
  tool st = ARROW -> start_point st = Some s -> end_point st = Some e ->
  let w := width st in
  let dx := px e - px s in
  let dy := py e - py s in
  let theta := atan2 dy dx in
  let reverse := atan2 (py s - py e) (px s - px e) in
  let L := Rmax 15 (4 * w) in
  let at_angle a := mkQPointF (px e + L * cos a) (py e + L * sin a) in
  (QPointF_bool s = true -> QPointF_bool e = true ->
   _paint_stroke st =
     [DrawLine s e;
      DrawPolygon [e; at_angle (theta + radians 150); at_angle (theta - radians 150)]]) /\
  (QPointF_bool s = false \/ QPointF_bool e = false ->
   _paint_stroke st =
     if (length (points st) <? 2)%nat then [] else [DrawPath (pen_path (points st))]) /\
  (hypot dx dy * cos theta = dx /\ hypot dx dy * sin theta = dy) /\
  (forall a, hypot (px (at_angle a) - px e) (py (at_angle a) - py e) = L) /\
  (s <> e ->
   at_angle (theta + radians 150) = at_angle (reverse - radians 30) /\
   at_angle (theta - radians 150) = at_angle (reverse + radians 30)) /\
  (s = mkQPointF 100 100 -> e = mkQPointF 200 100 -> w = 5 ->
   L = 20 /\ theta = 0 /\
   _paint_stroke st =
     [DrawLine s e;
      DrawPolygon [e; mkQPointF (200 - 10 * sqrt 3) 110;
                      mkQPointF (200 - 10 * sqrt 3) 90]]).
Proof.
  intros Ht Hs He w dx dy theta reverse L at_angle.
  assert (EL : L = Rmax 15 (w * 4)) by (unfold L; now rewrite Rmult_comm).
  assert (Hpaint : QPointF_bool s = true -> QPointF_bool e = true ->
            _paint_stroke st =
              [DrawLine s e;
               DrawPolygon [e; at_angle (theta + radians 150);
                               at_angle (theta - radians 150)]]).
  { intros Bs Be. rewrite (paint_arrow st s e Ht Hs He Bs Be).
    unfold _draw_arrow, at_angle. fold w dx dy theta. rewrite <- EL. reflexivity. }
  split; [exact Hpaint|]. split; [|split; [|split; [|split]]].
  - intros Hb. unfold _paint_stroke. rewrite Hs, He. simpl.
    assert (Hand : QPointF_bool s && QPointF_bool e = false)
      by (destruct Hb as [-> | ->]; [reflexivity|apply andb_false_r]).
    rewrite Hand, Ht. reflexivity.
  - apply atan2_direction.
  - intros a. unfold at_angle. simpl.
    replace (px e + L * cos a - px e) with (L * cos a) by ring.
    replace (py e + L * sin a - py e) with (L * sin a) by ring.
    apply hypot_polar. rewrite EL. apply head_length_pos.
  - intros Hne. apply points_differ in Hne. fold dx dy in Hne.
    destruct (atan2_opposite dy dx Hne) as [C S].
    assert (Er : reverse = atan2 (- dy) (- dx)).
    { unfold reverse, dy, dx. f_equal; ring. }
    rewrite <- Er in C, S.
    destruct (rotate_150_30 theta reverse C S) as [[C1 S1] [C2 S2]].
    unfold at_angle. now rewrite C1, S1, C2, S2.
  - intros -> -> Hw.
    assert (E20 : L = 20).
    { rewrite EL, Hw. apply head_length_5. }
    assert (E0 : theta = 0).
    { unfold theta, dy, dx. simpl.
      replace (100 - 100) with 0 by ring. apply atan2_0_pos. lra. }
    split; [exact E20|]. split; [exact E0|].
    rewrite Hpaint by (apply QPointF_bool_true; simpl; lra).
    unfold at_angle. rewrite E0, E20. simpl.
    rewrite Rplus_0_l.
    replace (0 - radians 150) with (- radians 150) by ring.
    rewrite cos_neg, sin_neg, cos_150, sin_150.
    replace (200 + 20 * - (sqrt 3 / 2)) with (200 - 10 * sqrt 3) by lra.
    replace (100 + 20 * (1 / 2)) with 110 by lra.
    replace (100 + 20 * - (1 / 2)) with 90 by lra.
    reflexivity.
Qed.

Lemma arrow_head_geometry_witness :
  _paint_stroke (mkStroke [] 0x1a1a2e%Z 5 ARROW 1
                          (Some (mkQPointF 100 100)) (Some (mkQPointF 200 100)))
    = [DrawLine (mkQPointF 100 100) (mkQPointF 200 100);
       DrawPolygon [mkQPointF 200 100;
                    mkQPointF (200 - 10 * sqrt 3) 110;
                    mkQPointF (200 - 10 * sqrt 3) 90]].
Proof.
  apply (arrow_head_geometry
           (mkStroke [] 0x1a1a2e%Z 5 ARROW 1
                     (Some (mkQPointF 100 100)) (Some (mkQPointF 200 100)))
           (mkQPointF 100 100) (mkQPointF 200 100)
           eq_refl eq_refl eq_refl); reflexivity.
Defined.

(** C8 as stated fails on an arrow the canvas commits.  With the Arrow
    tool and width 5, the drag from (100, 100) to (200, 100) commits an
    arrow between these points.  Rotating the reverse direction (180
    degrees here) by 150 degrees puts both back points ahead of the tip,
    at x > 200, while the painter puts them behind it, at x < 200. *)
Lemma arrow_reverse_direction_fails :
  let a := mkQPoint 100 100 in
  let b := mkQPoint 200 100 in
  let st := shape_of ARROW 0x1a1a2e%Z 5 1 a b in
  strokes_after ([SetTool ARROW; SetWidth 5] ++ draw a b) init = Some [st] /\
  length (painted_back_points st) = 2%nat /\
  Forall (fun p => px p < 200) (painted_back_points st) /\
  Forall (fun q => 200 < px q) (spec_back_points 5 (QPointF_of a) (QPointF_of b)) /\
  painted_back_points st <> spec_back_points 5 (QPointF_of a) (QPointF_of b).
Proof.
  intros a b st.
  pose proof sqrt_3_pos as H3.
  assert (Ba : QPointF_bool (QPointF_of a) = true) by (apply QPointF_of_nonzero; lia).
  assert (Bb : QPointF_bool (QPointF_of b) = true) by (apply QPointF_of_nonzero; lia).
  assert (Hrun : strokes_after ([SetTool ARROW; SetWidth 5] ++ draw a b) init = Some [st]).
  { destruct arrow_settings as (c & R1 & T & C & W & O & P).
    assert (Ht : is_shape_tool (current_tool c) = true) by now rewrite T.
    destruct (view_draw_shape c _ a b Ht P Ba Bb) as (c' & R2 & V).
    apply view_inv in V as (_ & _ & _ & _ & _ & P').
    rewrite T, C, W, O in P'.
    exact (strokes_after_end _ _ _ _ (run_app_Some _ _ _ _ _ R1 R2) P'). }
  assert (Hback : painted_back_points st =
            [ mkQPointF (200 + 20 * cos (0 + radians 150))
                        (100 + 20 * sin (0 + radians 150));
              mkQPointF (200 + 20 * cos (0 - radians 150))
                        (100 + 20 * sin (0 - radians 150)) ]).
  { unfold painted_back_points.
    rewrite (paint_arrow st (QPointF_of a) (QPointF_of b) eq_refl eq_refl eq_refl Ba Bb).
    unfold _draw_arrow. simpl. rewrite head_length_5.
    replace (100 - 100) with 0 by ring. replace (200 - 100) with 100 by ring.
    now rewrite atan2_0_pos by lra. }
  assert (Hspec : spec_back_points 5 (QPointF_of a) (QPointF_of b) =
            [ mkQPointF (200 + 20 * cos (PI + radians 150))
                        (100 + 20 * sin (PI + radians 150));
              mkQPointF (200 + 20 * cos (PI - radians 150))
                        (100 + 20 * sin (PI - radians 150)) ]).
  { unfold spec_back_points. simpl.
    replace (4 * 5) with (5 * 4) by ring. rewrite head_length_5.
    replace (100 - 100) with 0 by ring. replace (100 - 200) with (- 100) by ring.
    now rewrite atan2_0_neg by lra. }
  assert (Hcode : Forall (fun p => px p < 200) (painted_back_points st)).
  { rewrite Hback. repeat constructor; simpl.
    - rewrite Rplus_0_l, cos_150. lra.
    - replace (0 - radians 150) with (- radians 150) by ring.
      rewrite cos_neg, cos_150. lra. }
  assert (Hwords : Forall (fun q => 200 < px q)
                          (spec_back_points 5 (QPointF_of a) (QPointF_of b))).
  { rewrite Hspec. repeat constructor; simpl.
    - replace (PI + radians 150) with (radians 150 + PI) by ring.
      rewrite neg_cos, cos_150. lra.
    - replace (PI - radians 150) with (- radians 150 + PI) by ring.
      rewrite neg_cos, cos_neg, cos_150. lra. }
  split; [exact Hrun|]. split; [now rewrite Hback|].
  split; [exact Hcode|]. split; [exact Hwords|].
  intros E. rewrite E in Hcode. rewrite Hspec in Hcode, Hwords.
  apply Forall_inv in Hcode, Hwords. simpl in Hcode, Hwords. lra.
Qed.

(** * Further properties of the canvas *)

Section History.

Lemma on_page_compose (f g : Page -> Page) (c : DrawingCanvas) :
  on_page f c ≫= on_page g = on_page (fun p => g (f p)) c.
Proof.
  unfold on_page, page. destruct (pages c !! current_page_idx c) as [p|] eqn:E; [|easy].
  simpl. rewrite list_lookup_insert_eq by (now apply lookup_lt_Some in E). simpl.
  now rewrite list_insert_insert_eq.
Qed.

Lemma redo_undo_page (p : Page) : strokes p <> [] -> redo_page (undo_page p) = p.
Proof.
  intros Hne. destruct (strokes p) as [|s l _] eqn:E using rev_ind; [easy|].
  rewrite (undo_page_snoc p l s E).
  erewrite redo_page_snoc; [|reflexivity]. simpl.
  rewrite length_app. simpl.
  destruct (Nat.ltb_spec (length l) (length l + 1)) as [_|H]; [|lia].
  destruct p; simpl in *. now rewrite E.
Qed.

Lemma redo_clear_page (p : Page) : strokes p <> [] -> redo_page (clear_page_page p) = p.
Proof.
  intros Hne. unfold clear_page_page.
  destruct (strokes p) as [|s l] eqn:E; [easy|].
  erewrite redo_page_snoc; [|reflexivity]. simpl.
  destruct p; simpl in *. now rewrite E.
Qed.

End History.

(** X1. On a page with at least one stroke, an undo followed at once by a
    redo gives back the canvas as it was: the stroke list and the undo
    history are those from before the undo. *)
Theorem undo_then_redo_restores (c : DrawingCanvas) (p : Page) :
  page c = Some p -> strokes p <> [] -> undo c ≫= redo = Some c.
Proof.
  intros Hp Hne. unfold undo, redo. rewrite on_page_compose.
  apply (on_page_id _ c p Hp). now apply redo_undo_page.
Qed.

Lemma undo_then_redo_restores_witness :
  let A := mkStroke [mkQPointF 1 1; mkQPointF 2 2] 0%Z 3 PEN 1 None None in
  let c := with_pages [mkPage [A] [] NONE [[A; A]] []] init in
  undo c ≫= redo = Some c.
Proof.
  intros A c.
  apply (undo_then_redo_restores c (mkPage [A] [] NONE [[A; A]] []) eq_refl).
  discriminate.
Defined.

(** X2. Clearing a page that holds strokes and then redoing brings the
    strokes and the history back; clearing an empty page changes nothing,
    in particular it pushes no snapshot. *)
Theorem clear_then_redo_restores (c : DrawingCanvas) (p : Page) :
  page c = Some p ->
  (strokes p <> [] ->
     (exists c1, clear_page c = Some c1 /\ active_strokes c1 = Some []) /\
     clear_page c ≫= redo = Some c) /\
  (strokes p = [] -> clear_page c = Some c).
Proof.
  intros Hp. split.
  - intros Hne. split.
    + destruct (run_on_page clear_page_page c p Hp) as (c1 & R & P & _).
      exists c1. split; [exact R|]. unfold active_strokes. rewrite P. simpl.
      unfold clear_page_page. now destruct (strokes p).
    + unfold clear_page, redo. rewrite on_page_compose.
      apply (on_page_id _ c p Hp). now apply redo_clear_page.
  - intros E. apply (on_page_id _ c p Hp). unfold clear_page_page. now rewrite E.
Qed.

Lemma clear_then_redo_restores_witness :
  let A := mkStroke [mkQPointF 1 1; mkQPointF 2 2] 0%Z 3 PEN 1 None None in
  let c := with_pages [mkPage [A; A] [] NONE [] []] init in
  clear_page c ≫= redo = Some c.
Proof.
  intros A c.
  destruct (clear_then_redo_restores c (mkPage [A; A] [] NONE [] []) eq_refl) as [H _].
  apply H. discriminate.
Defined.

Section Pages.

Lemma with_idx_same (c : DrawingCanvas) : with_idx (current_page_idx c) c = c.
Proof. now destruct c. Qed.

Lemma list_insert_at_lookup_lt {A} (l : list A) (x : A) (n i : nat) :
  (n <= length l)%nat -> (i < n)%nat -> list_insert_at n x l !! i = l !! i.
Proof.
  intros Hn Hi. unfold list_insert_at.
  rewrite lookup_app_l by (rewrite length_take; lia).
  now apply lookup_take_lt.
Qed.

Lemma list_insert_at_lookup_eq {A} (l : list A) (x : A) (n : nat) :
  (n <= length l)%nat -> list_insert_at n x l !! n = Some x.
Proof.
  intros Hn. unfold list_insert_at.
  rewrite lookup_app_r by (rewrite length_take; lia).
  rewrite length_take_le by lia. now rewrite Nat.sub_diag.
Qed.

Lemma list_insert_at_lookup_gt {A} (l : list A) (x : A) (n i : nat) :
  (n <= length l)%nat -> (n <= i)%nat -> list_insert_at n x l !! S i = l !! i.
Proof.
  intros Hn Hi. unfold list_insert_at.
  rewrite lookup_app_r by (rewrite length_take; lia).
  rewrite length_take_le by lia.
  replace (S i - n)%nat with (S (i - n)) by lia. simpl.
  rewrite lookup_drop. f_equal. lia.
Qed.

Lemma list_insert_at_length {A} (l : list A) (x : A) (n : nat) :
  length (list_insert_at n x l) = S (length l).
Proof.
  unfold list_insert_at. rewrite length_app, length_take. simpl.
  rewrite length_drop. lia.
Qed.

End Pages.

(** X3. [add_page] puts one new page right after the current one and makes
    it current: the page count grows by one, the new page has no strokes,
    no images and no history and the background of the page it was added
    from, the pages up to the old current one keep their index, the later
    ones move up by one, and [prev_page] leads back to the old page. *)
Theorem add_page_inserts_after_current (c : DrawingCanvas) (p : Page) :
  page c = Some p ->
  exists c',
    add_page c = Some c' /\
    length (pages c') = S (length (pages c)) /\
    current_page_idx c' = S (current_page_idx c) /\
    page c' = Some (mkPage [] [] (background p) [] []) /\
    (forall i, (i <= current_page_idx c)%nat -> pages c' !! i = pages c !! i) /\
    (forall i, (current_page_idx c < i)%nat -> pages c' !! S i = pages c !! i) /\
    current_page_idx (prev_page c') = current_page_idx c /\
    page (prev_page c') = Some p.
Proof.
  intros Hp. unfold add_page. rewrite Hp. simpl.
  eexists. split; [reflexivity|].
  assert (Hlt : (S (current_page_idx c) <= length (pages c))%nat)
    by (unfold page in Hp; apply lookup_lt_Some in Hp; lia).
  assert (Hkeep : forall i, (i <= current_page_idx c)%nat ->
            list_insert_at (S (current_page_idx c))
              (new_Page (background p)) (pages c) !! i = pages c !! i)
    by (intros i Hi; apply list_insert_at_lookup_lt; lia).
  split; [apply list_insert_at_length|]. split; [reflexivity|].
  split; [unfold page; simpl; now apply list_insert_at_lookup_eq|].
  split; [exact Hkeep|].
  split; [intros i Hi; simpl; apply list_insert_at_lookup_gt; lia|].
  unfold prev_page, page. simpl. rewrite Nat.sub_0_r. split; [reflexivity|].
  rewrite Hkeep by lia. exact Hp.
Qed.

Lemma add_page_inserts_after_current_witness :
  exists c', add_page init = Some c' /\ length (pages c') = 2%nat /\
             current_page_idx c' = 1%nat /\ page (prev_page c') = Some (new_Page NONE).
Proof.
  destruct (add_page_inserts_after_current init (new_Page NONE) eq_refl)
    as (c' & H1 & H2 & H3 & _ & _ & _ & _ & H8).
  exists c'. repeat split; assumption.
Defined.

(** X4. Page navigation clamps at both ends and is reversible in between:
    [prev_page] on the first page and [next_page] on the last page change
    nothing; where a next page exists, [next_page] then [prev_page] is the
    identity, and where a previous page exists, so is [prev_page] then
    [next_page].  Neither ever touches the pages themselves. *)
Theorem page_navigation_round_trip (c : DrawingCanvas) :
  (current_page_idx c < length (pages c))%nat ->
  (current_page_idx c = 0%nat -> prev_page c = c) /\
  (S (current_page_idx c) = length (pages c) -> next_page c = c) /\
  ((S (current_page_idx c) < length (pages c))%nat -> prev_page (next_page c) = c) /\
  ((0 < current_page_idx c)%nat -> next_page (prev_page c) = c) /\
  pages (prev_page c) = pages c /\ pages (next_page c) = pages c /\
  (current_page_idx (prev_page c) < length (pages c))%nat /\
  (current_page_idx (next_page c) < length (pages c))%nat.
Proof.
  intros Hi. unfold prev_page, next_page.
  repeat split.
  - intros ->. reflexivity.
  - intros E. destruct (Nat.ltb_spec (current_page_idx c) (length (pages c) - 1));
      [lia|reflexivity].
  - intros H. destruct (Nat.ltb_spec (current_page_idx c) (length (pages c) - 1));
      [|lia]. simpl.
    destruct (Nat.ltb_spec 0 (current_page_idx c + 1)); [|lia].
    replace (current_page_idx c + 1 - 1)%nat with (current_page_idx c) by lia.
    now destruct c.
  - intros H. destruct (Nat.ltb_spec 0 (current_page_idx c)); [|lia]. simpl.
    destruct (Nat.ltb_spec (current_page_idx c - 1) (length (pages c) - 1)); [|lia].
    replace (current_page_idx c - 1 + 1)%nat with (current_page_idx c) by lia.
    now destruct c.
  - now destruct (_ <? _)%nat.
  - now destruct (_ <? _)%nat.
  - destruct (Nat.ltb_spec 0 (current_page_idx c)); simpl; lia.
  - destruct (Nat.ltb_spec (current_page_idx c) (length (pages c) - 1)); simpl; lia.
Qed.

Lemma page_navigation_round_trip_witness :
  let c := with_pages [new_Page NONE; new_Page WHITE; new_Page GRID] (with_idx 1 init) in
  prev_page (next_page c) = c /\ next_page (prev_page c) = c.
Proof.
  intros c.
  assert (H : (current_page_idx c < length (pages c))%nat) by (simpl; lia).
  destruct (page_navigation_round_trip c H) as (_ & _ & H3 & H4 & _).
  split; [apply H3|apply H4]; simpl; lia.
Defined.

Section Isolation.

Lemma same_pages_only_active (c c' : DrawingCanvas) :
  pages c' = pages c -> only_active c c'.
Proof.
  intros E. unfold only_active. rewrite E.
  destruct (pages c !! current_page_idx c) as [p|] eqn:Hp.
  - exists p. now rewrite list_insert_id.
  - exists (new_Page NONE). rewrite list_insert_ge; [easy|].
    now apply lookup_ge_None.
Qed.

Lemma on_page_only_active (f : Page -> Page) (c c' : DrawingCanvas) :
  on_page f c = Some c' -> only_active c c'.
Proof.
  unfold on_page. destruct (page c) as [p|]; [|easy]. simpl.
  intros [= <-]. now exists (f p).
Qed.

Lemma step_only_active (cmd : Command) (c c' : DrawingCanvas) :
  cmd <> AddPage -> step cmd c = Some c' -> only_active c c'.
Proof.
  intros Hcmd. destruct cmd; simpl; try easy;
    try (intros [= <-]; now apply same_pages_only_active);
    try (now apply on_page_only_active).
  - (* set_tool *)
    unfold set_tool. destruct (ToolType_eqb t ERASER); [destruct (page c)|]; simpl;
      try easy; intros [= <-]; now apply same_pages_only_active.
  - (* prev_page *)
    unfold prev_page. intros [= <-]. apply same_pages_only_active.
    now destruct (_ <? _)%nat.
  - (* next_page *)
    unfold next_page. intros [= <-]. apply same_pages_only_active.
    now destruct (_ <? _)%nat.
  - (* mousePressEvent *)
    unfold mousePressEvent.
    destruct (negb _); [intros [= <-]; now apply same_pages_only_active|].
    destruct (ToolType_eqb _ CURSOR); [intros [= <-]; now apply same_pages_only_active|].
    destruct (is_shape_tool _); [intros [= <-]; now apply same_pages_only_active|].
    destruct (ToolType_eqb _ ERASER); [|intros [= <-]; now apply same_pages_only_active].
    unfold _erase_at.
    destruct (on_page _ c) as [c1|] eqn:E; [|easy]. simpl. intros [= <-].
    apply on_page_only_active in E. exact E.
  - (* mouseMoveEvent *)
    unfold mouseMoveEvent.
    destruct (negb _); [intros [= <-]; now apply same_pages_only_active|].
    destruct (is_shape_tool _); [intros [= <-]; now apply same_pages_only_active|].
    destruct (ToolType_eqb _ ERASER); [apply on_page_only_active|].
    destruct (current_stroke c) as [s|]; [|intros [= <-]; now apply same_pages_only_active].
    destruct (last (points s)); [|easy]. simpl.
    intros [= <-]. now apply same_pages_only_active.
  - (* mouseReleaseEvent *)
    unfold mouseReleaseEvent.
    destruct (negb _); [intros [= <-]; now apply same_pages_only_active|].
    destruct (negb _); [intros [= <-]; now apply same_pages_only_active|].
    destruct (page _) as [p|]; [|easy]. simpl.
    destruct (is_shape_tool _).
    + destruct (both_points _ _); intros [= <-];
        [eexists; reflexivity|now apply same_pages_only_active].
    + destruct (current_stroke _) as [s|];
        [destruct (_ <? _)%nat|]; intros [= <-];
        try (now apply same_pages_only_active); eexists; reflexivity.
  - (* keyPressEvent *)
    unfold keyPressEvent, undo, redo, clear_page.
    repeat match goal with
           | |- (if ?b then _ else _) = _ -> _ => destruct b
           end;
      try (now apply on_page_only_active);
      try destruct (DEFAULT_COLORS !! _);
      intros [= <-]; now apply same_pages_only_active.
Qed.

End Isolation.

(** X5. Pages are isolated: whatever command is run, except [add_page],
    the number of pages stays the same and every page other than the
    active one is left exactly as it was. *)
Theorem other_pages_untouched (cmd : Command) (c c' : DrawingCanvas) (i : nat) :
  step cmd c = Some c' -> cmd <> AddPage -> i <> current_page_idx c ->
  pages c' !! i = pages c !! i /\ length (pages c') = length (pages c).
Proof.
  intros Hstep Hcmd Hi.
  destruct (step_only_active cmd c c' Hcmd Hstep) as [q ->].
  split; [now apply list_lookup_insert_ne|apply length_insert].
Qed.

Lemma other_pages_untouched_witness :
  let c := with_pages [new_Page NONE; new_Page WHITE] init in
  exists c', step Undo c = Some c' /\
             pages c' !! 1%nat = pages c !! 1%nat /\
             length (pages c') = length (pages c).
Proof.
  intros c. eexists. split; [reflexivity|].
  apply (other_pages_untouched Undo c); [reflexivity|discriminate|simpl; lia].
Defined.

Section EraserAlgebra.
Variable pos : QPointF.

Lemma filter_all_true (f : Stroke -> bool) (l : list Stroke) :
  Forall (fun s => f s = true) (List.filter f l).
Proof.
  induction l as [|s l IH]; simpl; [constructor|].
  destruct (f s) eqn:E; [now constructor|exact IH].
Qed.

Lemma filter_filter_implied (f g : Stroke -> bool) (l : list Stroke) :
  (forall s, g s = true -> f s = true) ->
  List.filter g (List.filter f l) = List.filter g l.
Proof.
  intros H. induction l as [|s l IH]; simpl; [easy|].
  destruct (f s) eqn:Ef; simpl.
  - now rewrite IH.
  - destruct (g s) eqn:Eg; [|exact IH].
    apply H in Eg. congruence.
Qed.

(** A stroke that stays under a radius stays under every smaller one. *)
Lemma stays_smaller_radius (r r' : R) (s : Stroke) :
  r <= r' -> stays pos r' s = true -> stays pos r s = true.
Proof.
  intros Hr. unfold stays, freehand_hit.
  destruct (both_points _ _) as [[sp ep]|].
  - rewrite !Rgtb_true. lra.
  - rewrite !negb_true_iff. intros H.
    induction (points s) as [|pt l IH]; simpl in *; [easy|].
    apply orb_false_iff in H as [H1 H2]. rewrite (IH H2), orb_false_r.
    apply Rltb_false in H1. apply Rltb_false. lra.
Qed.

End EraserAlgebra.

(** X6. Erasing is idempotent: a second erase query at the same point,
    with the same radius, removes nothing more and records nothing, so it
    leaves the page, and the canvas, as the first one left it. *)
Theorem erase_twice_is_erase_once (pos : QPointF) (r : R) (p : Page)
        (c : DrawingCanvas) :
  erase_page pos r (erase_page pos r p) = erase_page pos r p /\
  (_erase_at pos c ≫= _erase_at pos) = _erase_at pos c.
Proof.
  assert (H : forall r q, erase_page pos r (erase_page pos r q) = erase_page pos r q).
  { intros r0 q. apply erase_page_no_hit. rewrite erase_page_strokes.
    apply filter_all_true. }
  split; [apply H|].
  unfold _erase_at, on_page, page.
  destruct (pages c !! current_page_idx c) as [q|] eqn:E; [|easy]. simpl.
  rewrite list_lookup_insert_eq by (now apply lookup_lt_Some in E). simpl.
  now rewrite list_insert_insert_eq, H.
Qed.

(** X7. A larger eraser removes at least what a smaller one removes at the
    same point: for [r <= r'], erasing with [r] and then with [r'] leaves
    the same strokes as erasing with [r'] alone, and every stroke that
    survives [r'] survives [r]. *)
Theorem larger_eraser_removes_more (pos : QPointF) (r r' : R) (p : Page) :
  r <= r' ->
  strokes (erase_page pos r' (erase_page pos r p)) = strokes (erase_page pos r' p) /\
  (forall s, In s (strokes (erase_page pos r' p)) -> In s (strokes (erase_page pos r p))).
Proof.
  intros Hr. rewrite !erase_page_strokes. split.
  - apply filter_filter_implied. intros s. now apply stays_smaller_radius.
  - intros s Hs. apply filter_In in Hs as [Hin Hs]. apply filter_In.
    split; [exact Hin|]. now apply (stays_smaller_radius pos r r').
Qed.

Lemma larger_eraser_removes_more_witness :
  let A := mkStroke [mkQPointF 1 1; mkQPointF 2 2] 0%Z 3 PEN 1 None None in
  let p := mkPage [A] [] NONE [] [] in
  strokes (erase_page (mkQPointF 0 0) 25 (erase_page (mkQPointF 0 0) 3 p))
    = strokes (erase_page (mkQPointF 0 0) 25 p).
Proof.
  intros A p.
  apply (larger_eraser_removes_more (mkQPointF 0 0) 3 25 p). lra.
Defined.

Section Ranges.

Lemma clamp_in_range (w : R) : 1 <= Rmax 1 (Rmin 80 w) <= 80.
Proof.
  unfold Rmax, Rmin. destruct (Rle_dec 80 w); destruct (Rle_dec 1 _); lra.
Qed.

Lemma default_in_range (t : ToolType) : in_range (default_width t) (default_opacity t).
Proof. unfold in_range. destruct t; simpl; lra. Qed.

Lemma commit_in_range (s : Stroke) (p : Page) :
  stroke_in_range s -> page_in_range p -> page_in_range (commit s p).
Proof.
  intros Hs (H1 & H2). split; simpl; [|easy].
  apply Forall_app. split; [easy|now constructor].
Qed.

Lemma undo_page_in_range (p : Page) : page_in_range p -> page_in_range (undo_page p).
Proof.
  intros (H1 & H2). unfold undo_page.
  destruct (strokes p) as [|s l] eqn:E; [now rewrite <- E in H1|].
  split; simpl; [|apply Forall_app; split; [easy|now constructor]].
  change (Forall stroke_in_range (removelast (s :: l))). now apply Forall_removelast.
Qed.

Lemma redo_page_in_range (p : Page) : page_in_range p -> page_in_range (redo_page p).
Proof.
  intros (H1 & H2). unfold redo_page.
  destruct (pop (undo_stack p)) as [[rest st]|] eqn:E; [|easy].
  apply pop_Some in E. rewrite E in H2. apply Forall_app in H2 as [Hr Hs].
  apply Forall_inv in Hs. now destruct (_ <? _)%nat.
Qed.

Lemma clear_page_in_range (p : Page) :
  page_in_range p -> page_in_range (clear_page_page p).
Proof.
  intros (H1 & H2). unfold clear_page_page.
  destruct (strokes p) as [|s l] eqn:E; [now rewrite <- E in H1|].
  split; simpl; [constructor|]. apply Forall_app; split; [easy|now constructor].
Qed.

Lemma erase_page_in_range (pos : QPointF) (r : R) (p : Page) :
  page_in_range p -> page_in_range (erase_page pos r p).
Proof.
  intros (H1 & H2). unfold erase_page. rewrite remaining_of_filter.
  destruct (_ <? _)%nat; [|easy].
  split; simpl; [now apply Forall_list_filter|].
  apply Forall_app; split; [easy|now constructor].
Qed.

Lemma in_range_fields (c c' : DrawingCanvas) :
  current_width c' = current_width c -> current_opacity c' = current_opacity c ->
  current_stroke c' = current_stroke c -> pages c' = pages c ->
  canvas_in_range c -> canvas_in_range c'.
Proof. unfold canvas_in_range. now intros -> -> -> ->. Qed.

Lemma on_page_in_range (f : Page -> Page) (c c' : DrawingCanvas) :
  (forall p, page_in_range p -> page_in_range (f p)) ->
  on_page f c = Some c' -> canvas_in_range c -> canvas_in_range c'.
Proof.
  intros Hf. unfold on_page. destruct (page c) as [p|] eqn:Hp; [|easy]. simpl.
  intros [= <-] (H1 & H2 & H3). split; [exact H1|]. split; [exact H2|]. simpl.
  apply Forall_insert; [exact H3|]. apply Hf.
  unfold page in Hp. now apply (Forall_lookup_1 _ _ _ _ H3 Hp).
Qed.

Lemma set_width_in_range (w : R) (c : DrawingCanvas) :
  canvas_in_range c -> canvas_in_range (set_width w c).
Proof.
  intros ((_ & Ho) & H2 & H3). split; [|now split].
  split; [apply clamp_in_range|exact Ho].
Qed.

Lemma step_in_range (cmd : Command) (c c' : DrawingCanvas) :
  step cmd c = Some c' -> canvas_in_range c -> canvas_in_range c'.
Proof.
  destruct cmd; simpl;
    try (intros [= <-]; now apply in_range_fields);
    try (intros [= <-]; now apply set_width_in_range).
  - (* set_tool *)
    unfold set_tool. destruct (ToolType_eqb t ERASER); [destruct (page c)|]; simpl;
      try easy; intros [= <-] (_ & H2 & H3);
      (split; [apply default_in_range|now split]).
  - (* set_background *)
    apply on_page_in_range. now intros p (? & ?).
  - (* add_page *)
    unfold add_page. destruct (page c) as [p|]; [|easy]. simpl.
    intros [= <-] (H1 & H2 & H3). split; [exact H1|]. split; [exact H2|]. simpl.
    unfold list_insert_at. apply Forall_app. split; [now apply Forall_take|].
    constructor; [split; constructor|now apply Forall_drop].
  - (* prev_page *)
    unfold prev_page. intros [= <-]. destruct (_ <? _)%nat; [|easy].
    now apply in_range_fields.
  - (* next_page *)
    unfold next_page. intros [= <-]. destruct (_ <? _)%nat; [|easy].
    now apply in_range_fields.
  - apply on_page_in_range, undo_page_in_range.
  - apply on_page_in_range, redo_page_in_range.
  - apply on_page_in_range, clear_page_in_range.
  - (* mousePressEvent *)
    unfold mousePressEvent.
    destruct (negb _); [now intros [= <-]|].
    destruct (ToolType_eqb _ CURSOR); [now intros [= <-]|].
    destruct (is_shape_tool _); [intros [= <-]; now apply in_range_fields|].
    destruct (ToolType_eqb _ ERASER).
    + unfold _erase_at. destruct (on_page _ c) as [c1|] eqn:E; [|easy]. simpl.
      intros [= <-] Hc. apply (in_range_fields c1); try reflexivity.
      revert E Hc. apply on_page_in_range, erase_page_in_range.
    + intros [= <-] (H1 & H2 & H3). split; [exact H1|]. split; [|exact H3].
      simpl. now intros s [= <-].
  - (* mouseMoveEvent *)
    unfold mouseMoveEvent.
    destruct (negb _); [now intros [= <-]|].
    destruct (is_shape_tool _); [intros [= <-]; now apply in_range_fields|].
    destruct (ToolType_eqb _ ERASER);
      [apply on_page_in_range, erase_page_in_range|].
    destruct (current_stroke c) as [s|] eqn:Es; [|now intros [= <-]].
    destruct (last (points s)); [|easy]. simpl.
    intros [= <-] (H1 & H2 & H3). split; [exact H1|]. split; [|exact H3].
    simpl. intros s' [= <-]. exact (H2 s Es).
  - (* mouseReleaseEvent *)
    unfold mouseReleaseEvent.
    destruct (negb _); [now intros [= <-]|].
    destruct (negb _); [now intros [= <-]|].
    destruct (page _) as [p|] eqn:Hp; [|easy]. simpl.
    intros Hst (H1 & H2 & H3).
    assert (Hpr : page_in_range p)
      by (unfold page in Hp; now apply (Forall_lookup_1 _ _ _ _ H3 Hp)).
    destruct (is_shape_tool _).
    + destruct (both_points _ _); injection Hst as <-;
        (split; [exact H1|]); (split; [exact H2|]); simpl; [|exact H3].
      apply Forall_insert; [exact H3|]. now apply commit_in_range.
    + destruct (current_stroke c) as [s|] eqn:Es.
      * destruct (_ <? _)%nat; injection Hst as <-;
          (split; [exact H1|]); (split; [easy|]); simpl; [|exact H3].
        apply Forall_insert; [exact H3|]. apply commit_in_range; [|exact Hpr].
        exact (H2 s eq_refl).
      * injection Hst as <-. split; [exact H1|]. split; [easy|exact H3].
  - (* keyPressEvent *)
    unfold keyPressEvent, undo, redo, clear_page.
    repeat match goal with
           | |- (if ?b then _ else _) = _ -> _ => destruct b
           end;
      try (apply on_page_in_range;
           first [apply undo_page_in_range|apply redo_page_in_range
                 |apply clear_page_in_range]);
      try destruct (DEFAULT_COLORS !! _);
      try (intros [= <-]; now apply in_range_fields);
      try (intros [= <-]; now apply set_width_in_range).
Qed.

Lemma init_in_range : canvas_in_range init.
Proof.
  split; [split; simpl; lra|]. split; [easy|].
  constructor; [split; constructor|constructor].
Qed.

Lemma run_in_range (cmds : list Command) (c c' : DrawingCanvas) :
  run cmds c = Some c' -> canvas_in_range c -> canvas_in_range c'.
Proof.
  revert c. induction cmds as [|cmd rest IH]; intros c; simpl.
  - now intros [= <-].
  - destruct (step cmd c) as [c1|] eqn:E; [|easy]. simpl.
    intros Hr Hc. apply (IH c1 Hr). now apply (step_in_range cmd c).
Qed.

End Ranges.

(** X8. Whatever commands are run on a fresh canvas, the current width
    stays within [1, 80] and the current opacity within (0, 1], and so do
    the width and opacity of every stroke: those on the pages, those kept
    in the undo history and the one under construction. *)
Theorem widths_and_opacities_stay_in_range (cmds : list Command) :
  exists c, run cmds init = Some c /\
            1 <= current_width c <= 80 /\ 0 < current_opacity c <= 1 /\
            (forall p s, In p (pages c) -> In s (strokes p) ->
                         1 <= width s <= 80 /\ 0 < opacity s <= 1) /\
            (forall p l s, In p (pages c) -> In l (undo_stack p) -> In s l ->
                           1 <= width s <= 80 /\ 0 < opacity s <= 1) /\
            (forall s, current_stroke c = Some s ->
                       1 <= width s <= 80 /\ 0 < opacity s <= 1).
Proof.
  destruct (run_ok cmds init init_ok) as (c & R & _).
  exists c. split; [exact R|].
  destruct (run_in_range cmds init c R init_in_range) as ((Hw & Ho) & Hs & Hp).
  split; [exact Hw|]. split; [exact Ho|].
  rewrite Forall_forall in Hp.
  split; [|split].
  - intros p s Hin Hsin. apply list_elem_of_In in Hin, Hsin.
    destruct (Hp p Hin) as (H1 & _). rewrite Forall_forall in H1.
    exact (H1 s Hsin).
  - intros p l s Hin Hl Hsin. apply list_elem_of_In in Hin, Hl, Hsin.
    destruct (Hp p Hin) as (_ & H2). rewrite Forall_forall in H2.
    specialize (H2 l Hl). rewrite Forall_forall in H2. exact (H2 s Hsin).
  - intros s E. exact (Hs s E).
Qed.

Section SmoothingBox.
Variables lo hi : QPointF.

Lemma smoothed_in_box (lp : QPointF) (raw : QPoint) :
  in_box lo hi lp -> in_box lo hi (QPointF_of raw) ->
  in_box lo hi (smoothed lp raw).
Proof.
  unfold in_box, smoothed, SMOOTHING_FACTOR. simpl. intros H1 H2. lra.
Qed.

Lemma moves_in_box (bs : list QPoint) :
  forall (c : DrawingCanvas) (s : Stroke),
    drawing c = true -> is_freehand_tool (current_tool c) = true ->
    current_stroke c = Some s -> points s <> [] ->
    Forall (in_box lo hi) (points s) ->
    Forall (fun q => in_box lo hi (QPointF_of q)) bs ->
    exists c' s',
      run (map MouseMove bs) c = Some c' /\ current_stroke c' = Some s' /\
      length (points s') = (length (points s) + length bs)%nat /\
      head (points s') = head (points s) /\
      Forall (in_box lo hi) (points s') /\
      pages c' = pages c.
Proof.
  induction bs as [|b bs IH]; intros c s Hd Ht Hs Hne Hbox Hbs.
  - exists c, s. simpl. repeat split; try easy; lia.
  - pose proof (freehand_not_shape _ Ht) as (H1 & H2 & _).
    destruct (last (points s)) as [lp|] eqn:Hl; [|now apply last_None in Hl].
    assert (Hlp : in_box lo hi lp).
    { rewrite Forall_forall in Hbox. apply Hbox.
      apply last_Some in Hl as [l' ->]. apply elem_of_app. right. now left. }
    apply Forall_cons in Hbs as [Hb Hbs].
    destruct (IH (with_stroke (Some (append_point (smoothed lp b) s)) c)
                 (append_point (smoothed lp b) s))
      as (c' & s' & R & S' & L' & Hh & B' & P'); try easy.
    { simpl. now destruct (points s). }
    { simpl. apply Forall_app. split; [exact Hbox|].
      constructor; [now apply smoothed_in_box|constructor]. }
    exists c', s'. simpl.
    rewrite (move_freehand c s lp b Hd H1 H2 Hs Hl). simpl.
    split; [exact R|]. split; [exact S'|].
    split; [rewrite L'; simpl; rewrite length_app; simpl; lia|].
    split; [rewrite Hh; simpl; now destruct (points s)|].
    split; [exact B'|exact P'].
Qed.

End SmoothingBox.

(** X9. A freehand stroke under construction never leaves the bounding box
    of the pointer positions: after a press at [a] and moves at [bs], the
    stroke has one point per event, starts at [a], and every one of its
    points lies in any axis-aligned box that holds [a] and all of [bs].
    Nothing is committed before the release. *)
Theorem freehand_stroke_stays_in_pointer_box (c : DrawingCanvas) (a : QPoint)
        (bs : list QPoint) (lo hi : QPointF) :
  is_freehand_tool (current_tool c) = true ->
  Forall (fun q => in_box lo hi (QPointF_of q)) (a :: bs) ->
  exists c' s,
    run (MousePress LeftButton a :: map MouseMove bs) c = Some c' /\
    current_stroke c' = Some s /\
    length (points s) = S (length bs) /\
    head (points s) = Some (QPointF_of a) /\
    Forall (in_box lo hi) (points s) /\
    pages c' = pages c.
Proof.
  intros Ht Hall. apply Forall_cons in Hall as [Ha Hbs].
  cbn [run]. unfold step at 1. rewrite (press_freehand c a Ht). simpl.
  set (s0 := mkStroke [QPointF_of a] (current_color c) (current_width c)
                      (current_tool c) (current_opacity c) None None).
  assert (Hne : points s0 <> []) by discriminate.
  assert (Hbox : Forall (in_box lo hi) (points s0))
    by (constructor; [exact Ha|constructor]).
  destruct (moves_in_box lo hi bs (with_stroke (Some s0) (with_drawing true c)) s0
              eq_refl Ht eq_refl Hne Hbox Hbs)
    as (c' & s' & R & S' & L' & Hh & B' & P').
  exists c', s'. now repeat split.
Qed.

Lemma freehand_stroke_stays_in_pointer_box_witness :
  exists c' s,
    run (MousePress LeftButton (mkQPoint 10 10)
           :: map MouseMove [mkQPoint 20 10; mkQPoint 20 30]) init = Some c' /\
    current_stroke c' = Some s /\
    Forall (in_box (mkQPointF 10 10) (mkQPointF 20 30)) (points s).
Proof.
  destruct (freehand_stroke_stays_in_pointer_box init (mkQPoint 10 10)
              [mkQPoint 20 10; mkQPoint 20 30] (mkQPointF 10 10) (mkQPointF 20 30)
              eq_refl) as (c' & s & R & S' & _ & _ & B & _).
  { repeat constructor; simpl; lra. }
  exists c', s. now repeat split.
Defined.

(** X10. A freehand stroke takes its colour and width when the pointer
    goes down, a shape when it goes up: if the colour and the width are
    changed in the middle of a drag, the committed freehand stroke still
    has the old ones, the committed shape has the new colour and the new,
    clamped, width. *)
Theorem settings_taken_at_press_or_release (c : DrawingCanvas) (p : Page)
        (a b : QPoint) (col : QColor) (w : R) :
  page c = Some p ->
  is_freehand_tool (current_tool c) = true \/
  (is_shape_tool (current_tool c) = true /\
   QPointF_bool (QPointF_of a) = true /\ QPointF_bool (QPointF_of b) = true) ->
  exists c' s,
    run [MousePress LeftButton a; SetColor col; SetWidth w;
         MouseMove b; MouseRelease LeftButton] c = Some c' /\
    active_strokes c' = Some (strokes p ++ [s]) /\
    color s = (if is_shape_tool (current_tool c) then col else current_color c) /\
    width s = (if is_shape_tool (current_tool c)
               then Rmax 1 (Rmin 80 w) else current_width c).
Proof.
  intros Hp [Ht|(Ht & Ha & Hb)].
  - pose proof (freehand_not_shape _ Ht) as (H1 & H2 & _).
    unfold run, step. rewrite (press_freehand c a Ht). simpl.
    erewrite move_freehand; [|reflexivity|exact H1|exact H2|reflexivity|reflexivity].
    simpl. erewrite release_freehand; [|reflexivity|exact H1|exact Hp|reflexivity].
    simpl. eexists _, _. split; [reflexivity|].
    unfold active_strokes, page. simpl. rewrite (page_insert_view c p _ Hp). simpl.
    split; [reflexivity|]. now rewrite H1.
  - unfold run, step. rewrite (press_shape c a Ht). simpl.
    rewrite move_shape; [|reflexivity|exact Ht]. simpl.
    erewrite release_shape; [|reflexivity|exact Ht|exact Hp].
    simpl. rewrite Ha, Hb. simpl. eexists _, _. split; [reflexivity|].
    unfold active_strokes, page. simpl. rewrite (page_insert_view c p _ Hp). simpl.
    split; [reflexivity|]. now rewrite Ht.
Qed.

Lemma settings_taken_at_press_or_release_witness :
  exists c' s,
    run [MousePress LeftButton (mkQPoint 1 1); SetColor 0xe94560%Z; SetWidth 200;
         MouseMove (mkQPoint 9 9); MouseRelease LeftButton] init = Some c' /\
    active_strokes c' = Some [s] /\ color s = 0x1a1a2e%Z /\ width s = 3.
Proof.
  exact (settings_taken_at_press_or_release init (new_Page NONE)
           (mkQPoint 1 1) (mkQPoint 9 9) 0xe94560%Z 200 eq_refl (or_introl eq_refl)).
Defined.

Section CursorTool.

Lemma cursor_step (cmd : Command) (c : DrawingCanvas) :
  current_tool c = CURSOR -> drawing c = false -> is_mouse_event cmd = true ->
  step cmd c = Some c.
Proof.
  intros Ht Hd Hm. destruct cmd; try discriminate Hm; simpl.
  - unfold mousePressEvent. rewrite Ht. now destruct (negb _).
  - unfold mouseMoveEvent. now rewrite Hd.
  - unfold mouseReleaseEvent. rewrite Hd. now destruct (negb _).
Qed.

End CursorTool.

(** X11. With the Cursor tool selected and no drag in progress the canvas
    is inert to the pointer: any sequence of presses, moves and releases,
    with any button, leaves it exactly as it was. *)
Theorem cursor_tool_ignores_pointer (evs : list Command) (c : DrawingCanvas) :
  current_tool c = CURSOR -> drawing c = false ->
  forallb is_mouse_event evs = true ->
  run evs c = Some c.
Proof.
  intros Ht Hd. induction evs as [|e evs IH]; simpl; [easy|].
  intros H. apply andb_true_iff in H as [He Hevs].
  rewrite (cursor_step e c Ht Hd He). simpl. now apply IH.
Qed.

Lemma cursor_tool_ignores_pointer_witness :
  let c := mkCanvas CURSOR 0%Z 3 1 [new_Page NONE] 0 false None None None false in
  run [MousePress LeftButton (mkQPoint 5 5); MouseMove (mkQPoint 9 9);
       MouseRelease LeftButton; MousePress RightButton (mkQPoint 1 1)] c = Some c.
Proof.
  intros c. apply (cursor_tool_ignores_pointer _ c); reflexivity.
Defined.

(** X12. The Shift modifier never changes what a key does: the only branch
    of [keyPressEvent] that reads it, the one meant to make Ctrl+Shift+Z a
    redo, is never reached, because Ctrl+Z is taken first.  So
    Ctrl+Shift+Z undoes, like Ctrl+Z; Ctrl+Y redoes; Ctrl+Delete and
    Ctrl+Backspace clear the page. *)
Theorem shift_modifier_is_ignored (c : DrawingCanvas) :
  (forall key ctrl shift shift',
     keyPressEvent key ctrl shift c = keyPressEvent key ctrl shift' c) /\
  keyPressEvent Key_Z true true c = undo c /\
  keyPressEvent Key_Y true true c = redo c /\
  keyPressEvent Key_Delete true true c = clear_page c /\
  keyPressEvent Key_Backspace true true c = clear_page c.
Proof.
  split; [|repeat split; reflexivity].
  intros key ctrl shift shift'. unfold keyPressEvent.
  destruct (key =? Key_Z)%Z, ctrl; simpl; try reflexivity.
Qed.

(** X13. The digit keys 1 to 9 pick the first nine palette colours,
    whatever modifiers are held: key [Key_1 + i] sets the colour to
    [DEFAULT_COLORS[i]] and changes nothing else; the index is always in
    range, and the tenth colour has no key. *)
Theorem digit_keys_pick_palette_colour (key : Z) (ctrl shift : bool)
        (c : DrawingCanvas) :
  (Key_1 <= key <= Key_9)%Z ->
  exists col,
    DEFAULT_COLORS !! Z.to_nat (key - Key_1) = Some col /\
    keyPressEvent key ctrl shift c = Some (set_color col c) /\
    (Z.to_nat (key - Key_1) < 9)%nat.
Proof.
  unfold Key_1, Key_9. intros H.
  assert (Hk : (key = 49 \/ key = 50 \/ key = 51 \/ key = 52 \/ key = 53 \/
                key = 54 \/ key = 55 \/ key = 56 \/ key = 57)%Z) by lia.
  destruct Hk as [->|[->|[->|[->|[->|[->|[->|[->| ->]]]]]]]];
    eexists; (split; [reflexivity|]); (split; [|simpl; lia]);
    destruct ctrl, shift; reflexivity.
Qed.

Lemma digit_keys_pick_palette_colour_witness :
  exists col,
    DEFAULT_COLORS !! Z.to_nat (0x32 - Key_1) = Some col /\
    keyPressEvent 0x32 false false init = Some (set_color col init) /\
    (Z.to_nat (0x32 - Key_1) < 9)%nat.
Proof.
  apply (digit_keys_pick_palette_colour 0x32 false false init).
  unfold Key_1, Key_9. lia.
Defined.

Section WidthKeys.

Lemma key_plus (c : DrawingCanvas) :
  keyPressEvent Key_Plus false false c = Some (set_width (current_width c + 2) c).
Proof. reflexivity. Qed.

Lemma key_minus (c : DrawingCanvas) :
  keyPressEvent Key_Minus false false c = Some (set_width (current_width c - 2) c).
Proof. reflexivity. Qed.

Lemma clamp_up (w : R) : 1 <= w <= 80 -> Rmax 1 (Rmin 80 (w + 2)) = Rmin 80 (w + 2).
Proof. intros H. unfold Rmax, Rmin. destruct (Rle_dec 80 _); destruct (Rle_dec 1 _); lra. Qed.

Lemma clamp_down (w : R) : 1 <= w <= 80 -> Rmax 1 (Rmin 80 (w - 2)) = Rmax 1 (w - 2).
Proof. intros H. unfold Rmax, Rmin. destruct (Rle_dec 80 _); destruct (Rle_dec 1 _); lra. Qed.

Lemma plus_presses (n : nat) :
  forall c, 1 <= current_width c <= 80 ->
  exists c', run (replicate n (KeyPress Key_Plus false false)) c = Some c' /\
             current_width c' = Rmin 80 (current_width c + 2 * INR n) /\
             pages c' = pages c /\ current_tool c' = current_tool c.
Proof.
  induction n as [|n IH]; intros c Hw.
  - exists c. simpl. split; [easy|]. split; [|easy].
    rewrite Rmin_right; lra.
  - destruct (IH (set_width (current_width c + 2) c)) as (c' & R & W & P & T).
    { simpl. apply clamp_in_range. }
    exists c'. cbn [replicate run]. unfold step at 1. rewrite key_plus.
    cbn [mbind option_bind]. split; [exact R|]. split; [|now split].
    rewrite W. cbn [set_width current_width]. rewrite clamp_up by exact Hw.
    rewrite S_INR. unfold Rmin.
    destruct (Rle_dec 80 (current_width c + 2)); repeat destruct (Rle_dec _ _);
      pose proof (pos_INR n); lra.
Qed.

Lemma minus_presses (n : nat) :
  forall c, 1 <= current_width c <= 80 ->
  exists c', run (replicate n (KeyPress Key_Minus false false)) c = Some c' /\
             current_width c' = Rmax 1 (current_width c - 2 * INR n) /\
             pages c' = pages c /\ current_tool c' = current_tool c.
Proof.
  induction n as [|n IH]; intros c Hw.
  - exists c. simpl. split; [easy|]. split; [|easy].
    rewrite Rmax_right; lra.
  - destruct (IH (set_width (current_width c - 2) c)) as (c' & R & W & P & T).
    { simpl. apply clamp_in_range. }
    exists c'. cbn [replicate run]. unfold step at 1. rewrite key_minus.
    cbn [mbind option_bind]. split; [exact R|]. split; [|now split].
    rewrite W. cbn [set_width current_width]. rewrite clamp_down by exact Hw.
    rewrite S_INR. unfold Rmax.
    destruct (Rle_dec 1 (current_width c - 2)); repeat destruct (Rle_dec _ _);
      pose proof (pos_INR n); lra.
Qed.

End WidthKeys.

(** X14. The width keys saturate: from a width within [1, 80], [n] presses
    of "+" give [min(80, w + 2 n)] and [n] presses of "-" give
    [max(1, w - 2 n)]; pages and tool are not touched. *)
Theorem width_keys_saturate (n : nat) (c : DrawingCanvas) :
  1 <= current_width c <= 80 ->
  (exists c', run (replicate n (KeyPress Key_Plus false false)) c = Some c' /\
              current_width c' = Rmin 80 (current_width c + 2 * INR n) /\
              pages c' = pages c /\ current_tool c' = current_tool c) /\
  (exists c', run (replicate n (KeyPress Key_Minus false false)) c = Some c' /\
              current_width c' = Rmax 1 (current_width c - 2 * INR n) /\
              pages c' = pages c /\ current_tool c' = current_tool c).
Proof.
  intros Hw. split; [now apply plus_presses|now apply minus_presses].
Qed.

Lemma width_keys_saturate_witness :
  exists c', run (replicate 50 (KeyPress Key_Plus false false)) init = Some c' /\
             current_width c' = 80.
Proof.
  assert (Hw : 1 <= current_width init <= 80) by (simpl; lra).
  destruct (width_keys_saturate 50 init Hw) as [(c' & R & W & _) _].
  exists c'. split; [exact R|]. rewrite W. simpl current_width.
  rewrite Rmin_left; [reflexivity|].
  replace (INR 50) with 50 by (rewrite INR_IZR_INZ; reflexivity). lra.
Defined.

Section PenPath.

Lemma quad_segments_length (l : list QPointF) :
  length (quad_segments l) = (length l - 1)%nat.
Proof.
  induction l as [|p [|q l] IH]; simpl in *; try easy. rewrite IH. lia.
Qed.

Lemma quad_segments_lookup (l : list QPointF) (j : nat) (p q : QPointF) :
  l !! j = Some p -> l !! S j = Some q ->
  quad_segments l !! j
    = Some (QuadTo p (mkQPointF ((px p + px q) / 2) ((py p + py q) / 2))).
Proof.
  revert j. induction l as [|a [|b l] IH]; intros j Hp Hq; try easy.
  destruct j as [|j].
  - simpl in *. now injection Hp as <-; injection Hq as <-.
  - simpl. apply IH; [exact Hp|exact Hq].
Qed.

Lemma pen_path_long (p0 p1 p2 : QPointF) (l : list QPointF) :
  pen_path (p0 :: p1 :: p2 :: l)
  = MoveTo p0 :: quad_segments (p1 :: p2 :: l) ++
      match last (p0 :: p1 :: p2 :: l) with
      | Some pl => [LineTo pl]
      | None => []
      end.
Proof. reflexivity. Qed.

End PenPath.

(** X15. The pen's path through [n >= 2] sample points has [n] elements:
    it starts with a move to the first point and ends with a line to the
    last point itself; every element in between, at index [k], is a
    quadratic curve whose control point is sample [k] and whose end is the
    midpoint of samples [k] and [k + 1].  With two points it is the
    straight segment. *)
Theorem pen_path_through_midpoints (s : Stroke) :
  start_point s = None -> tool s = PEN -> (2 <= length (points s))%nat ->
  exists path,
    _paint_stroke s = [DrawPath path] /\
    length path = length (points s) /\
    head path = MoveTo <$> head (points s) /\
    last path = LineTo <$> last (points s) /\
    (forall k p q, (1 <= k)%nat ->
       points s !! k = Some p -> points s !! S k = Some q ->
       path !! k = Some (QuadTo p (mkQPointF ((px p + px q) / 2)
                                             ((py p + py q) / 2)))).
Proof.
  intros Hs Ht Hn. unfold _paint_stroke. rewrite Hs, Ht. simpl.
  destruct (Nat.ltb_spec (length (points s)) 2) as [H|_]; [lia|].
  exists (pen_path (points s)). split; [reflexivity|].
  destruct (points s) as [|p0 [|p1 [|p2 l]]] eqn:E; simpl in Hn; try lia.
  - (* two points *)
    simpl. repeat split. intros k p q Hk Hp Hq.
    destruct k as [|[|k]]; simpl in *; try lia; discriminate.
  - (* three or more *)
    rewrite pen_path_long.
    destruct (last (p0 :: p1 :: p2 :: l)) as [pl|] eqn:El;
      [|now apply last_None in El].
    split; [|split; [|split]].
    + cbn [length]. rewrite length_app, quad_segments_length. simpl. lia.
    + reflexivity.
    + change (MoveTo p0 :: quad_segments (p1 :: p2 :: l) ++ [LineTo pl])
        with ((MoveTo p0 :: quad_segments (p1 :: p2 :: l)) ++ [LineTo pl]).
      now rewrite last_snoc.
    + intros k p q Hk Hp Hq. destruct k as [|k]; [lia|].
      change ((quad_segments (p1 :: p2 :: l) ++ [LineTo pl]) !! k
              = Some (QuadTo p (mkQPointF ((px p + px q) / 2) ((py p + py q) / 2)))).
      assert (Hlt : (k < length (quad_segments (p1 :: p2 :: l)))%nat).
      { rewrite quad_segments_length. apply lookup_lt_Some in Hq. simpl in *. lia. }
      rewrite lookup_app_l by exact Hlt.
      now apply quad_segments_lookup.
Qed.

Lemma pen_path_through_midpoints_witness :
  let s := mkStroke [mkQPointF 0 0; mkQPointF 4 0; mkQPointF 4 4] 0%Z 3 PEN 1 None None in
  exists path, _paint_stroke s = [DrawPath path] /\ length path = 3%nat /\
               last path = Some (LineTo (mkQPointF 4 4)).
Proof.
  intros s.
  destruct (pen_path_through_midpoints s eq_refl eq_refl) as (path & H1 & H2 & _ & H4 & _).
  { simpl. lia. }
  exists path. now repeat split.
Defined.

Section Chisel.

Lemma radians_45 : radians 45 = PI / 4.
Proof. unfold radians. field. Qed.

Lemma chisel_polygons_length (dx dy : R) (l : list QPointF) :
  length (chisel_polygons dx dy l) = (length l - 1)%nat.
Proof.
  induction l as [|p [|q l] IH]; simpl in *; try easy. rewrite IH. lia.
Qed.

Lemma chisel_polygons_lookup (dx dy : R) (l : list QPointF) (k : nat) (p q : QPointF) :
  l !! k = Some p -> l !! S k = Some q ->
  chisel_polygons dx dy l !! k
    = Some (DrawPolygon [ mkQPointF (px p - dx) (py p - dy);
                          mkQPointF (px p + dx) (py p + dy);
                          mkQPointF (px q + dx) (py q + dy);
                          mkQPointF (px q - dx) (py q - dy) ]).
Proof.
  revert k. induction l as [|a [|b l] IH]; intros k Hp Hq; try easy.
  destruct k as [|k].
  - simpl in *. now injection Hp as <-; injection Hq as <-.
  - simpl. apply IH; [exact Hp|exact Hq].
Qed.

End Chisel.

(** X16. The chisel pen paints one quadrilateral per pair of consecutive
    points, [n - 1] for [n] points.  Its corners are the two points each
    moved by minus and plus the same offset [(d, d)], with
    [d = 0.7 * width / sqrt 2]: the nib is a segment at 45 degrees of
    length [1.4 * width], the same whatever the direction of the stroke. *)
Theorem chisel_nib_is_fixed (s : Stroke) :
  let d := width s * (7 / 10) / sqrt 2 in
  length (_paint_chisel s) = (length (points s) - 1)%nat /\
  (forall k p q, points s !! k = Some p -> points s !! S k = Some q ->
     _paint_chisel s !! k
       = Some (DrawPolygon [ mkQPointF (px p - d) (py p - d);
                             mkQPointF (px p + d) (py p + d);
                             mkQPointF (px q + d) (py q + d);
                             mkQPointF (px q - d) (py q - d) ])) /\
  hypot (2 * d) (2 * d) = 7 / 5 * Rabs (width s).
Proof.
  intros d. pose proof sqrt2_neq_0 as H2.
  assert (Hd1 : cos (radians 45) * (width s * (7 / 10)) = d)
    by (rewrite radians_45, cos_PI4; unfold d; field; exact H2).
  assert (Hd2 : sin (radians 45) * (width s * (7 / 10)) = d)
    by (rewrite radians_45, sin_PI4; unfold d; field; exact H2).
  unfold _paint_chisel. rewrite Hd1, Hd2.
  split; [apply chisel_polygons_length|]. split.
  - intros k p q. apply chisel_polygons_lookup.
  - unfold hypot. apply sqrt_lem_1.
    + nra.
    + pose proof (Rabs_pos (width s)). lra.
    + assert (Hs : sqrt 2 * sqrt 2 = 2) by (apply sqrt_sqrt; lra).
      assert (Hdd : d * d = width s * width s * (49 / 200)).
      { unfold d.
        replace (width s * (7 / 10) / sqrt 2 * (width s * (7 / 10) / sqrt 2))
          with (width s * (7 / 10) * (width s * (7 / 10)) / (sqrt 2 * sqrt 2))
          by (field; exact H2).
        rewrite Hs. field. }
      replace (7 / 5 * Rabs (width s) * (7 / 5 * Rabs (width s)))
        with (49 / 25 * (Rabs (width s) * Rabs (width s))) by field.
      replace (Rabs (width s) * Rabs (width s)) with (width s * width s)
        by (rewrite <- Rabs_mult; symmetry; apply Rabs_pos_eq; nra).
      nra.
Qed.

(** * The backgrounds *)

Section Loops.
Variable step : Z.
Hypothesis step_pos : (0 < step)%Z.

Lemma visits_stop (x limit : Z) : (limit < x)%Z -> visits x limit step = [].
Proof. intros H. unfold visits. destruct (Z.leb_spec x limit); [lia|easy]. Qed.

Lemma visits_cons (x limit : Z) :
  (x <= limit)%Z -> visits x limit step = x :: visits (x + step) limit step.
Proof.
  intros H. unfold visits. destruct (Z.leb_spec x limit) as [_|]; [|lia].
  destruct (Z.leb_spec (x + step) limit) as [H'|H'].
  - replace ((limit - x) / step + 1)%Z with (((limit - (x + step)) / step + 1) + 1)%Z.
    2:{ replace (limit - x)%Z with ((limit - (x + step)) + 1 * step)%Z by lia.
        rewrite Z.div_add by lia. lia. }
    assert (Hq : (0 <= (limit - (x + step)) / step)%Z) by (apply Z.div_pos; lia).
    rewrite Z2Nat.inj_add by lia. rewrite Nat.add_comm. simpl.
    f_equal; [lia|]. rewrite <- seq_shift, map_map.
    apply map_ext. intros k. lia.
  - rewrite Z.div_small by lia. simpl. f_equal. lia.
Qed.

(** With the fuel the drawing functions give it, a loop runs its body at
    every position it visits, in order. *)
Lemma while_le_visits (body : Z -> Z -> list BgOp) (fuel : nat) :
  forall x limit i,
    (limit - x + 1 <= Z.of_nat fuel)%Z ->
    while_le fuel x limit step i body
    = concat (imap (fun k p => body p (i + Z.of_nat k)%Z) (visits x limit step)).
Proof.
  induction fuel as [|fuel IH]; intros x limit i Hf.
  - simpl. rewrite visits_stop by lia. reflexivity.
  - simpl. destruct (Z.leb_spec x limit) as [H|H].
    + rewrite visits_cons by exact H. simpl. rewrite Z.add_0_r. f_equal.
      rewrite IH by lia. f_equal. apply imap_ext. intros k p _. simpl.
      f_equal. lia.
    + now rewrite visits_stop.
Qed.

Lemma loop_with_fuel (body : Z -> Z -> list BgOp) (x limit : Z) :
  while_le (loop_fuel x limit) x limit step 0 body
  = concat (imap (fun k p => body p (Z.of_nat k)) (visits x limit step)).
Proof. apply while_le_visits. unfold loop_fuel. lia. Qed.

Lemma loop_plain (f : Z -> BgOp) (x limit : Z) :
  while_le (loop_fuel x limit) x limit step 0 (fun p _ => [f p])
  = map f (visits x limit step).
Proof.
  rewrite loop_with_fuel. generalize (visits x limit step). intros l.
  generalize 0%nat. induction l as [|p l IH]; intros n; [easy|].
  simpl. f_equal. unfold imap in IH. 
  change (concat (imap ((fun k q => [f q]) ∘ S) l) = map f l).
  clear IH. induction l as [|q l IH]; [easy|]. simpl. f_equal. apply IH.
Qed.

Lemma visits_lookup (x limit : Z) (k : nat) (p : Z) :
  visits x limit step !! k = Some p ->
  p = (x + step * Z.of_nat k)%Z /\ (x <= p <= limit)%Z.
Proof.
  unfold visits. destruct (Z.leb_spec x limit) as [H|H]; [|easy].
  rewrite list_lookup_fmap. intros Hk.
  destruct (seq 0 _ !! k) as [j|] eqn:Ej; [|easy]. simpl in Hk.
  apply lookup_seq in Ej as [-> Hlt]. simpl in Hk. injection Hk as <-.
  split; [reflexivity|].
  assert (Hq : (0 <= (limit - x) / step)%Z) by (apply Z.div_pos; lia).
  assert (Hk : (Z.of_nat k <= (limit - x) / step)%Z) by lia.
  pose proof (Z.mul_div_le (limit - x) step step_pos). nia.
Qed.

End Loops.

Section EveryFifth.
Variables (s limit : Z) (f : Z -> BgOp).
Hypothesis s_pos : (0 < s)%Z.

Lemma fifth_cons (i x : Z) (l : list Z) :
  every_fifth f i (x :: l)
  = (if (i mod 5 =? 0)%Z then [f x] else []) ++ every_fifth f (i + 1) l.
Proof.
  unfold every_fifth. simpl. rewrite Z.add_0_r. f_equal. f_equal.
  apply imap_ext. intros k p _. simpl.
  now replace (i + 1 + Z.of_nat k)%Z with (i + Z.of_nat (S k))%Z by lia.
Qed.

Lemma mod5_cases (i : Z) :
  (i mod 5 = 0 \/ i mod 5 = 1 \/ i mod 5 = 2 \/ i mod 5 = 3 \/ i mod 5 = 4)%Z.
Proof. pose proof (Z.mod_pos_bound i 5). lia. Qed.

Lemma mod5_succ (i : Z) : ((i + 1) mod 5 = (i mod 5 + 1) mod 5)%Z.
Proof. now rewrite Zplus_mod_idemp_l. Qed.

(** Taking every fifth position of a loop with step [s] is looping with
    step [5 s]. *)
Lemma fifth_visits (fuel : nat) :
  forall x i,
    (limit - x + 1 <= Z.of_nat fuel)%Z ->
    every_fifth f i (visits x limit s)
    = map f (visits (x + s * ((5 - i mod 5) mod 5)) limit (5 * s)).
Proof.
  induction fuel as [|fuel IH]; intros x i Hf.
  - rewrite (visits_stop s) by lia.
    assert (0 <= (5 - i mod 5) mod 5)%Z by (apply Z.mod_pos_bound; lia).
    rewrite (visits_stop (5 * s)) by nia. reflexivity.
  - destruct (Z.leb_spec x limit) as [H|H].
    + rewrite (visits_cons s s_pos) by exact H. rewrite fifth_cons.
      rewrite IH by lia. rewrite mod5_succ.
      destruct (mod5_cases i) as [E|[E|[E|[E|E]]]]; rewrite E.
      * change ((5 - (0 + 1) mod 5) mod 5)%Z with 4%Z.
        change ((5 - 0) mod 5)%Z with 0%Z. rewrite Z.mul_0_r, Z.add_0_r.
        rewrite (visits_cons (5 * s) ltac:(lia) x limit H). simpl.
        do 3 f_equal. lia.
      * change ((5 - (1 + 1) mod 5) mod 5)%Z with 3%Z.
        change ((5 - 1) mod 5)%Z with 4%Z. simpl. do 2 f_equal. lia.
      * change ((5 - (2 + 1) mod 5) mod 5)%Z with 2%Z.
        change ((5 - 2) mod 5)%Z with 3%Z. simpl. do 2 f_equal. lia.
      * change ((5 - (3 + 1) mod 5) mod 5)%Z with 1%Z.
        change ((5 - 3) mod 5)%Z with 2%Z. simpl. do 2 f_equal. lia.
      * change ((5 - (4 + 1) mod 5) mod 5)%Z with 0%Z.
        change ((5 - 4) mod 5)%Z with 1%Z. simpl. do 2 f_equal. lia.
    + assert (0 <= (5 - i mod 5) mod 5)%Z by (apply Z.mod_pos_bound; lia).
      rewrite (visits_stop s), (visits_stop (5 * s)) by nia. reflexivity.
Qed.

Lemma loop_every_fifth (x : Z) :
  while_le (loop_fuel x limit) x limit s 0
           (fun p i => if (i mod 5 =? 0)%Z then [f p] else [])
  = map f (visits x limit (5 * s)).
Proof.
  rewrite (loop_with_fuel s s_pos).
  change (every_fifth f 0 (visits x limit s) = map f (visits x limit (5 * s))).
  rewrite (fifth_visits (loop_fuel x limit)) by (unfold loop_fuel; lia).
  simpl. now rewrite Z.mul_0_r, Z.add_0_r.
Qed.

End EveryFifth.

Section Lattices.

Lemma imap_ignore {A B} (g : A -> B) (l : list A) :
  imap (fun _ x => g x) l = map g l.
Proof.
  induction l as [|x l IH]; [reflexivity|].
  simpl. f_equal. exact IH.
Qed.

Lemma visits_In (s x limit p : Z) :
  (0 < s)%Z ->
  In p (visits x limit s) <-> (x <= p <= limit)%Z /\ ((p - x) mod s = 0)%Z.
Proof.
  intros Hs. split.
  - intros Hin. apply list_elem_of_In, list_elem_of_lookup in Hin as [k Hk].
    apply (visits_lookup s Hs) in Hk as [-> Hr]. split; [exact Hr|].
    replace (x + s * Z.of_nat k - x)%Z with (Z.of_nat k * s)%Z by lia.
    apply Z.mod_mul. lia.
  - intros [Hr Hm]. unfold visits. destruct (Z.leb_spec x limit) as [_|]; [|lia].
    apply in_map_iff. exists (Z.to_nat ((p - x) / s)).
    assert (Hq : (0 <= (p - x) / s)%Z) by (apply Z.div_pos; lia).
    assert (Hp : (p - x = s * ((p - x) / s))%Z)
      by (pose proof (Z.div_mod (p - x) s ltac:(lia)); lia).
    split; [lia|]. apply in_seq.
    assert (Hle : ((p - x) / s <= (limit - x) / s)%Z)
      by (apply Z.div_le_mono; lia).
    lia.
Qed.

Lemma visits_length (s x limit : Z) :
  (0 < s)%Z -> length (visits (x + s) limit s) = Z.to_nat ((limit - x) / s).
Proof.
  intros Hs. unfold visits. destruct (Z.leb_spec (x + s) limit) as [H|H].
  - rewrite length_map, length_seq. f_equal.
    replace (limit - x)%Z with ((limit - (x + s)) + 1 * s)%Z by lia.
    rewrite Z.div_add by lia. lia.
  - simpl. destruct (Z.le_gt_cases x limit) as [H'|H'].
    + now rewrite Z.div_small by lia.
    + assert ((limit - x) / s < 0)%Z by (apply Z.div_lt_upper_bound; lia). lia.
Qed.

Lemma visits_fifth_subset (s x limit p : Z) :
  (0 < s)%Z -> In p (visits x limit (5 * s)) -> In p (visits x limit s).
Proof.
  intros Hs Hin. apply visits_In in Hin as [Hr Hm]; [|lia].
  apply visits_In; [exact Hs|]. split; [exact Hr|].
  apply Z.mod_divide in Hm as [k Hk]; [|lia].
  rewrite Hk. replace (k * (5 * s))%Z with (k * 5 * s)%Z by lia.
  apply Z.mod_mul. lia.
Qed.

End Lattices.

Section GridAndDots.
Variable rect : EdgeRect.

Lemma grid_closed_form :
  draw_background rect GRID =
    BgFill 0xffffff%Z ::
      map (fun x => BgLine 0xd0d4dc%Z x (e_top rect) x (e_bottom rect))
          (visits (e_left rect) (e_right rect) 40) ++
      map (fun y => BgLine 0xd0d4dc%Z (e_left rect) y (e_right rect) y)
          (visits (e_top rect) (e_bottom rect) 40) ++
      map (fun x => BgLine 0xa8afc0%Z x (e_top rect) x (e_bottom rect))
          (visits (e_left rect) (e_right rect) 200) ++
      map (fun y => BgLine 0xa8afc0%Z (e_left rect) y (e_right rect) y)
          (visits (e_top rect) (e_bottom rect) 200).
Proof.
  unfold draw_background, _draw_grid.
  rewrite !(loop_plain 40) by lia.
  rewrite !(loop_every_fifth 40) by lia. reflexivity.
Qed.

Lemma dots_closed_form :
  draw_background rect DOTTED =
    BgFill 0xfafafa%Z ::
      concat (map (fun x => map (fun y => BgDot (x - 1) (y - 1) 3 3)
                                (visits (e_top rect + 30) (e_bottom rect) 30))
                  (visits (e_left rect + 30) (e_right rect) 30)).
Proof.
  unfold draw_background, _draw_dots.
  rewrite (loop_with_fuel 30) by lia. f_equal.
  rewrite imap_ignore. f_equal. apply map_ext. intros x.
  now rewrite (loop_plain 30) by lia.
Qed.

Lemma backgrounds_are_lattices_aux :
  draw_background rect GRID =
    BgFill 0xffffff%Z ::
      map (fun x => BgLine 0xd0d4dc%Z x (e_top rect) x (e_bottom rect))
          (visits (e_left rect) (e_right rect) 40) ++
      map (fun y => BgLine 0xd0d4dc%Z (e_left rect) y (e_right rect) y)
          (visits (e_top rect) (e_bottom rect) 40) ++
      map (fun x => BgLine 0xa8afc0%Z x (e_top rect) x (e_bottom rect))
          (visits (e_left rect) (e_right rect) 200) ++
      map (fun y => BgLine 0xa8afc0%Z (e_left rect) y (e_right rect) y)
          (visits (e_top rect) (e_bottom rect) 200) /\
  draw_background rect DOTTED =
    BgFill 0xfafafa%Z ::
      concat (map (fun x => map (fun y => BgDot (x - 1) (y - 1) 3 3)
                                (visits (e_top rect + 30) (e_bottom rect) 30))
                  (visits (e_left rect + 30) (e_right rect) 30)).
Proof. split; [apply grid_closed_form|apply dots_closed_form]. Qed.

End GridAndDots.

(** X17. What each background draws, with the loops resolved.  None draws
    nothing; White is one fill.  Grid, after its fill, draws a thin
    vertical line at every [left + 40 k <= right] and a thin horizontal
    line at every [top + 40 k <= bottom], then the bold ones at
    [left + 200 k] and [top + 200 k]: every fifth line.  Lined draws the
    margin line at [left + 80] and rules at [top + 60 + 36 k <= bottom].
    Dotted draws a 3 x 3 dot around every lattice point
    [(left + 30 i, top + 30 j)] with [i, j >= 1] inside the rectangle.
    Blackboard draws texture lines at [top + 3 k <= bottom] and two frames
    inset by 4 and by 10. *)
Theorem backgrounds_are_lattices (rect : EdgeRect) :
  let l := e_left rect in
  let t := e_top rect in
  let r := e_right rect in
  let b := e_bottom rect in
  let vline pen x := BgLine pen x t x b in
  let hline pen y := BgLine pen l y r y in
  draw_background rect NONE = [] /\
  draw_background rect WHITE = [BgFill 0xf8f9fa%Z] /\
  draw_background rect GRID =
    BgFill 0xffffff%Z ::
      map (vline 0xd0d4dc%Z) (visits l r 40) ++ map (hline 0xd0d4dc%Z) (visits t b 40) ++
      map (vline 0xa8afc0%Z) (visits l r 200) ++ map (hline 0xa8afc0%Z) (visits t b 200) /\
  draw_background rect LINED =
    BgFill 0xfffef5%Z :: vline 0xe8a0a0%Z (l + 80)%Z ::
      map (hline 0xc8d8e8%Z) (visits (t + 60) b 36) /\
  draw_background rect DOTTED =
    BgFill 0xfafafa%Z ::
      concat (map (fun x => map (fun y => BgDot (x - 1) (y - 1) 3 3) (visits (t + 30) b 30))
                  (visits (l + 30) r 30)) /\
  draw_background rect BLACKBOARD =
    BgFill 0x1a3a2a%Z ::
      map (hline 0xffffff%Z) (visits t b 3) ++
      [BgFrame 0x5c3a1e%Z (inset 4 rect); BgFrame 0x8b6914%Z (inset 10 rect)].
Proof.
  intros l t r b vline hline.
  split; [reflexivity|]. split; [reflexivity|].
  split; [|split; [|split]].
  - apply grid_closed_form.
  - unfold draw_background, _draw_lines. fold l t r b.
    rewrite (loop_plain 36) by lia. reflexivity.
  - apply dots_closed_form.
  - unfold draw_background, _draw_blackboard. fold l t r b.
    rewrite (loop_plain 3) by lia. reflexivity.
Qed.

(** X18. The grid stays on its lattice and inside the rectangle: every
    line it draws is either a vertical line from top to bottom at an [x]
    between left and right with [x - left] a multiple of 40, or a
    horizontal line from left to right at such a [y]; and every bold line
    is drawn over a thin line with the same end points. *)
Theorem grid_lines_on_lattice (rect : EdgeRect) :
  let l := e_left rect in
  let t := e_top rect in
  let r := e_right rect in
  let b := e_bottom rect in
  (forall pen x1 y1 x2 y2,
     In (BgLine pen x1 y1 x2 y2) (draw_background rect GRID) ->
     (x2 = x1 /\ y1 = t /\ y2 = b /\ (l <= x1 <= r)%Z /\ ((x1 - l) mod 40 = 0)%Z) \/
     (y2 = y1 /\ x1 = l /\ x2 = r /\ (t <= y1 <= b)%Z /\ ((y1 - t) mod 40 = 0)%Z)) /\
  (forall x1 y1 x2 y2,
     In (BgLine 0xa8afc0%Z x1 y1 x2 y2) (draw_background rect GRID) ->
     In (BgLine 0xd0d4dc%Z x1 y1 x2 y2) (draw_background rect GRID)).
Proof.
  intros l t r b.
  destruct (backgrounds_are_lattices_aux rect) as (Hgrid & _).
  fold l t r b in Hgrid. rewrite Hgrid. clear Hgrid. split.
  - intros pen x1 y1 x2 y2 [Hin|Hin]; [discriminate|].
    rewrite !in_app_iff, !in_map_iff in Hin.
    destruct Hin as [(x & E & Hx)|[(y & E & Hy)|[(x & E & Hx)|(y & E & Hy)]]];
      injection E as <- <- <- <- <-.
    + left. apply visits_In in Hx; [|lia]. now repeat split.
    + right. apply visits_In in Hy; [|lia]. now repeat split.
    + left. apply (visits_fifth_subset 40), visits_In in Hx; try lia;
        try (now repeat split).
    + right. apply (visits_fifth_subset 40), visits_In in Hy; try lia;
        try (now repeat split).
  - intros x1 y1 x2 y2 [Hin|Hin]; [discriminate|]. right.
    rewrite !in_app_iff, !in_map_iff in Hin. rewrite !in_app_iff, !in_map_iff.
    destruct Hin as [(x & E & Hx)|[(y & E & Hy)|[(x & E & Hx)|(y & E & Hy)]]];
      try discriminate E; injection E as <- <- <- <-.
    + left. exists x. split; [reflexivity|]. now apply (visits_fifth_subset 40).
    + right. left. exists y. split; [reflexivity|]. now apply (visits_fifth_subset 40).
Qed.

(** X19. The dot background draws, after its fill, one 3 x 3 dot for each
    lattice point: [(right - left) / 30] columns times
    [(bottom - top) / 30] rows (none when a side is shorter than 30).
    Every dot is centred on a point [(left + 30 i, top + 30 j)] with
    [i, j >= 1] that lies inside the rectangle. *)
Theorem dots_fill_the_lattice (rect : EdgeRect) :
  let l := e_left rect in
  let t := e_top rect in
  let r := e_right rect in
  let b := e_bottom rect in
  length (draw_background rect DOTTED)
    = S (Z.to_nat ((r - l) / 30) * Z.to_nat ((b - t) / 30)) /\
  (forall x y w h,
     In (BgDot x y w h) (draw_background rect DOTTED) ->
     w = 3%Z /\ h = 3%Z /\
     (l + 30 <= x + 1 <= r)%Z /\ (t + 30 <= y + 1 <= b)%Z /\
     ((x + 1 - l) mod 30 = 0)%Z /\ ((y + 1 - t) mod 30 = 0)%Z).
Proof.
  intros l t r b.
  destruct (backgrounds_are_lattices_aux rect) as (_ & Hdots).
  fold l t r b in Hdots. rewrite Hdots. clear Hdots. split.
  - cbn [length]. f_equal.
    rewrite <- (visits_length 30 l r), <- (visits_length 30 t b) by lia.
    generalize (visits (l + 30) r 30). intros xs.
    induction xs as [|x xs IH]; [reflexivity|].
    simpl. rewrite length_app, length_map, IH. reflexivity.
  - intros x y w h [Hin|Hin]; [discriminate|].
    apply in_concat in Hin as (row & Hrow & Hin).
    apply in_map_iff in Hrow as (x0 & <- & Hx).
    apply in_map_iff in Hin as (y0 & E & Hy). injection E as <- <- <- <-.
    apply visits_In in Hx, Hy; try lia.
    destruct Hx as [Hx Hxm], Hy as [Hy Hym].
    replace (x0 - 1 + 1)%Z with x0 by lia. replace (y0 - 1 + 1)%Z with y0 by lia.
    repeat split; try lia.
    + replace (x0 - l)%Z with (x0 - (l + 30) + 1 * 30)%Z by lia.
      now rewrite Z.mod_add by lia.
    + replace (y0 - t)%Z with (y0 - (t + 30) + 1 * 30)%Z by lia.
      now rewrite Z.mod_add by lia.
Qed.

(** * The curtain *)

Section CurtainLemmas.
Import Curtain.

Lemma handle_all_snoc (es : list Event) (e : Event) (c : CurtainOverlay) :
  handle_all (es ++ [e]) c = handle e (handle_all es c).
Proof. unfold handle_all. now rewrite fold_left_app. Qed.

Lemma clamp_radius (x : R) : 50 <= Rmax 50 (Rmin 500 x) <= 500.
Proof.
  unfold Rmax, Rmin. destruct (Rle_dec 500 x); destruct (Rle_dec 50 _); lra.
Qed.

Lemma handle_radius (e : Event) (c : CurtainOverlay) :
  50 <= spotlight_radius c <= 500 -> 50 <= spotlight_radius (handle e c) <= 500.
Proof.
  intros H. destruct e as [parent|pos|pos| |delta]; simpl.
  - unfold toggle, set_mode. now destruct (mode c), parent as [[w h]|].
  - unfold mousePressEvent. now destruct (mode c).
  - unfold mouseMoveEvent.
    destruct (mode c); try easy. now destruct (dragging_edge c).
  - exact H.
  - unfold wheelEvent. destruct (mode c); try easy. simpl. apply clamp_radius.
Qed.

Lemma handle_roomy (e : Event) (c : CurtainOverlay) :
  parent_fits e -> roomy (reveal_rect c) -> roomy (reveal_rect (handle e c)).
Proof.
  unfold roomy. intros Hfit H. destruct e as [parent|pos|pos| |delta]; simpl.
  - unfold toggle, set_mode.
    destruct (mode c), parent as [[w h]|]; simpl in *; try easy.
    assert (51 <= h / 3)%Z by (apply Z.div_le_lower_bound; lia). lia.
  - unfold mousePressEvent. now destruct (mode c).
  - unfold mouseMoveEvent. destruct (mode c); try easy.
    destruct (dragging_edge c) as [[]|]; simpl; lia.
  - exact H.
  - unfold wheelEvent. now destruct (mode c).
Qed.

End CurtainLemmas.

(** X20. The curtain cycles Off, Full, Spotlight, Off: three toggles bring
    the mode back, whatever the parent sizes; after a toggle the overlay
    is shown exactly when the mode is not Off; entering Full from Off
    resets the revealed rectangle to the top third of the parent,
    [QRect(0, 0, w, h // 3)]; a toggle never changes the spotlight or the
    opacity. *)
Theorem curtain_toggle_cycles (p1 p2 p3 : option (Z * Z)) (c : Curtain.CurtainOverlay) :
  Curtain.mode (Curtain.toggle p3 (Curtain.toggle p2 (Curtain.toggle p1 c)))
    = Curtain.mode c /\
  Curtain.mode (Curtain.toggle p1 c)
    = match Curtain.mode c with
      | Curtain.OFF => Curtain.FULL
      | Curtain.FULL => Curtain.SPOTLIGHT
      | Curtain.SPOTLIGHT => Curtain.OFF
      end /\
  Curtain.visible (Curtain.toggle p1 c)
    = match Curtain.mode (Curtain.toggle p1 c) with
      | Curtain.OFF => false
      | _ => true
      end /\
  (forall w h, Curtain.mode c = Curtain.OFF ->
     Curtain.reveal_rect (Curtain.toggle (Some (w, h)) c)
       = Curtain.mkQRect 0 0 (w - 1) (h / 3 - 1)) /\
  (Curtain.mode c <> Curtain.OFF ->
     Curtain.reveal_rect (Curtain.toggle p1 c) = Curtain.reveal_rect c) /\
  Curtain.spotlight_radius (Curtain.toggle p1 c) = Curtain.spotlight_radius c /\
  Curtain.spotlight_pos (Curtain.toggle p1 c) = Curtain.spotlight_pos c /\
  Curtain.opacity_level (Curtain.toggle p1 c) = Curtain.opacity_level c.
Proof.
  unfold Curtain.toggle, Curtain.set_mode.
  repeat split.
  - destruct (Curtain.mode c), p1 as [[]|], p2 as [[]|], p3 as [[]|]; reflexivity.
  - destruct (Curtain.mode c), p1 as [[]|]; reflexivity.
  - destruct (Curtain.mode c), p1 as [[]|]; reflexivity.
  - intros w h ->. simpl. unfold Curtain.QRect_xywh. f_equal; lia.
  - intros H. destruct (Curtain.mode c), p1 as [[]|]; try reflexivity; easy.
  - destruct (Curtain.mode c), p1 as [[]|]; reflexivity.
  - destruct (Curtain.mode c), p1 as [[]|]; reflexivity.
  - destruct (Curtain.mode c), p1 as [[]|]; reflexivity.
Qed.

Lemma curtain_toggle_cycles_witness :
  Curtain.mode Curtain.init = Curtain.OFF /\
  Curtain.reveal_rect (Curtain.toggle (Some (800, 600)%Z) Curtain.init)
    = Curtain.mkQRect 0 0 (800 - 1) (600 / 3 - 1).
Proof.
  split; [reflexivity|].
  apply (proj1 (proj2 (proj2 (proj2
           (curtain_toggle_cycles None None None Curtain.init))))).
  reflexivity.
Defined.

(** X21. The spotlight radius stays within [50, 500]: it does after every
    sequence of events on a fresh curtain, and a wheel turn in Spotlight
    mode brings it into the range whatever it was; in the other modes the
    wheel leaves the curtain alone. *)
Theorem spotlight_radius_stays_in_range (es : list Curtain.Event) (delta : Z)
        (c : Curtain.CurtainOverlay) :
  50 <= Curtain.spotlight_radius (Curtain.handle_all es Curtain.init) <= 500 /\
  (Curtain.mode c = Curtain.SPOTLIGHT ->
     Curtain.spotlight_radius (Curtain.wheelEvent delta c)
       = Rmax 50 (Rmin 500 (Curtain.spotlight_radius c + IZR delta / 5)) /\
     50 <= Curtain.spotlight_radius (Curtain.wheelEvent delta c) <= 500) /\
  (Curtain.mode c <> Curtain.SPOTLIGHT -> Curtain.wheelEvent delta c = c).
Proof.
  split; [|split].
  - induction es as [|e es IH] using rev_ind.
    + simpl. lra.
    + rewrite handle_all_snoc. now apply handle_radius.
  - intros Hm. unfold Curtain.wheelEvent. rewrite Hm. simpl.
    split; [reflexivity|apply clamp_radius].
  - intros Hm. unfold Curtain.wheelEvent. now destruct (Curtain.mode c).
Qed.

Lemma spotlight_radius_stays_in_range_witness :
  Curtain.mode (Curtain.toggle None (Curtain.toggle None Curtain.init))
    = Curtain.SPOTLIGHT /\
  50 <= Curtain.spotlight_radius
          (Curtain.wheelEvent 120
             (Curtain.toggle None (Curtain.toggle None Curtain.init))) <= 500.
Proof.
  split; [reflexivity|].
  apply (proj1 (proj2 (spotlight_radius_stays_in_range [] 120
           (Curtain.toggle None (Curtain.toggle None Curtain.init))))).
  reflexivity.
Defined.

(** X22. Dragging an edge of the revealed rectangle never squeezes it: a
    move while an edge is held in Full mode leaves at least 50 between
    that edge and the opposite one, puts the edge at the pointer whenever
    that respects the limit, and moves no other edge.  A rectangle with
    at least 50 both ways keeps that under every sequence of events, as
    long as a toggle that enters Full finds a parent of at least
    51 x 153. *)
Theorem curtain_drag_keeps_room (es : list Curtain.Event) (pos : QPoint)
        (c : Curtain.CurtainOverlay) :
  Curtain.roomy (Curtain.reveal_rect c) ->
  Forall Curtain.parent_fits es ->
  Curtain.roomy (Curtain.reveal_rect (Curtain.handle_all es c)) /\
  (Curtain.mode c = Curtain.FULL ->
   Curtain.dragging_edge c = Some Curtain.EdgeBottom ->
   Curtain.reveal_rect (Curtain.mouseMoveEvent pos c)
     = Curtain.setBottom (Z.max (Curtain.y1 (Curtain.reveal_rect c) + 50) (qy pos))
                         (Curtain.reveal_rect c)) /\
  (Curtain.mode c = Curtain.FULL ->
   Curtain.dragging_edge c = Some Curtain.EdgeTop ->
   Curtain.reveal_rect (Curtain.mouseMoveEvent pos c)
     = Curtain.setTop (Z.min (Curtain.y2 (Curtain.reveal_rect c) - 50) (qy pos))
                      (Curtain.reveal_rect c)) /\
  (Curtain.mode c = Curtain.FULL ->
   Curtain.dragging_edge c = Some Curtain.EdgeRight ->
   Curtain.reveal_rect (Curtain.mouseMoveEvent pos c)
     = Curtain.setRight (Z.max (Curtain.x1 (Curtain.reveal_rect c) + 50) (qx pos))
                        (Curtain.reveal_rect c)) /\
  (Curtain.mode c = Curtain.FULL ->
   Curtain.dragging_edge c = Some Curtain.EdgeLeft ->
   Curtain.reveal_rect (Curtain.mouseMoveEvent pos c)
     = Curtain.setLeft (Z.min (Curtain.x2 (Curtain.reveal_rect c) - 50) (qx pos))
                       (Curtain.reveal_rect c)) /\
  (Curtain.dragging_edge c = None \/ Curtain.mode c = Curtain.OFF ->
   Curtain.reveal_rect (Curtain.mouseMoveEvent pos c) = Curtain.reveal_rect c).
Proof.
  intros Hroomy Hfit. split.
  - induction es as [|e es IH] using rev_ind; [exact Hroomy|].
    apply Forall_app in Hfit as [Hes He]. apply Forall_inv in He.
    rewrite handle_all_snoc. apply handle_roomy; [exact He|now apply IH].
  - unfold Curtain.mouseMoveEvent.
    repeat split; try (intros -> ->; reflexivity).
    intros [-> | ->]; [|reflexivity]. now destruct (Curtain.mode c).
Qed.

Lemma curtain_drag_keeps_room_witness :
  let c := Curtain.mousePressEvent (mkQPoint 300 199)
             (Curtain.toggle (Some (800, 600)%Z) Curtain.init) in
  Curtain.roomy (Curtain.reveal_rect
                   (Curtain.handle_all [Curtain.Move (mkQPoint 300 10);
                                        Curtain.Release] c)).
Proof.
  intros c.
  apply (curtain_drag_keeps_room _ (mkQPoint 0 0) c).
  - split; apply Z.leb_le; vm_compute; reflexivity.
  - repeat constructor.
Defined.

(** * More on gestures and tools *)

Section ShapeGesture.

Lemma moves_shape (bs : list QPoint) :
  forall (c : DrawingCanvas),
    drawing c = true -> is_shape_tool (current_tool c) = true ->
    exists c',
      run (map MouseMove bs) c = Some c' /\
      c' = with_shape (shape_start c)
                      (match last bs with
                       | Some b => Some (QPointF_of b)
                       | None => shape_preview_end c
                       end) c.
Proof.
  induction bs as [|b bs IH]; intros c Hd Ht.
  - exists c. split; [reflexivity|]. now destruct c.
  - destruct (IH (with_shape (shape_start c) (Some (QPointF_of b)) c) Hd Ht)
      as (c' & R & ->).
    eexists. cbn [map run]. unfold step at 1. rewrite (move_shape c b Hd Ht).
    cbn [mbind option_bind]. split; [exact R|].
    rewrite last_cons. now destruct (last bs).
Qed.

End ShapeGesture.

(** X23. A shape keeps only the two ends of the drag: after a press at
    [a], any moves [bs] and the release, the committed shape goes from [a]
    to the last position moved to (to [a] itself when there was no move),
    provided both points pass the truth test; the positions in between
    leave no trace. *)
Theorem shape_uses_first_and_last_position (c : DrawingCanvas) (p : Page)
        (a : QPoint) (bs : list QPoint) :
  let b := match last bs with Some b => b | None => a end in
  is_shape_tool (current_tool c) = true -> page c = Some p ->
  QPointF_bool (QPointF_of a) = true -> QPointF_bool (QPointF_of b) = true ->
  exists c',
    run (MousePress LeftButton a :: map MouseMove bs ++ [MouseRelease LeftButton]) c
      = Some c' /\
    active_strokes c'
      = Some (strokes p ++ [shape_of (current_tool c) (current_color c)
                                     (current_width c) (current_opacity c) a b]).
Proof.
  intros b Ht Hp Ha Hb.
  destruct (moves_shape bs
              (with_drawing true
                 (with_shape (Some (QPointF_of a)) (Some (QPointF_of a)) c))
              eq_refl Ht) as (c1 & R1 & E1).
  assert (Hend : shape_preview_end c1 = Some (QPointF_of b)).
  { rewrite E1. simpl. unfold b. now destruct (last bs). }
  assert (Hstart : shape_start c1 = Some (QPointF_of a)) by (now rewrite E1).
  assert (Hrel : exists c', mouseReleaseEvent LeftButton c1 = Some c' /\
            active_strokes c'
            = Some (strokes p ++ [shape_of (current_tool c) (current_color c)
                                           (current_width c) (current_opacity c) a b])).
  { assert (Hd1 : drawing c1 = true) by (rewrite E1; reflexivity).
    assert (Ht1 : is_shape_tool (current_tool c1) = true) by (rewrite E1; exact Ht).
    assert (Hp1 : page c1 = Some p) by (rewrite E1; exact Hp).
    rewrite (release_shape c1 p Hd1 Ht1 Hp1).
    rewrite Hstart, Hend. simpl. rewrite Ha, Hb. simpl.
    eexists. split; [reflexivity|].
    unfold active_strokes, page. simpl.
    rewrite (page_insert_view c1 p _ Hp1). simpl.
    rewrite E1. reflexivity. }
  destruct Hrel as (c' & R2 & S2). exists c'. split; [|exact S2].
  cbn [run]. unfold step at 1. rewrite (press_shape c a Ht).
  cbn [mbind option_bind]. rewrite run_app, R1. simpl. now rewrite R2.
Qed.

Lemma shape_uses_first_and_last_position_witness :
  let c := mkCanvas LINE 0%Z 3 1 [new_Page NONE] 0 false None None None false in
  exists c',
    run (MousePress LeftButton (mkQPoint 1 1)
           :: map MouseMove [mkQPoint 90 5; mkQPoint 7 7] ++ [MouseRelease LeftButton]) c
      = Some c' /\
    active_strokes c' = Some [shape_of LINE 0%Z 3 1 (mkQPoint 1 1) (mkQPoint 7 7)].
Proof.
  intros c.
  apply (shape_uses_first_and_last_position c (new_Page NONE) (mkQPoint 1 1)
           [mkQPoint 90 5; mkQPoint 7 7]); try reflexivity;
    apply QPointF_of_nonzero; lia.
Defined.

(** X24. Selecting the eraser on a page with a background other than None
    overwrites the drawing colour with #f8f9fa, and selecting another tool
    afterwards does not bring the old colour back; on a transparent page
    the colour is kept.  Selecting any tool resets width and opacity to
    the tool's defaults. *)
Theorem eraser_overwrites_colour (c : DrawingCanvas) (p : Page) (t : ToolType) :
  page c = Some p ->
  exists c1 c2,
    set_tool ERASER c = Some c1 /\ set_tool t c1 = Some c2 /\
    current_color c1
      = match background p with NONE => current_color c | _ => 0xf8f9fa%Z end /\
    current_color c2 = current_color c1 /\
    current_width c2 = default_width t /\ current_opacity c2 = default_opacity t /\
    pages c2 = pages c.
Proof.
  intros Hp.
  set (col := match background p with NONE => current_color c | _ => 0xf8f9fa%Z end).
  set (c1 := mkCanvas ERASER col (default_width ERASER) (default_opacity ERASER)
                      (pages c) (current_page_idx c) (drawing c) (current_stroke c)
                      (shape_start c) (shape_preview_end c) (desktop_mode c)).
  assert (H1 : set_tool ERASER c = Some c1).
  { unfold set_tool. rewrite Hp. reflexivity. }
  assert (Hp1 : page c1 = Some p) by exact Hp.
  exists c1. unfold set_tool at 2. rewrite Hp1.
  destruct (ToolType_eqb t ERASER); simpl;
    (eexists; split; [exact H1|]; split; [reflexivity|]); simpl;
    repeat split; unfold col; now destruct (background p).
Qed.

Lemma eraser_overwrites_colour_witness :
  let c := with_pages [new_Page WHITE] init in
  exists c1 c2,
    set_tool ERASER c = Some c1 /\ set_tool PEN c1 = Some c2 /\
    current_color c2 = 0xf8f9fa%Z.
Proof.
  intros c.
  destruct (eraser_overwrites_colour c (new_Page WHITE) PEN eq_refl)
    as (c1 & c2 & H1 & H2 & H3 & H4 & _).
  exists c1, c2. split; [exact H1|]. split; [exact H2|].
  now rewrite H4, H3.
Defined.

(** * Painting and releasing *)

#[local] Arguments picture : simpl never.
#[local] Arguments paint_of : simpl never.
#[local] Arguments draw_background : simpl never.

Section Picture.

Lemma picture_app (a b : list PaintOp) : picture (a ++ b) = picture a ++ picture b.
Proof. unfold picture. apply flat_map_app. Qed.

Lemma truthy_both (a b : option QPointF) :
  truthy a && truthy b = match both_points a b with Some _ => true | None => false end.
Proof.
  unfold truthy, both_points. destruct a as [s|], b as [e|]; simpl; try easy.
  - now destruct (QPointF_bool s && QPointF_bool e).
  - now rewrite andb_false_r.
Qed.

(** A preview with a tool that is no shape tool paints nothing. *)
Lemma preview_without_shape_tool (t : ToolType) (col : QColor) (w op : R)
      (a b : option QPointF) :
  is_shape_tool t = false -> _paint_stroke (mkStroke [] col w t op a b) = [].
Proof.
  intros Ht. unfold _paint_stroke. simpl.
  destruct (both_points a b) as [[s e]|]; [|reflexivity].
  now destruct t.
Qed.

(** The parts of [paint_content] that come from the page. *)
Lemma paint_content_eq (rect : EdgeRect) (c : DrawingCanvas) (p : Page) :
  page c = Some p ->
  paint_content rect c =
    Some ((match background p with NONE => [PClickable rect] | _ => [] end) ++
          map PBackground (draw_background rect (background p)) ++
          map paint_of (strokes p) ++
          (match current_stroke c with
           | Some s => if (1 <? length (points s))%nat then [paint_of s] else []
           | None => []
           end) ++
          (if drawing c && truthy (shape_start c) && truthy (shape_preview_end c)
           then [paint_of (mkStroke [] (current_color c) (current_width c)
                                    (current_tool c) (current_opacity c * (6 / 10))
                                    (shape_start c) (shape_preview_end c))]
           else [])).
Proof. intros Hp. unfold paint_content. now rewrite Hp. Qed.

End Picture.

(** X25. Releasing the pointer does not change the picture: what
    [paintEvent] paints from the page right after a release has the same
    primitives, in the same colours and the same order, as right before
    it.  The committed shape takes the place of its preview (only its
    opacity goes from 0.6 of the current one to the current one), the
    committed freehand stroke the place of the stroke under construction,
    and a drag that commits nothing showed nothing.  (Stated for a release
    with a freehand-branch tool, or with a shape tool and no stroke left
    under construction.) *)
Theorem release_keeps_the_picture (rect : EdgeRect) (c c' : DrawingCanvas) :
  mouseReleaseEvent LeftButton c = Some c' ->
  is_shape_tool (current_tool c) = false \/ current_stroke c = None ->
  picture <$> paint_content rect c' = picture <$> paint_content rect c.
Proof.
  intros Hrel Hcase.
  destruct (drawing c) eqn:Hd.
  2:{ unfold mouseReleaseEvent in Hrel. rewrite Hd in Hrel. simpl in Hrel.
      now injection Hrel as <-. }
  destruct (page c) as [p|] eqn:Hp.
  2:{ unfold mouseReleaseEvent in Hrel. rewrite Hd in Hrel. simpl in Hrel.
      change (page (with_drawing false c)) with (page c) in Hrel.
      now rewrite Hp in Hrel. }
  rewrite (paint_content_eq rect c p Hp), Hd. simpl.
  destruct (is_shape_tool (current_tool c)) eqn:Ht.
  - (* a shape tool *)
    destruct Hcase as [Hc|Hs]; [discriminate|].
    rewrite (release_shape c p Hd Ht Hp) in Hrel. injection Hrel as <-.
    rewrite Hs, truthy_both.
    destruct (both_points (shape_start c) (shape_preview_end c)) as [[s e]|] eqn:Eb.
    + erewrite paint_content_eq; [|now apply (page_with_pages_insert c p)].
      simpl. rewrite Hs. simpl. f_equal.
      rewrite map_app, !picture_app. simpl. rewrite !app_nil_r. reflexivity.
    + rewrite (paint_content_eq rect _ p) by exact Hp. simpl. now rewrite Hs.
  - (* Pen, Highlighter, Chisel, Eraser, Cursor *)
    set (prev := if truthy (shape_start c) && truthy (shape_preview_end c)
                 then [paint_of (mkStroke [] (current_color c) (current_width c)
                                          (current_tool c) (current_opacity c * (6 / 10))
                                          (shape_start c) (shape_preview_end c))]
                 else []).
    assert (Hprev : picture prev = []).
    { unfold prev. destruct (_ && _); [|reflexivity]. unfold picture, paint_of. simpl.
      now rewrite preview_without_shape_tool. }
    clearbody prev.
    destruct (current_stroke c) as [s|] eqn:Hs.
    + rewrite (release_freehand c p s Hd Ht Hp Hs) in Hrel. injection Hrel as <-.
      destruct (1 <? length (points s))%nat.
      * erewrite paint_content_eq; [|now apply (page_with_pages_insert c p)].
        simpl. f_equal. change (paint_of s :: prev) with ([paint_of s] ++ prev).
        rewrite map_app, !picture_app, Hprev. simpl.
        now rewrite !app_nil_r.
      * rewrite (paint_content_eq rect _ p) by exact Hp. simpl. f_equal.
        rewrite !picture_app, Hprev. now rewrite !app_nil_r.
    + assert (Hrel' : c' = with_stroke None (with_drawing false c)).
      { unfold mouseReleaseEvent in Hrel. rewrite Hd in Hrel. simpl in Hrel.
        change (page (with_drawing false c)) with (page c) in Hrel.
        rewrite Hp in Hrel. simpl in Hrel. rewrite Ht, Hs in Hrel.
        now injection Hrel as <-. }
      subst c'. rewrite (paint_content_eq rect _ p) by exact Hp. simpl. f_equal.
      rewrite !picture_app, Hprev. now rewrite !app_nil_r.
Qed.

Lemma release_keeps_the_picture_witness :
  let rect := mkEdgeRect 0 0 100 100 in
  let c := mkCanvas PEN 0%Z 3 1 [new_Page NONE] 0 true
             (Some (mkStroke [mkQPointF 1 1; mkQPointF 5 5] 0%Z 3 PEN 1 None None))
             None None false in
  exists c', mouseReleaseEvent LeftButton c = Some c' /\
             picture <$> paint_content rect c' = picture <$> paint_content rect c.
Proof.
  intros rect c. eexists. split; [reflexivity|].
  apply (release_keeps_the_picture rect c); [reflexivity|left; reflexivity].
Defined.

(** * The floating toolbar *)

Section ToolbarDrag.
Import Toolbar.

Lemma wrap32_small (z : Z) : int32 z -> wrap32 z = z.
Proof. unfold int32, wrap32. intros H. rewrite Z.mod_small; lia. Qed.

Lemma wrap32_range (z : Z) : int32 (wrap32 z).
Proof.
  unfold int32, wrap32.
  pose proof (Z.mod_pos_bound (z + 2147483648) 4294967296 ltac:(lia)). lia.
Qed.

Lemma wrap32_zero (z : Z) :
  (-4294967296 < z < 4294967296)%Z -> wrap32 z = 0%Z -> z = 0%Z.
Proof.
  unfold wrap32. intros H E.
  pose proof (Z.div_mod (z + 2147483648) 4294967296 ltac:(lia)) as D.
  set (q := ((z + 2147483648) / 4294967296)%Z) in D.
  set (m := ((z + 2147483648) mod 4294967296)%Z) in *.
  lia.
Qed.

(** The difference with a wrapped offset is the wrapped difference. *)
Lemma wrap32_sub_wrap (a b : Z) : wrap32 (a - wrap32 b) = wrap32 (a - b).
Proof.
  unfold wrap32.
  apply (f_equal (fun x => (x - 2147483648)%Z)).
  replace (a - ((b + 2147483648) mod 4294967296 - 2147483648) + 2147483648)%Z
    with ((a + 4294967296) - (b + 2147483648) mod 4294967296)%Z by ring.
  rewrite Zminus_mod_idemp_r. f_equal. ring.
Qed.

Lemma drag_through_snoc (gs : list QPoint) (g : QPoint) (t : FloatingToolbar) :
  drag_through (gs ++ [g]) t = mouseMoveEvent true g (drag_through gs t).
Proof. unfold drag_through. now rewrite fold_left_app. Qed.

Lemma drag_through_keeps_grab (gs : list QPoint) (t : FloatingToolbar) :
  _drag_pos (drag_through gs t) = _drag_pos t.
Proof.
  induction gs as [|g gs IH] using rev_ind; [reflexivity|].
  rewrite drag_through_snoc. unfold mouseMoveEvent.
  destruct (_drag_pos (drag_through gs t)) as [d|] eqn:E; [|now rewrite E].
  destruct (QPoint_bool d && true); simpl; congruence.
Qed.

Lemma drag_through_idle (gs : list QPoint) (t : FloatingToolbar) :
  match _drag_pos t with Some d => QPoint_bool d = false | None => True end ->
  drag_through gs t = t.
Proof.
  intros H. induction gs as [|g gs IH] using rev_ind; [reflexivity|].
  rewrite drag_through_snoc, IH. unfold mouseMoveEvent.
  destruct (_drag_pos t) as [d|]; [|reflexivity]. now rewrite H.
Qed.

End ToolbarDrag.

(** X26. Dragging the toolbar keeps the grab offset: after a left press
    at [g0] and moves with the button held, the toolbar sits where the
    last move put the grabbed spot, at [pos + (g - g0)] in 32-bit
    arithmetic, whatever the moves before it; that is [pos + (g - g0)]
    itself when a [QPoint] can hold it.  But a toolbar grabbed exactly at
    its top-left corner does not follow the pointer at all, because the
    offset (0, 0) is false in the test [self._drag_pos and ...]; nor does
    it move before a press or after the release. *)
Theorem toolbar_drag_keeps_offset (t : Toolbar.FloatingToolbar) (g0 g : QPoint)
        (gs : list QPoint) :
  QPoint_ok (Toolbar.pos t) -> QPoint_ok g0 ->
  let grabbed := Toolbar.mousePressEvent true g0 t in
  let target := mkQPoint (qx (Toolbar.pos t) + (qx g - qx g0))
                         (qy (Toolbar.pos t) + (qy g - qy g0)) in
  (g0 <> Toolbar.pos t ->
   Toolbar.pos (Toolbar.drag_through (gs ++ [g]) grabbed)
     = mkQPoint (Toolbar.wrap32 (qx target)) (Toolbar.wrap32 (qy target)) /\
   QPoint_ok (Toolbar.pos (Toolbar.drag_through (gs ++ [g]) grabbed)) /\
   (QPoint_ok target ->
    Toolbar.pos (Toolbar.drag_through (gs ++ [g]) grabbed) = target)) /\
  (g0 = Toolbar.pos t -> Toolbar.drag_through (gs ++ [g]) grabbed = grabbed) /\
  (Toolbar._drag_pos t = None -> Toolbar.drag_through (gs ++ [g]) t = t) /\
  Toolbar.drag_through (gs ++ [g]) (Toolbar.mouseReleaseEvent grabbed)
    = Toolbar.mouseReleaseEvent grabbed.
Proof.
  intros Hp Hg0 grabbed target. split; [|split; [|split]].
  - intros Hne.
    assert (Hb : Toolbar.QPoint_bool (Toolbar.QPoint_sub g0 (Toolbar.pos t)) = true).
    { unfold Toolbar.QPoint_bool, Toolbar.QPoint_sub. simpl.
      apply negb_true_iff, andb_false_iff.
      destruct (Z.eqb_spec (Toolbar.wrap32 (qx g0 - qx (Toolbar.pos t))) 0) as [Hx|Hx];
        [|now left].
      destruct (Z.eqb_spec (Toolbar.wrap32 (qy g0 - qy (Toolbar.pos t))) 0) as [Hy|Hy];
        [|now right].
      exfalso. apply Hne.
      destruct Hp as [Hpx Hpy], Hg0 as [Hgx Hgy].
      apply wrap32_zero in Hx; [|unfold int32 in *; lia].
      apply wrap32_zero in Hy; [|unfold int32 in *; lia].
      destruct g0, (Toolbar.pos t). simpl in *. f_equal; lia. }
    assert (Hpos : Toolbar.pos (Toolbar.drag_through (gs ++ [g]) grabbed)
                   = mkQPoint (Toolbar.wrap32 (qx target)) (Toolbar.wrap32 (qy target))).
    { rewrite drag_through_snoc. unfold Toolbar.mouseMoveEvent.
      rewrite drag_through_keeps_grab. simpl. rewrite Hb. simpl.
      unfold Toolbar.QPoint_sub. simpl. rewrite !wrap32_sub_wrap.
      unfold target. simpl. f_equal; f_equal; lia. }
    split; [exact Hpos|]. rewrite Hpos. split.
    + split; apply wrap32_range.
    + intros [Hx Hy]. unfold target in *. simpl in *.
      now rewrite !wrap32_small.
  - intros ->. apply drag_through_idle. simpl.
    unfold Toolbar.QPoint_bool, Toolbar.QPoint_sub. simpl.
    now rewrite !Z.sub_diag.
  - intros H. apply drag_through_idle. now rewrite H.
  - now apply drag_through_idle.
Qed.

Lemma toolbar_drag_keeps_offset_witness :
  mkQPoint 12 25 <> mkQPoint 10 20 /\
  Toolbar.pos
    (Toolbar.drag_through ([mkQPoint 50 50] ++ [mkQPoint 30 40])
       (Toolbar.mousePressEvent true (mkQPoint 12 25)
          (Toolbar.mkToolbar (mkQPoint 10 20) None)))
    = mkQPoint (10 + (30 - 12)) (20 + (40 - 25)).
Proof.
  assert (H1 : QPoint_ok (mkQPoint 10 20)) by (unfold QPoint_ok, int32; simpl; lia).
  assert (H2 : QPoint_ok (mkQPoint 12 25)) by (unfold QPoint_ok, int32; simpl; lia).
  split; [discriminate|].
  apply (proj1 (toolbar_drag_keeps_offset
                  (Toolbar.mkToolbar (mkQPoint 10 20) None)
                  (mkQPoint 12 25) (mkQPoint 30 40) [mkQPoint 50 50] H1 H2)).
  - simpl. discriminate.
  - unfold QPoint_ok, int32; simpl; lia.
Defined.
